(** * Second-brain-notes: the outliner's tree engine

    A shallow embedding of the tree-mutation functions of
    [src/components/NotesEditor.tsx] (with the [NoteNode] type of
    [src/types]) and the properties of the outline they maintain.

    Conventions of the embedding.
    - A JavaScript string used as an identifier is a [string]; node content
      is HTML text whose characters matter (the merge heuristic looks at
      white space), so it is a list of UTF-16 code units, [jsstring].
    - An optional field ([parentId?], [collapsed?], [style?], ...) is an
      [option]; reading it in a boolean position uses JavaScript truthiness.
    - [new Date()] is the clock reading [now] handed to the function, and
      [uuidv4()] is the identifier [uuid] handed to it.
    - [{ ...node, f: v }] is the record with field [f] replaced.
    - The editable element of a bullet is the list of its child nodes
      ([Dom]: text nodes and elements) and a caret is a boundary point in
      it ([Point]); [Range.cloneContents], [Range.deleteContents],
      [Range.toString] and [innerHTML] are written out after the DOM and
      HTML standards. *)

From Stdlib Require Import List String Ascii ZArith NArith Bool Arith Lia.
From Stdlib Require Import Permutation.
Import ListNotations.
Open Scope string_scope.
Open Scope list_scope.

Set Implicit Arguments.

(** ** JavaScript strings *)

Definition jschar := N.
Definition jsstring := list jschar.

Definition jsstr (s : string) : jsstring :=
  map N_of_ascii (list_ascii_of_string s).

(** ** The node model ([src/types]: [NoteNode]) *)

Inductive FontSize := sm | base | lg | xl.

Record Style := mkStyle {
  bold : option bool;
  italic : option bool;
  underline : option bool;
  size : option FontSize
}.

Unset Elimination Schemes.
Inductive NoteNode := mkNode {
  id : string;
  content : jsstring;
  children : list NoteNode;
  parentId : option string;
  isChecklist : option bool;
  checked : option bool;
  style : option Style;
  collapsed : option bool;
  createdAt : Z;
  updatedAt : Z
}.
Set Elimination Schemes.

(** The induction principle of a tree whose children are a list. *)
Section NoteNode_induction.
Variable P : NoteNode -> Prop.
Hypothesis step : forall i c cs p k ch st co ca ua,
  Forall P cs -> P (mkNode i c cs p k ch st co ca ua).

Fixpoint NoteNode_ind (n : NoteNode) : P n :=
  match n with
  | mkNode i c cs p k ch st co ca ua =>
      step i c p k ch st co ca ua
        ((fix all (l : list NoteNode) : Forall P l :=
            match l with
            | [] => Forall_nil P
            | x :: t => Forall_cons x (NoteNode_ind x) (all t)
            end) cs)
  end.
End NoteNode_induction.

(** Induction on a forest: a property of sibling lists that holds of the
    empty list and is carried over a node from its children and its later
    siblings. *)
Lemma forest_ind (Q : list NoteNode -> Prop) :
  Q [] ->
  (forall n l, Q (children n) -> Q l -> Q (n :: l)) ->
  forall l, Q l.
Proof.
  intros Hnil Hcons.
  assert (Hn : forall n, Q (children n)).
  { induction n using NoteNode_ind. simpl.
    induction H as [|x t Hx _ IHt]; [exact Hnil|].
    apply Hcons; assumption. }
  induction l as [|n l IH]; [exact Hnil|].
  apply Hcons; [apply Hn|exact IH].
Qed.

(** Record updates, [{ ...n, field: v }]. *)
Definition with_children (n : NoteNode) (cs : list NoteNode) : NoteNode :=
  mkNode (id n) (content n) cs (parentId n) (isChecklist n) (checked n)
         (style n) (collapsed n) (createdAt n) (updatedAt n).

Definition with_parentId (n : NoteNode) (p : option string) : NoteNode :=
  mkNode (id n) (content n) (children n) p (isChecklist n) (checked n)
         (style n) (collapsed n) (createdAt n) (updatedAt n).

Definition with_content (n : NoteNode) (c : jsstring) (now : Z) : NoteNode :=
  mkNode (id n) c (children n) (parentId n) (isChecklist n) (checked n)
         (style n) (collapsed n) (createdAt n) now.

Definition with_style (n : NoteNode) (s : Style) (now : Z) : NoteNode :=
  mkNode (id n) (content n) (children n) (parentId n) (isChecklist n)
         (checked n) (Some s) (collapsed n) (createdAt n) now.

Definition with_collapsed (n : NoteNode) (c : bool) (now : Z) : NoteNode :=
  mkNode (id n) (content n) (children n) (parentId n) (isChecklist n)
         (checked n) (style n) (Some c) (createdAt n) now.

(** ** Array helpers *)

(** [Array.prototype.findIndex]; [None] is the source's [-1]. *)
Fixpoint findIndex {A} (p : A -> bool) (l : list A) : option nat :=
  match l with
  | [] => None
  | x :: t => if p x then Some 0 else option_map S (findIndex p t)
  end.

(** [a.splice(i, 0, x)] on a copy of [a]. *)
Definition spliceIn {A} (i : nat) (x : A) (l : list A) : list A :=
  firstn i l ++ x :: skipn i l.

(** [a.splice(i, 1)] on a copy of [a]. *)
Definition spliceOut {A} (i : nat) (l : list A) : list A :=
  firstn i l ++ skipn (S i) l.

(** [a[i] = x] for an index inside the array. *)
Fixpoint setAt {A} (i : nat) (x : A) (l : list A) : list A :=
  match l, i with
  | [], _ => []
  | _ :: t, 0 => x :: t
  | y :: t, S j => y :: setAt j x t
  end.

Definition hasId (a : string) (n : NoteNode) : bool := String.eqb (id n) a.

(** Truthiness of an optional string: [undefined] and [''] are falsy. *)
Definition truthyId (p : option string) : option string :=
  match p with
  | Some s => if String.eqb s "" then None else Some s
  | None => None
  end.

(** Truthiness of an optional boolean flag. *)
Definition flag (b : option bool) : bool :=
  match b with Some true => true | _ => false end.

(** ** Tree mutation engine *)

(** [updateNodeContent]: the matching node gets the content and a new
    [updatedAt]; below a node that does not match the walk goes on. *)
Fixpoint updateContentIn (nodeId : string) (c : jsstring) (now : Z)
    (node : NoteNode) : NoteNode :=
  if hasId nodeId node then with_content node c now
  else if Nat.ltb 0 (List.length (children node))
       then with_children node
              (map (updateContentIn nodeId c now) (children node))
       else node.

Definition updateNodeContent (nodeId : string) (c : jsstring) (now : Z)
    (nodeList : list NoteNode) : list NoteNode :=
  map (updateContentIn nodeId c now) nodeList.

(** [insertAfterNode].  The source's [insertInList] looks at one sibling
    list and, when the id is not there, maps itself over the children of
    every node.  The recursion goes through a node's children, so it is
    tied at the node ([insertInChildren] is
    [node => ({ ...node, children: insertInList(node.children) })]);
    [insertInList_eq] below is the source's equation. *)
Definition insertInList_step (rec : NoteNode -> NoteNode)
    (afterNodeId : string) (newNode : NoteNode) (nodes : list NoteNode)
    : list NoteNode :=
  match findIndex (hasId afterNodeId) nodes with
  | Some index => spliceIn (index + 1) newNode nodes
  | None => map rec nodes
  end.

Fixpoint insertInChildren (afterNodeId : string) (newNode : NoteNode)
    (node : NoteNode) : NoteNode :=
  with_children node
    (insertInList_step (insertInChildren afterNodeId newNode)
       afterNodeId newNode (children node)).

Definition insertInList (afterNodeId : string) (newNode : NoteNode)
    (nodes : list NoteNode) : list NoteNode :=
  insertInList_step (insertInChildren afterNodeId newNode)
    afterNodeId newNode nodes.

Definition insertAfterNode (afterNodeId : string) (newNode : NoteNode)
    (nodeList : list NoteNode) : list NoteNode :=
  insertInList afterNodeId newNode nodeList.

(** [deleteNode]: [deleteFromList] filters the sibling list and maps itself
    over the children of what is left ([deleteFromList_eq]). *)
Fixpoint deleteInChildren (nodeId : string) (node : NoteNode) : NoteNode :=
  with_children node
    ((fix deleteFromList (nodes : list NoteNode) : list NoteNode :=
        match nodes with
        | [] => []
        | n :: rest =>
            if negb (hasId nodeId n)
            then deleteInChildren nodeId n :: deleteFromList rest
            else deleteFromList rest
        end) (children node)).

Definition deleteFromList (nodeId : string) (nodes : list NoteNode)
    : list NoteNode :=
  map (deleteInChildren nodeId)
      (filter (fun n => negb (hasId nodeId n)) nodes).

Definition deleteNode (nodeId : string) (nodeList : list NoteNode)
    : list NoteNode :=
  deleteFromList nodeId nodeList.

(** [indentNode]: [findAndIndent] moves the node under its previous sibling
    when it finds the id at an index above 0 of the sibling list it looks
    at, and otherwise maps itself over the children of every node. *)
Definition findAndIndent_step (rec : NoteNode -> NoteNode)
    (nodeId : string) (nodes : list NoteNode) : list NoteNode :=
  match findIndex (hasId nodeId) nodes with
  | Some (S prev as index) =>
      match nth_error nodes index, nth_error nodes prev with
      | Some nodeToIndent, Some previousNode =>
          setAt prev
            (with_children previousNode
               (children previousNode ++
                [with_parentId nodeToIndent (Some (id previousNode))]))
            (spliceOut index nodes)
      | _, _ => nodes
      end
  | _ => map rec nodes
  end.

Fixpoint indentInChildren (nodeId : string) (node : NoteNode) : NoteNode :=
  with_children node
    (findAndIndent_step (indentInChildren nodeId) nodeId (children node)).

Definition findAndIndent (nodeId : string) (nodes : list NoteNode)
    : list NoteNode :=
  findAndIndent_step (indentInChildren nodeId) nodeId nodes.

Definition indentNode (nodeId : string) (nodeList : list NoteNode)
    : list NoteNode :=
  findAndIndent nodeId nodeList.

(** [findParentId] and [findNodeById]: depth-first search, first match.
    The [for ... of] loop over a sibling list is the [Fixpoint] on the
    list; [rec] is the recursive call on a node's children. *)
Fixpoint findParentId_loop (rec : NoteNode -> option string)
    (targetId : string) (parent : option string) (lst : list NoteNode)
    : option string :=
  match lst with
  | [] => None
  | n :: rest =>
      if hasId targetId n then truthyId parent
      else match rec n with
           | Some found => Some found
           | None => findParentId_loop rec targetId parent rest
           end
  end.

Fixpoint findParentIdUnder (targetId : string) (n : NoteNode)
    : option string :=
  findParentId_loop (findParentIdUnder targetId) targetId (Some (id n))
    (children n).

Definition findParentId (lst : list NoteNode) (targetId : string)
    (parent : option string) : option string :=
  findParentId_loop (findParentIdUnder targetId) targetId parent lst.

Fixpoint findNodeById_loop (rec : NoteNode -> option NoteNode)
    (targetId : string) (lst : list NoteNode) : option NoteNode :=
  match lst with
  | [] => None
  | n :: rest =>
      if hasId targetId n then Some n
      else match rec n with
           | Some found => Some found
           | None => findNodeById_loop rec targetId rest
           end
  end.

Fixpoint findNodeUnder (targetId : string) (n : NoteNode)
    : option NoteNode :=
  findNodeById_loop (findNodeUnder targetId) targetId (children n).

Definition findNodeById (lst : list NoteNode) (targetId : string)
    : option NoteNode :=
  findNodeById_loop (findNodeUnder targetId) targetId lst.

(** [outdentNode].  [removeNode] walks a sibling list with an index [i];
    the loop below carries [list.slice(0, i)] as [before] and
    [list.slice(i)] as [rest]. *)
Record RemoveResult := mkRemoveResult {
  updated : list NoteNode;
  removed : option NoteNode;
  removedFrom : option string
}.

Fixpoint removeNode_loop (rec : NoteNode -> RemoveResult)
    (nodeId : string) (lst : list NoteNode) (parent : option string)
    (before rest : list NoteNode) : RemoveResult :=
  match rest with
  | [] => mkRemoveResult lst None parent
  | n :: after =>
      if hasId nodeId n
      then mkRemoveResult (before ++ after) (Some n) parent
      else
        let childRes := rec n in
        match removed childRes with
        | Some r =>
            mkRemoveResult
              (before ++ with_children n (updated childRes) :: after)
              (Some r) (removedFrom childRes)
        | None =>
            removeNode_loop rec nodeId lst parent (before ++ [n]) after
        end
  end.

Fixpoint removeNodeUnder (nodeId : string) (n : NoteNode) : RemoveResult :=
  removeNode_loop (removeNodeUnder nodeId) nodeId (children n)
    (Some (id n)) [] (children n).

Definition removeNode (nodeId : string) (lst : list NoteNode)
    (parent : option string) : RemoveResult :=
  removeNode_loop (removeNodeUnder nodeId) nodeId lst parent [] lst.

(** [outdentNode]: a root node stays; otherwise the node is taken out and
    put back after its parent.  [!parentId] also rejects the empty id. *)
Definition outdentNode (nodeId : string) (nodeList : list NoteNode)
    : list NoteNode :=
  if existsb (hasId nodeId) nodeList then nodeList
  else
    let res := removeNode nodeId nodeList None in
    match removed res, truthyId (removedFrom res) with
    | Some r, Some parent =>
        let grandParentId := findParentId (updated res) parent None in
        let nodeToInsert := with_parentId r grandParentId in
        insertAfterNode parent nodeToInsert (updated res)
    | _, _ => nodeList
    end.

(** The walk that [attachChildrenTo] and the [apply] of [updateNodeStyle],
    [setNodeIsChecklist], [toggleChecked] and [setNodeCollapsed] all
    spell out:
    [list.map(n => n.id === nodeId ? f(n)
                                   : { ...n, children: apply(n.children) })]. *)
Fixpoint applyIn (nodeId : string) (f : NoteNode -> NoteNode)
    (n : NoteNode) : NoteNode :=
  if hasId nodeId n then f n
  else with_children n (map (applyIn nodeId f) (children n)).

Definition applyAt (nodeId : string) (f : NoteNode -> NoteNode)
    (lst : list NoteNode) : list NoteNode :=
  map (applyIn nodeId f) lst.

(** [attachChildrenTo]. *)
Definition attachChildrenTo (toId : string) (childrenToAdd : list NoteNode)
    (lst : list NoteNode) : list NoteNode :=
  applyAt toId (fun n => with_children n (children n ++ childrenToAdd)) lst.

(** ** Visibility *)

(** [flattenVisibleNodes]: [dfs] pushes a node and then walks its children
    when there are some and the node is not collapsed. *)
Fixpoint dfsNode (n : NoteNode) : list NoteNode :=
  n :: (if Nat.ltb 0 (List.length (children n)) && negb (flag (collapsed n))
        then flat_map dfsNode (children n)
        else []).

Definition flattenVisibleNodes (lst : list NoteNode) : list NoteNode :=
  flat_map dfsNode lst.

(** [getTotalNodeCount], the [reduce] of the backspace handler. *)
Fixpoint countUnder (n : NoteNode) : nat :=
  fold_left (fun acc c => acc + 1 + countUnder c) (children n) 0.

Definition getTotalNodeCount (lst : list NoteNode) : nat :=
  fold_left (fun acc n => acc + 1 + countUnder n) lst 0.

(** ** Style and collapse mutators *)

Definition emptyStyle : Style := mkStyle None None None None.

(** [updateNodeStyle]; the updater sees [n.style || {}]. *)
Definition updateNodeStyle (now : Z) (nodeId : string)
    (updater : Style -> Style) (nodes : list NoteNode) : list NoteNode :=
  applyAt nodeId
    (fun n =>
       with_style n
         (updater (match style n with Some s => s | None => emptyStyle end))
         now)
    nodes.

Definition setFontSize (now : Z) (nodeId : string) (sz : FontSize)
    (nodes : list NoteNode) : list NoteNode :=
  updateNodeStyle now nodeId
    (fun s => mkStyle (bold s) (italic s) (underline s) (Some sz)) nodes.

Definition order : list FontSize := [sm; base; lg; xl].

Definition FontSize_eqb (x y : FontSize) : bool :=
  match x, y with
  | sm, sm | base, base | lg, lg | xl, xl => true
  | _, _ => false
  end.

(** [order.indexOf(current)], [-1] when it is not there. *)
Definition indexOf (x : FontSize) (l : list FontSize) : Z :=
  match findIndex (FontSize_eqb x) l with
  | Some i => Z.of_nat i
  | None => (-1)%Z
  end.

(** [order[idx]] for an index inside the array. *)
Definition orderAt (idx : Z) : FontSize := nth (Z.to_nat idx) order base.

(** [findNodeById(nodes, nodeId)?.style?.size || 'base']. *)
Definition currentSize (nodes : list NoteNode) (nodeId : string)
    : FontSize :=
  match findNodeById nodes nodeId with
  | Some n =>
      match style n with
      | Some s => match size s with Some z => z | None => base end
      | None => base
      end
  | None => base
  end.

Definition incFont (now : Z) (nodeId : string) (nodes : list NoteNode)
    : list NoteNode :=
  let current := currentSize nodes nodeId in
  let idx := Z.min (Z.of_nat (List.length order) - 1)
                   (indexOf current order + 1) in
  setFontSize now nodeId (orderAt idx) nodes.

Definition decFont (now : Z) (nodeId : string) (nodes : list NoteNode)
    : list NoteNode :=
  let current := currentSize nodes nodeId in
  let idx := Z.max 0 (indexOf current order - 1) in
  setFontSize now nodeId (orderAt idx) nodes.

(** [setNodeCollapsed], the forest it hands to [setNodes]. *)
Definition setNodeCollapsed (now : Z) (nodeId : string) (c : bool)
    (prev : list NoteNode) : list NoteNode :=
  applyAt nodeId (fun n => with_collapsed n c now) prev.

(** ** The view, and the plain text of the merge heuristic *)

(** [getCurrentNodes]: the children of the node in focus mode, else the
    whole forest. *)
Definition getCurrentNodes (focusedNodeId : option string)
    (nodes : list NoteNode) : list NoteNode :=
  match truthyId focusedNodeId with
  | None => nodes
  | Some f =>
      match findNodeById nodes f with
      | Some focusedNode => children focusedNode
      | None => nodes
      end
  end.

(** White space of the regular-expression class [\s], as code units. *)
Definition isSpace (c : jschar) : bool :=
  (N.leb 9 c && N.leb c 13) || N.eqb c 32 || N.eqb c 160 || N.eqb c 5760
  || (N.leb 8192 c && N.leb c 8202) || N.eqb c 8232 || N.eqb c 8233
  || N.eqb c 8239 || N.eqb c 8287 || N.eqb c 12288 || N.eqb c 65279.

Definition LT : jschar := 60%N.
Definition GT : jschar := 62%N.

(** [html.replace(/<[^>]+>/g, '')]: at each position either a tag matches
    and is dropped, or the character is kept.  A tag is [<], one character
    that is not [>], and everything up to the first [>] after it ([close]
    looks for that [>]). *)
Fixpoint toPlain (html : jsstring) : jsstring :=
  match html with
  | [] => []
  | c :: rest =>
      if N.eqb c LT then
        match rest with
        | d :: rest' =>
            if N.eqb d GT then c :: toPlain rest
            else
              match
                (fix close (s : jsstring) : option jsstring :=
                   match s with
                   | [] => None
                   | e :: s' =>
                       if N.eqb e GT then Some (toPlain s') else close s'
                   end) rest'
              with
              | Some plain => plain
              | None => c :: toPlain rest
              end
        | [] => c :: toPlain rest
        end
      else c :: toPlain rest
  end.

(** [/\S$/.test(s)] and [/^\S/.test(s)]. *)
Definition endsNonSpace (s : jsstring) : bool :=
  match rev s with
  | c :: _ => negb (isSpace c)
  | [] => false
  end.

Definition startsNonSpace (s : jsstring) : bool :=
  match s with
  | c :: _ => negb (isSpace c)
  | [] => false
  end.

Definition needsSpace (prevHtml currHtml : jsstring) : bool :=
  endsNonSpace (toPlain prevHtml) && startsNonSpace (toPlain currHtml).

Definition mergedHtml (prevHtml currHtml : jsstring) : jsstring :=
  if needsSpace prevHtml currHtml
  then prevHtml ++ 32%N :: currHtml
  else prevHtml ++ currHtml.

(** ** The editor: state, key handling, save scheduling *)

(** The state the handlers read and write: the [nodes] and
    [focusedNodeId] of [useState], the pending timeout of [saveTimer]
    (when it is due and the data its callback saves), and the calls of
    [saveNoteData] so far, oldest first.  A user is signed in. *)
Record Editor := mkEditor {
  nodes : list NoteNode;
  focusedNodeId : option string;
  saveTimer : option (Z * list NoteNode);
  saves : list (list NoteNode)
}.

Definition setNodes (next : list NoteNode) (e : Editor) : Editor :=
  mkEditor next (focusedNodeId e) (saveTimer e) (saves e).

Definition saveNoteData (updatedNodes : list NoteNode) (e : Editor)
    : Editor :=
  mkEditor (nodes e) (focusedNodeId e) (saveTimer e)
           (saves e ++ [updatedNodes]).

(** [newBulletAtCaret], after the DOM range has cut the element's HTML at
    the caret into [headHTML] and [tailHTML]. *)
Definition newBulletAtCaret (uuid : string) (now : Z) (nodeId : string)
    (headHTML tailHTML : jsstring) (nodeList : list NoteNode)
    : list NoteNode :=
  let newNode :=
    mkNode uuid tailHTML [] None None None None None now now in
  let withHead := updateNodeContent nodeId headHTML now nodeList in
  insertAfterNode nodeId newNode withHead.

(** [prevEl?.innerHTML ?? (findNodeById(nodes, id)?.content || '')]:
    [innerHTML] is what the editable elements hold, by node id. *)
Definition htmlOf (innerHTML : string -> option jsstring)
    (nodeList : list NoteNode) (nodeId : string) : jsstring :=
  match innerHTML nodeId with
  | Some html => html
  | None =>
      match findNodeById nodeList nodeId with
      | Some n => content n
      | None => []
      end
  end.

(** The merge branch of the Backspace key, once [prevId] is known. *)
Definition mergeInto (innerHTML : string -> option jsstring) (now : Z)
    (prevId nodeId : string) (nodeList : list NoteNode) : list NoteNode :=
  let prevHtml := htmlOf innerHTML nodeList prevId in
  let currHtml := htmlOf innerHTML nodeList nodeId in
  let merged := mergedHtml prevHtml currHtml in
  let currChildren :=
    match findNodeById nodeList nodeId with
    | Some currNodeObj => children currNodeObj
    | None => []
    end in
  let withMerged := updateNodeContent prevId merged now nodeList in
  let withChildren := attachChildrenTo prevId currChildren withMerged in
  deleteNode nodeId withChildren.

(** Backspace with the caret at the start of [nodeId]: the forest handed
    to [setNodes] when the node has a predecessor in the flattened view,
    [None] when the branch is not taken. *)
Definition mergeIntoPrevious (innerHTML : string -> option jsstring)
    (now : Z) (focused : option string) (nodeId : string)
    (nodeList : list NoteNode) : option (list NoteNode) :=
  let flat := flattenVisibleNodes (getCurrentNodes focused nodeList) in
  match findIndex (hasId nodeId) flat with
  | Some (S prevIdx) =>
      match nth_error flat prevIdx with
      | Some prev => Some (mergeInto innerHTML now (id prev) nodeId nodeList)
      | None => None
      end
  | _ => None
  end.

(** The Backspace branch of [handleKeyDown].  [atStart] is
    [isAtStart(div)] and [blank] is [getPlainText(div).trim() === '']. *)
Definition handleBackspace (innerHTML : string -> option jsstring)
    (now : Z) (atStart blank : bool) (nodeId : string) (e : Editor)
    : Editor :=
  match
    (if atStart
     then mergeIntoPrevious innerHTML now (focusedNodeId e) nodeId (nodes e)
     else None)
  with
  | Some afterDelete => saveNoteData afterDelete (setNodes afterDelete e)
  | None =>
      if blank && Nat.ltb 1 (getTotalNodeCount (nodes e))
      then
        let updatedNodes := deleteNode nodeId (nodes e) in
        saveNoteData updatedNodes (setNodes updatedNodes e)
      else e
  end.

(** [scheduleSave] at time [t] (milliseconds): a pending timeout is
    cleared and a new one is due 400 ms later. *)
Definition scheduleSave (t : Z) (data : list NoteNode) (e : Editor)
    : Editor :=
  mkEditor (nodes e) (focusedNodeId e) (Some (t + 400, data)%Z) (saves e).

Definition handleContentChange (t : Z) (nodeId : string)
    (html : jsstring) (e : Editor) : Editor :=
  let updatedNodes := updateNodeContent nodeId html t (nodes e) in
  scheduleSave t updatedNodes (setNodes updatedNodes e).

(** The callback of the timeout: [saveNoteData(data)] and the timer is
    cleared. *)
Definition fireTimer (e : Editor) : Editor :=
  match saveTimer e with
  | Some (_, data) =>
      mkEditor (nodes e) (focusedNodeId e) None (saves e ++ [data])
  | None => e
  end.

(** The clock reaches [t]: a timeout that is due has run. *)
Definition advanceTo (t : Z) (e : Editor) : Editor :=
  match saveTimer e with
  | Some (due, _) => if (due <=? t)%Z then fireTimer e else e
  | None => e
  end.

(** Input events on one node, each with the time it arrives at. *)
Fixpoint typing (nodeId : string) (edits : list (Z * jsstring))
    (e : Editor) : Editor :=
  match edits with
  | [] => e
  | (t, html) :: later =>
      typing nodeId later (handleContentChange t nodeId html (advanceTo t e))
  end.

(** No more input: a pending timeout runs. *)
Definition settle (e : Editor) : Editor := fireTimer e.

(** A run of Backspace presses, each with what the DOM shows then. *)
Record BackspaceKey := mkBackspaceKey {
  keyNode : string;
  keyAtStart : bool;
  keyBlank : bool;
  keyTime : Z
}.

Fixpoint backspaces (innerHTML : string -> option jsstring)
    (keys : list BackspaceKey) (e : Editor) : Editor :=
  match keys with
  | [] => e
  | k :: later =>
      backspaces innerHTML later
        (handleBackspace innerHTML (keyTime k) (keyAtStart k) (keyBlank k)
           (keyNode k) e)
  end.

(** * More of the editor *)

Unset Implicit Arguments.

(** ** Ancestry, collapse toggling and the active bullet *)

(** [isDescendant]: [helper] looks for the ancestor, depth first; at the
    first node with its id on the way, the answer is whether [contains]
    finds the target below that node. *)
Fixpoint contains_loop (rec : NoteNode -> bool) (targetId : string)
    (arr : list NoteNode) : bool :=
  match arr with
  | [] => false
  | c :: rest =>
      if hasId targetId c then true
      else if rec c then true
      else contains_loop rec targetId rest
  end.

Fixpoint containsUnder (targetId : string) (c : NoteNode) : bool :=
  contains_loop (containsUnder targetId) targetId (children c).

Definition contains (targetId : string) (arr : list NoteNode) : bool :=
  contains_loop (containsUnder targetId) targetId arr.

Fixpoint helper_loop (rec : NoteNode -> bool) (ancestorId targetId : string)
    (nodes : list NoteNode) : bool :=
  match nodes with
  | [] => false
  | n :: rest =>
      if hasId ancestorId n then contains targetId (children n)
      else if rec n then true
      else helper_loop rec ancestorId targetId rest
  end.

Fixpoint helperUnder (ancestorId targetId : string) (n : NoteNode) : bool :=
  helper_loop (helperUnder ancestorId targetId) ancestorId targetId
    (children n).

Definition isDescendant (lst : list NoteNode) (ancestorId targetId : string)
    : bool :=
  helper_loop (helperUnder ancestorId targetId) ancestorId targetId lst.

(** [toggleCollapse]: the forest handed to [setNodes] and the new
    [activeNodeId]; the active bullet moves to the toggled node when it
    is about to be hidden below it. *)
Definition toggleCollapse (now : Z) (nodeId : string)
    (activeNodeId : option string) (nodes : list NoteNode)
    : list NoteNode * option string :=
  let willCollapse :=
    negb (match findNodeById nodes nodeId with
          | Some n => flag (collapsed n)
          | None => false
          end) in
  let next := applyAt nodeId (fun n => with_collapsed n willCollapse now)
                nodes in
  let active :=
    match truthyId activeNodeId with
    | Some act =>
        if willCollapse && isDescendant nodes nodeId act
        then Some nodeId
        else activeNodeId
    | None => activeNodeId
    end in
  (next, active).

(** ** Checklist and style toggles *)

Definition with_isChecklist (n : NoteNode) (b : bool) (now : Z)
    : NoteNode :=
  mkNode (id n) (content n) (children n) (parentId n) (Some b) (checked n)
         (style n) (collapsed n) (createdAt n) now.

Definition with_checked (n : NoteNode) (b : bool) (now : Z) : NoteNode :=
  mkNode (id n) (content n) (children n) (parentId n) (isChecklist n)
         (Some b) (style n) (collapsed n) (createdAt n) now.

(** [setNodeIsChecklist], [toggleChecklist], [toggleChecked]. *)
Definition setNodeIsChecklist (now : Z) (nodeId : string) (b : bool)
    (nodes : list NoteNode) : list NoteNode :=
  applyAt nodeId (fun n => with_isChecklist n b now) nodes.

Definition toggleChecklist (now : Z) (nodeId : string)
    (nodes : list NoteNode) : list NoteNode :=
  setNodeIsChecklist now nodeId
    (negb (match findNodeById nodes nodeId with
           | Some node => flag (isChecklist node)
           | None => false
           end))
    nodes.

Definition toggleChecked (now : Z) (nodeId : string)
    (nodes : list NoteNode) : list NoteNode :=
  applyAt nodeId (fun n => with_checked n (negb (flag (checked n))) now)
    nodes.

(** [toggleBold], [toggleItalic], [toggleUnderline]:
    [s => ({ ...s, bold: !s?.bold })] and the like. *)
Definition toggleBold (now : Z) (nodeId : string) (nodes : list NoteNode)
    : list NoteNode :=
  updateNodeStyle now nodeId
    (fun s => mkStyle (Some (negb (flag (bold s)))) (italic s) (underline s)
                      (size s))
    nodes.

Definition toggleItalic (now : Z) (nodeId : string) (nodes : list NoteNode)
    : list NoteNode :=
  updateNodeStyle now nodeId
    (fun s => mkStyle (bold s) (Some (negb (flag (italic s)))) (underline s)
                      (size s))
    nodes.

Definition toggleUnderline (now : Z) (nodeId : string)
    (nodes : list NoteNode) : list NoteNode :=
  updateNodeStyle now nodeId
    (fun s => mkStyle (bold s) (italic s) (Some (negb (flag (underline s))))
                      (size s))
    nodes.

(** ** Adding a child *)

(** [addChildNode], the forest it hands to [setNodes]. *)
Definition addChildNode (uuid : string) (now : Z) (parentId : string)
    (nodes : list NoteNode) : list NoteNode :=
  let child :=
    mkNode uuid [] [] (Some parentId) None None None None now now in
  applyAt parentId (fun n => with_children n (children n ++ [child])) nodes.

(** ** Focus mode *)

(** [handleNodeClick] and [navigateBack] on [focusedNodeId] and
    [breadcrumbs]. *)
Definition handleNodeClick (node : NoteNode)
    (st : option string * list NoteNode) : option string * list NoteNode :=
  if Nat.ltb 0 (List.length (children node))
  then (Some (id node), snd st ++ [node])
  else st.

Definition navigateBack (st : option string * list NoteNode)
    : option string * list NoteNode :=
  if Nat.ltb 0 (List.length (snd st))
  then
    let newBreadcrumbs := removelast (snd st) in
    match rev newBreadcrumbs with
    | [] => (None, newBreadcrumbs)
    | lastCrumb :: _ => (Some (id lastCrumb), newBreadcrumbs)
    end
  else st.

(** ** Tags *)

(** [String.prototype.trim]. *)
Fixpoint trimStart (s : jsstring) : jsstring :=
  match s with
  | [] => []
  | c :: rest => if isSpace c then trimStart rest else s
  end.

Definition trim (s : jsstring) : jsstring :=
  rev (trimStart (rev (trimStart s))).

Definition HASH : jschar := 35%N.

(** [s.replace(/^[#]+/, '')]. *)
Fixpoint stripHashes (s : jsstring) : jsstring :=
  match s with
  | [] => []
  | c :: rest => if N.eqb c HASH then stripHashes rest else s
  end.

Definition jsstring_eqb (x y : jsstring) : bool :=
  if list_eq_dec N.eq_dec x y then true else false.

(** Enter in the tag input: the new [tags] and the new [newTag]. *)
Definition addTag (newTag : jsstring) (tags : list jsstring)
    : list jsstring * jsstring :=
  let val := stripHashes (trim newTag) in
  match val with
  | [] => (tags, newTag)
  | _ =>
      if existsb (jsstring_eqb val) tags then (tags, [])
      else (tags ++ [val], [])
  end.

(** The [×] of a tag: [tags.filter((x) => x !== t)]. *)
Definition removeTag (t : jsstring) (tags : list jsstring)
    : list jsstring :=
  filter (fun x => negb (jsstring_eqb x t)) tags.

(** ** Caret positions *)

(** [offsetToDomPos], on the text nodes of the element in the order of
    the tree walker; a node is named by its index in that order. *)
Fixpoint offsetToDomPos_walk (texts : list jsstring) (charIndex idx : Z)
    (k : nat) : option (nat * Z) :=
  match texts with
  | [] => None
  | node :: rest =>
      let len := Z.of_nat (List.length node) in
      if (charIndex <=? idx + len)%Z
      then Some (k, Z.max 0 (charIndex - idx))
      else offsetToDomPos_walk rest charIndex (idx + len)%Z (S k)
  end.

Definition offsetToDomPos (texts : list jsstring) (charIndex : Z)
    : option (nat * Z) :=
  match offsetToDomPos_walk texts charIndex 0 0 with
  | Some pos => Some pos
  | None =>
      match rev texts with
      | lastText :: _ =>
          Some (List.length texts - 1, Z.of_nat (List.length lastText))
      | [] => None
      end
  end.

(** [isWordChar(text.charAt(i))]: [charAt] past the end is [''], which
    [/\S/] does not match. *)
Definition isWordCharAt (text : jsstring) (i : nat) : bool :=
  match nth_error text i with
  | Some ch => negb (isSpace ch)
  | None => false
  end.

(** The two loops of [expandSelectionToWord]. *)
Fixpoint wordStart (text : jsstring) (start : nat) : nat :=
  match start with
  | 0 => 0
  | S before =>
      if isWordCharAt text before then wordStart text before else start
  end.

Fixpoint wordEnd_loop (fuel : nat) (text : jsstring) (e : nat) : nat :=
  match fuel with
  | 0 => e
  | S fuel' =>
      if Nat.ltb e (List.length text) && isWordCharAt text e
      then wordEnd_loop fuel' text (S e)
      else e
  end.

Definition wordEnd (text : jsstring) (e : nat) : nat :=
  wordEnd_loop (List.length text) text e.

(** ** Arrow keys *)

(** The bullet an arrow key pressed without Shift or Alt moves to, with
    [true] when the caret goes to its end; [None] when the key is left to
    the browser.  [flat] is [flattenVisibleNodes(getCurrentNodes())]. *)
Definition arrowUp (atStart : bool) (nodeId : string)
    (flat : list NoteNode) : option (string * bool) :=
  match findIndex (hasId nodeId) flat with
  | Some (S prev) =>
      if atStart
      then option_map (fun n => (id n, true)) (nth_error flat prev)
      else None
  | _ => None
  end.

Definition arrowDown (atEnd : bool) (nodeId : string)
    (flat : list NoteNode) : option (string * bool) :=
  match findIndex (hasId nodeId) flat with
  | Some index =>
      if atEnd && Nat.ltb index (List.length flat - 1)
      then option_map (fun n => (id n, true)) (nth_error flat (index + 1))
      else None
  | None => None
  end.

Definition arrowLeft (atStart : bool) (nodeId : string)
    (flat : list NoteNode) : option (string * bool) :=
  match findIndex (hasId nodeId) flat with
  | Some (S prev) =>
      if atStart
      then option_map (fun n => (id n, true)) (nth_error flat prev)
      else None
  | _ => None
  end.

Definition arrowRight (atEnd : bool) (nodeId : string)
    (nodes flat : list NoteNode) : option (string * bool) :=
  if atEnd then
    let next :=
      match findIndex (hasId nodeId) flat with
      | Some index =>
          if Nat.ltb index (List.length flat - 1)
          then option_map (fun n => (id n, false))
                 (nth_error flat (index + 1))
          else None
      | None => None
      end in
    match findNodeById nodes nodeId with
    | Some node =>
        match children node with
        | firstChild :: _ =>
            if negb (flag (collapsed node)) then Some (id firstChild, false)
            else next
        | [] => next
        end
    | None => next
    end
  else None.

(** ** Saving on structural edits and on blur *)

(** Tab and Shift+Tab. *)
Definition handleTab (shiftKey : bool) (nodeId : string) (e : Editor)
    : Editor :=
  let updatedNodes :=
    if shiftKey then outdentNode nodeId (nodes e)
    else indentNode nodeId (nodes e) in
  saveNoteData updatedNodes (setNodes updatedNodes e).

(** [onBlur] of a bullet: a pending timeout is cleared and the latest
    forest is saved at once. *)
Definition handleBlur (e : Editor) : Editor :=
  match saveTimer e with
  | Some _ =>
      mkEditor (nodes e) (focusedNodeId e) None (saves e ++ [nodes e])
  | None => e
  end.

(** ** Persistence ([lib/noteService]) *)

(** A node as it is stored: the fields of the node, the two dates as ISO
    strings; a stored document may lack [children]. *)
Unset Elimination Schemes.
Inductive StoredNode := mkStored {
  storedId : string;
  storedContent : jsstring;
  storedChildren : option (list StoredNode);
  storedParentId : option string;
  storedIsChecklist : option bool;
  storedChecked : option bool;
  storedStyle : option Style;
  storedCollapsed : option bool;
  storedCreatedAt : string;
  storedUpdatedAt : string
}.
Set Elimination Schemes.

Section NoteService.

(** [Date.prototype.toISOString] and [new Date(iso)], on dates as
    milliseconds. *)
Variable toISOString : Z -> string.
Variable parseDate : string -> Z.

(** [serializeNodes]. *)
Fixpoint serializeNode (node : NoteNode) : StoredNode :=
  mkStored (id node) (content node)
           (Some (map serializeNode (children node)))
           (parentId node) (isChecklist node) (checked node) (style node)
           (collapsed node)
           (toISOString (createdAt node)) (toISOString (updatedAt node)).

Definition serializeNodes (nodes : list NoteNode) : list StoredNode :=
  map serializeNode nodes.

(** [deserializeNodes]; [node.children || []]. *)
Fixpoint deserializeNode (node : StoredNode) : NoteNode :=
  mkNode (storedId node) (storedContent node)
         (match storedChildren node with
          | Some cs => map deserializeNode cs
          | None => []
          end)
         (storedParentId node) (storedIsChecklist node)
         (storedChecked node) (storedStyle node) (storedCollapsed node)
         (parseDate (storedCreatedAt node))
         (parseDate (storedUpdatedAt node)).

Definition deserializeNodes (nodes : list StoredNode) : list NoteNode :=
  map deserializeNode nodes.

End NoteService.

(** ** The AI route: bullets only ([app/api/ai/route.ts]) *)

Definition BULLET : jschar := 8226%N.

(** The class [\d]. *)
Definition isDigit (c : jschar) : bool := N.leb 48 c && N.leb c 57.

(** The class [[-*•\d.\)\s]]. *)
Definition isListMarker (c : jschar) : bool :=
  N.eqb c 45 || N.eqb c 42 || N.eqb c BULLET || isDigit c || N.eqb c 46
  || N.eqb c 41 || isSpace c.

(** [l.replace(/^[-*•\d.\)\s]+/, '')]. *)
Fixpoint stripListMarkers (s : jsstring) : jsstring :=
  match s with
  | [] => []
  | c :: rest => if isListMarker c then stripListMarkers rest else s
  end.

(** [bulletsOnly]: the [for ... of] loop over [items] with the array
    [result]; [continue] goes on with the rest, [break] returns. *)
Fixpoint bulletsOnly_loop (items : list jsstring) (max : nat)
    (result : list jsstring) : list jsstring :=
  match items with
  | [] => result
  | l :: rest =>
      let content := trim (stripListMarkers l) in
      match content with
      | [] => bulletsOnly_loop rest max result
      | _ =>
          let pushed := result ++ [BULLET :: 32%N :: content] in
          if Nat.leb max (List.length pushed) then pushed
          else bulletsOnly_loop rest max pushed
      end
  end.

Definition bulletsOnly (items : list jsstring) (max : nat)
    : list jsstring :=
  bulletsOnly_loop items max [].

(** ** The editable element of a bullet: child nodes, ranges, [innerHTML] *)

(** The child nodes of a [contentEditable] element: text nodes and
    elements.  An element carries its tag name as [innerHTML] writes it
    and its attributes as [innerHTML] writes them (each one a space, the
    name, [="], the escaped value, ["]). *)
Unset Elimination Schemes.
Inductive Dom :=
| Text (data : jsstring)
| Elem (tag attrs : jsstring) (childNodes : list Dom).
Set Elimination Schemes.

Section Dom_induction.
Variable P : Dom -> Prop.
Hypothesis text_step : forall data, P (Text data).
Hypothesis elem_step :
  forall tag attrs childNodes,
    Forall P childNodes -> P (Elem tag attrs childNodes).

End Dom_induction.

(** A boundary point of a range, as [(container, offset)], by the way to
    the container from the element: [At offset] is the element itself
    with an offset among its child nodes (or, under a text node, an
    offset in its data); [Inside index p] is the point [p] of its child
    number [index]. *)
Inductive Point :=
| At (offset : nat)
| Inside (index : nat) (p : Point).

(** [Range.prototype.toString] of the contents of the nodes: the data of
    the text nodes, in tree order. *)
Fixpoint textOfNode (d : Dom) : jsstring :=
  match d with
  | Text data => data
  | Elem _ _ childNodes => flat_map textOfNode childNodes
  end.

Definition textOf (nodes : list Dom) : jsstring :=
  flat_map textOfNode nodes.

(** [pre.toString()] of [getCaretOffsets]: the text of the range from
    the start of the element to the point; its length is the [start] of
    the caret. *)
Fixpoint textBefore (nodes : list Dom) (p : Point) : jsstring :=
  match p with
  | At offset => textOf (firstn offset nodes)
  | Inside index q =>
      textOf (firstn index nodes)
      ++ match nth_error nodes index with
         | Some (Text data) =>
             match q with
             | At offset => firstn offset data
             | Inside _ _ => []
             end
         | Some (Elem _ _ childNodes) => textBefore childNodes q
         | None => []
         end
  end.

(** The range of [newBulletAtCaret]: from the point [start] to the end
    of the element ([setEnd(el, el.childNodes.length)]).
    [cloneContents] gives the fragment: of the child that holds the
    start a copy with what is in the range (of a text node the data from
    the offset on), and copies of the child nodes after it.
    [deleteContents] leaves in the element the child nodes before, and
    of the child that holds the start what is before the range (of a
    text node the data up to the offset).  [None]: the point is not in
    the element. *)
Fixpoint cloneContents (nodes : list Dom) (start : Point)
    : option (list Dom) :=
  match start with
  | At offset =>
      if Nat.leb offset (List.length nodes) then Some (skipn offset nodes)
      else None
  | Inside index p =>
      match nth_error nodes index with
      | Some (Text data) =>
          match p with
          | At offset =>
              if Nat.leb offset (List.length data)
              then Some (Text (skipn offset data) :: skipn (S index) nodes)
              else None
          | Inside _ _ => None
          end
      | Some (Elem tag attrs childNodes) =>
          match cloneContents childNodes p with
          | Some frag =>
              Some (Elem tag attrs frag :: skipn (S index) nodes)
          | None => None
          end
      | None => None
      end
  end.

Fixpoint deleteContents (nodes : list Dom) (start : Point)
    : option (list Dom) :=
  match start with
  | At offset =>
      if Nat.leb offset (List.length nodes) then Some (firstn offset nodes)
      else None
  | Inside index p =>
      match nth_error nodes index with
      | Some (Text data) =>
          match p with
          | At offset =>
              if Nat.leb offset (List.length data)
              then Some (firstn index nodes ++ [Text (firstn offset data)])
              else None
          | Inside _ _ => None
          end
      | Some (Elem tag attrs childNodes) =>
          match deleteContents childNodes p with
          | Some kept => Some (firstn index nodes ++ [Elem tag attrs kept])
          | None => None
          end
      | None => None
      end
  end.

(** [innerHTML]: the serialisation of the child nodes.  In a text node
    [&], the no-break space, [<] and [>] are written as character
    references; an element is its start tag, its child nodes and its
    end tag, and a void element its start tag alone. *)
Definition AMP : jschar := 38%N.
Definition NBSP : jschar := 160%N.
Definition SLASH : jschar := 47%N.

Definition escapeChar (c : jschar) : jsstring :=
  if N.eqb c AMP then jsstr "&amp;"
  else if N.eqb c NBSP then jsstr "&nbsp;"
  else if N.eqb c LT then jsstr "&lt;"
  else if N.eqb c GT then jsstr "&gt;"
  else [c].

Definition escapeText (data : jsstring) : jsstring :=
  flat_map escapeChar data.

Definition voidTags : list jsstring :=
  map jsstr
    ["area"; "base"; "basefont"; "bgsound"; "br"; "col"; "embed"; "frame";
     "hr"; "img"; "input"; "keygen"; "link"; "meta"; "param"; "source";
     "track"; "wbr"].

Definition isVoid (tag : jsstring) : bool :=
  existsb (jsstring_eqb tag) voidTags.

Fixpoint innerHTMLNode (d : Dom) : jsstring :=
  match d with
  | Text data => escapeText data
  | Elem tag attrs childNodes =>
      LT :: tag ++ attrs
      ++ GT :: (if isVoid tag then []
                else flat_map innerHTMLNode childNodes
                     ++ LT :: SLASH :: tag ++ [GT])
  end.

Definition innerHTMLOf (nodes : list Dom) : jsstring :=
  flat_map innerHTMLNode nodes.

(** The whole of [newBulletAtCaret]: [el] is the child nodes of the
    element of the bullet and [caret] the start of the selection.  The
    tail is the [innerHTML] of the fragment cloned from the range from
    the caret to the end, the head the [innerHTML] of the element once
    the range is deleted.  When the caret is not in the element nothing
    happens. *)
Definition splitAtOffset (uuid : string) (now : Z) (nodeId : string)
    (el : list Dom) (caret : Point) (nodeList : list NoteNode)
    : list NoteNode :=
  match cloneContents el caret, deleteContents el caret with
  | Some frag, Some kept =>
      newBulletAtCaret uuid now nodeId
        (innerHTMLOf kept) (innerHTMLOf frag) nodeList
  | _, _ => nodeList
  end.

(** ** Putting the focus on a bullet *)

(** [focusNode]: the focus moves to the bullet when it has an element
    in the document, that is when it is rendered: a bullet of the
    current view that is not below a collapsed one.  [None]: the focus
    stays where it is. *)
Definition focusNode (targetId : string) (focusedNodeId : option string)
    (nodes : list NoteNode) : option string :=
  if existsb (hasId targetId)
       (flattenVisibleNodes (getCurrentNodes focusedNodeId nodes))
  then Some targetId
  else None.

(** ** The "Focus child" button *)

(** The forest after the click and the bullet that gets the focus once
    the forest is rendered: [focusNode] is called for the first child of
    the active bullet, or for a new child when it has none. *)
Definition focusChild (uuid : string) (now : Z)
    (activeNodeId focusedNodeId : option string) (nodes : list NoteNode)
    : list NoteNode * option string :=
  match truthyId activeNodeId with
  | None => (nodes, None)
  | Some act =>
      let added := addChildNode uuid now act nodes in
      match findNodeById nodes act with
      | Some n =>
          match children n with
          | firstChild :: _ =>
              (nodes, focusNode (id firstChild) focusedNodeId nodes)
          | [] => (added, focusNode uuid focusedNodeId added)
          end
      | None => (added, focusNode uuid focusedNodeId added)
      end
  end.

(** * Vocabulary of the properties *)

Unset Implicit Arguments.

(** ** Ids, nodes and sibling lists of a forest *)

(** The ids of a subtree and of a forest, in document order. *)
Fixpoint idsOf (n : NoteNode) : list string :=
  id n :: flat_map idsOf (children n).

Definition allIds (l : list NoteNode) : list string := flat_map idsOf l.

(** The nodes of a subtree and of a forest, in document (depth-first,
    pre-order) order, collapsed or not. *)
Fixpoint nodesOf (n : NoteNode) : list NoteNode :=
  n :: flat_map nodesOf (children n).

Definition allNodes (l : list NoteNode) : list NoteNode :=
  flat_map nodesOf l.

(** A forest of the editor: no two nodes share an id. *)
Definition uniqueIds (l : list NoteNode) : Prop := NoDup (allIds l).

(** No id is the empty string (ids come from [uuidv4]). *)
Definition properIds (l : list NoteNode) : Prop := ~ In "" (allIds l).

(** [s] is one of the sibling lists of the forest [l]: the list of roots,
    or the children of one of its nodes. *)
Definition Level (l s : list NoteNode) : Prop :=
  s = l \/ exists p, In p (allNodes l) /\ s = children p.

(** [l'] is [l] with one sibling list rewritten by [R]; [R] is told the id
    of the node whose children the list is ([None] for the root list). *)
Inductive InForest
    (R : option string -> list NoteNode -> list NoteNode -> Prop)
    : option string -> list NoteNode -> list NoteNode -> Prop :=
| InForest_here : forall parent s s',
    R parent s s' -> InForest R parent s s'
| InForest_below : forall parent before n after cs',
    InForest R (Some (id n)) (children n) cs' ->
    InForest R parent (before ++ n :: after)
      (before ++ with_children n cs' :: after).

(** A node without the advisory [parentId] back-references: the shape of
    the forest and everything the nodes hold. *)
Fixpoint shapeOf (n : NoteNode) : NoteNode :=
  mkNode (id n) (content n) (map shapeOf (children n)) None
         (isChecklist n) (checked n) (style n) (collapsed n)
         (createdAt n) (updatedAt n).

(** ** Rewritings of a sibling list *)

(** The new node comes right after the node with id [a]. *)
Definition InsertedAfter (a : string) (x : NoteNode)
    (_ : option string) (s s' : list NoteNode) : Prop :=
  exists before n after,
    s = before ++ n :: after /\ id n = a /\
    s' = before ++ n :: x :: after.

(** The node with id [a] is replaced by its image under [f]: what an
    [apply] walk does. *)
Definition Replaced (a : string) (f : NoteNode -> NoteNode)
    (_ : option string) (s s' : list NoteNode) : Prop :=
  exists before n after,
    s = before ++ n :: after /\ id n = a /\ s' = before ++ f n :: after.

(** The node made by [newBulletAtCaret]. *)
Definition freshNode (uuid : string) (html : jsstring) (now : Z)
    : NoteNode :=
  mkNode uuid html [] None None None None None now now.

(** The node with id [a] keeps the head, and a new childless node with the
    tail comes right after it. *)
Definition SplitInTwo (a uuid : string) (now : Z)
    (headHTML tailHTML : jsstring)
    (_ : option string) (s s' : list NoteNode) : Prop :=
  exists before n after,
    s = before ++ n :: after /\ id n = a /\
    s' = before ++ with_content n headHTML now
                :: freshNode uuid tailHTML now :: after.

(** ** Font sizes *)

(** The order [sm < base < lg < xl], one step up or down, stopping at the
    ends. *)
Definition sizeUp (z : FontSize) : FontSize :=
  match z with sm => base | base => lg | lg => xl | xl => xl end.

Definition sizeDown (z : FontSize) : FontSize :=
  match z with sm => sm | base => sm | lg => base | xl => lg end.

(** The size of a node, a missing [style] or [style.size] counting as
    [base]. *)
Definition sizeOf (n : NoteNode) : FontSize :=
  match style n with
  | Some s => match size s with Some z => z | None => base end
  | None => base
  end.

(** [n] with [style.size] and [updatedAt] replaced, all else as it is. *)
Definition resized (n : NoteNode) (z : FontSize) (now : Z) : NoteNode :=
  let s := match style n with Some s => s | None => emptyStyle end in
  mkNode (id n) (content n) (children n) (parentId n) (isChecklist n)
         (checked n)
         (Some (mkStyle (bold s) (italic s) (underline s) (Some z)))
         (collapsed n) (createdAt n) now.

(** ** Runs of edits *)

(** The forest after a run of edits of one node. *)
Fixpoint typed (nodeId : string) (edits : list (Z * jsstring))
    (l : list NoteNode) : list NoteNode :=
  match edits with
  | [] => l
  | (t, html) :: later => typed nodeId later (updateNodeContent nodeId html t l)
  end.

(** The forests after each edit of the run, in order. *)
Fixpoint snapshots (nodeId : string) (edits : list (Z * jsstring))
    (l : list NoteNode) : list (list NoteNode) :=
  match edits with
  | [] => []
  | (t, html) :: later =>
      updateNodeContent nodeId html t l
      :: snapshots nodeId later (updateNodeContent nodeId html t l)
  end.

(** Every edit arrives less than [w] ms after the one before it (the
    first of them after time [t]), and not before it. *)
Fixpoint within (w t : Z) (edits : list (Z * jsstring)) : Prop :=
  match edits with
  | [] => True
  | (t', _) :: later => (t <= t' < t + w)%Z /\ within w t' later
  end.

(** Every edit arrives more than [w] ms after the one before it. *)
Fixpoint apart (w t : Z) (edits : list (Z * jsstring)) : Prop :=
  match edits with
  | [] => True
  | (t', _) :: later => (t + w < t')%Z /\ apart w t' later
  end.

(** The content of the last edit of a run that starts with [html]. *)
Definition lastHtml (html : jsstring) (later : list (Z * jsstring))
    : jsstring :=
  snd (last later (0%Z, html)).

(** ** Collapsing *)

(** The visibility claim as the specification words it: collapsing
    removes the node's descendant count from the visible length. *)
Definition collapse_removes_all_descendants (now : Z)
    (l : list NoteNode) (n : NoteNode) : Prop :=
  List.length (flattenVisibleNodes (setNodeCollapsed now (id n) true l))
  + List.length (allNodes (children n))
  = List.length (flattenVisibleNodes l).

(** ** Merging *)

(** The editable elements show the content of the nodes. *)
Definition inSync (innerHTML : string -> option jsstring)
    (l : list NoteNode) : Prop :=
  forall n, In n (allNodes l) ->
            innerHTML (id n) = None \/ innerHTML (id n) = Some (content n).

(** The editable elements when the bullets on screen show the content of
    their nodes; a hidden node has no element. *)
Definition shown (l : list NoteNode) (nodeId : string) : option jsstring :=
  option_map content (find (hasId nodeId) (flattenVisibleNodes l)).






(** ** What is on screen *)

(** The ids of the visible nodes, in screen order. *)
Definition visIds (l : list NoteNode) : list string :=
  map id (flattenVisibleNodes l).

(** The id is not the id of a node below [n]. *)
Definition notBelow (n : NoteNode) (i : string) : bool :=
  negb (existsb (String.eqb i) (allIds (children n))).

(** ** Marks of a node, tags, and the text of an element *)

(** [n.style || {}]. *)
Definition styleOf (n : NoteNode) : Style :=
  match style n with Some s => s | None => emptyStyle end.

(** Whether the node shows bold, italic and underlined. *)
Definition marks (n : NoteNode) : bool * bool * bool :=
  (flag (bold (styleOf n)), flag (italic (styleOf n)),
   flag (underline (styleOf n))).

(** What Enter in the tag input makes of the text typed there. *)
Definition tagOf (newTag : jsstring) : jsstring :=
  stripHashes (trim newTag).

Definition startsWithHash (s : jsstring) : bool :=
  match s with
  | c :: _ => N.eqb c HASH
  | [] => false
  end.

(** The length of the text of an element, given its text nodes. *)
Definition textLength (texts : list jsstring) : Z :=
  Z.of_nat (List.length (List.concat texts)).

(** ** Lines of an answer *)

(** What [bulletsOnly] keeps of a line, and the bullet it makes of it. *)
Definition lineContent (l : jsstring) : jsstring :=
  trim (stripListMarkers l).

Definition asBullet (c : jsstring) : jsstring := BULLET :: 32%N :: c.

Definition nonEmpty (c : jsstring) : bool :=
  match c with [] => false | _ => true end.

Definition startsWithMarker (s : jsstring) : bool :=
  match s with
  | c :: _ => isListMarker c
  | [] => false
  end.

(** ** Focus mode *)

(** The focused node is the last breadcrumb, and there is none without
    breadcrumbs. *)
Definition crumbsInSync (st : option string * list NoteNode) : Prop :=
  fst st = match rev (snd st) with
           | [] => None
           | lastCrumb :: _ => Some (id lastCrumb)
           end.

(** ** Small forests for the examples *)

Definition bullet (i : string) (c : string) (cs : list NoteNode)
    : NoteNode :=
  mkNode i (jsstr c) cs None None None None None 0 0.

(** [A] with child [X], then [B]. *)
Definition forestAXB : list NoteNode :=
  [bullet "A" "foo" [bullet "X" "" []]; bullet "B" "bar" []].

(** [A] with children [C] and [D]. *)
Definition forestAC : list NoteNode :=
  [bullet "A" "" [bullet "C" "x" []; bullet "D" "y" []]].

(** A bold bullet of size [xl]. *)
Definition bigBullet : NoteNode :=
  mkNode "B" (jsstr "b") [] None None None
         (Some (mkStyle (Some true) None None (Some xl))) None 0 0.

(** An empty root with one child, and nothing else. *)
Definition loneRootWithChild : Editor :=
  mkEditor [bullet "A" "" [bullet "B" "x" []]] None None [].

(** A collapsed bullet over one child. *)
Definition nestedCollapsed : NoteNode :=
  mkNode "B" (jsstr "b") [bullet "C" "c" []] None None None None
         (Some true) 0 0.


(** A root whose id is the empty string, with children [C] and [D]. *)
Definition forestNoId : list NoteNode :=
  [bullet "" "foo" [bullet "C" "x" []; bullet "D" "" []]].

(** Ids of a concrete forest are distinct. *)
Ltac distinct_ids :=
  unfold uniqueIds; simpl;
  repeat (constructor; [simpl; intuition discriminate|]); constructor.

(** * Properties *)

(** ** Basic facts *)

Lemma forest_rec (Q : list NoteNode -> Prop) :
  (forall l, (forall n, In n l -> Q (children n)) -> Q l) ->
  forall l, Q l.
Proof.
  intros HQ.
  assert (Hn : forall n, Q (children n)).
  { induction n using NoteNode_ind. simpl.
    apply HQ. intros n Hin. rewrite Forall_forall in H. auto. }
  intros l. apply HQ. intros n _. apply Hn.
Qed.

Lemma hasId_true a n : hasId a n = true <-> id n = a.
Proof. unfold hasId. apply String.eqb_eq. Qed.

Lemma hasId_false a n : hasId a n = false <-> id n <> a.
Proof. unfold hasId. apply String.eqb_neq. Qed.

Lemma with_children_id n cs : id (with_children n cs) = id n.
Proof. reflexivity. Qed.

Lemma with_children_children n cs : children (with_children n cs) = cs.
Proof. reflexivity. Qed.

Lemma with_children_same n : with_children n (children n) = n.
Proof. destruct n; reflexivity. Qed.

Lemma with_children_twice n cs cs' :
  with_children (with_children n cs) cs' = with_children n cs'.
Proof. reflexivity. Qed.

Lemma hasId_with_children a n cs :
  hasId a (with_children n cs) = hasId a n.
Proof. reflexivity. Qed.

Lemma allIds_cons n l :
  allIds (n :: l) = id n :: allIds (children n) ++ allIds l.
Proof. destruct n; reflexivity. Qed.

Lemma allIds_app l1 l2 : allIds (l1 ++ l2) = allIds l1 ++ allIds l2.
Proof. apply flat_map_app. Qed.

Lemma allIds_with_children n cs l :
  allIds (with_children n cs :: l) = id n :: allIds cs ++ allIds l.
Proof. reflexivity. Qed.

Lemma allNodes_cons n l :
  allNodes (n :: l) = n :: allNodes (children n) ++ allNodes l.
Proof. destruct n; reflexivity. Qed.

Lemma allNodes_app l1 l2 : allNodes (l1 ++ l2) = allNodes l1 ++ allNodes l2.
Proof. apply flat_map_app. Qed.

Lemma allIds_allNodes l : allIds l = map id (allNodes l).
Proof.
  induction l using forest_ind; [reflexivity|].
  rewrite allIds_cons, allNodes_cons. simpl.
  rewrite map_app. congruence.
Qed.

Lemma in_top_allNodes n l : In n l -> In n (allNodes l).
Proof.
  intros H. apply in_flat_map. exists n. split; [exact H|].
  destruct n; simpl; auto.
Qed.

Lemma in_allNodes_ids n l : In n (allNodes l) -> In (id n) (allIds l).
Proof. rewrite allIds_allNodes. apply in_map. Qed.

Lemma in_top_ids n l : In n l -> In (id n) (allIds l).
Proof. intros H. apply in_allNodes_ids, in_top_allNodes, H. Qed.

Lemma in_children_ids a n l :
  In n l -> In a (allIds (children n)) -> In a (allIds l).
Proof.
  intros Hn Ha. apply in_flat_map. exists n. split; [exact Hn|].
  destruct n; simpl in *; auto.
Qed.

Lemma absent_top a l :
  ~ In a (allIds l) -> forall n, In n l -> hasId a n = false.
Proof.
  intros Ha n Hn. apply hasId_false. intros E. apply Ha.
  rewrite <- E. apply in_top_ids, Hn.
Qed.

Lemma absent_children a l :
  ~ In a (allIds l) -> forall n, In n l -> ~ In a (allIds (children n)).
Proof. intros Ha n Hn Hc. apply Ha. eapply in_children_ids; eauto. Qed.

(** [findIndex] finds the first element that satisfies the test. *)
Lemma findIndex_Some {A} (p : A -> bool) l i :
  findIndex p l = Some i ->
  exists before x after,
    l = before ++ x :: after /\ List.length before = i /\ p x = true /\
    forall y, In y before -> p y = false.
Proof.
  revert i. induction l as [|x l IH]; intros i; simpl; [discriminate|].
  destruct (p x) eqn:Hx.
  - intros [= <-]. exists [], x, l. repeat split; auto. intros y [].
  - destruct (findIndex p l) as [j|]; [|discriminate].
    intros [= <-]. destruct (IH j eq_refl) as (b & y & c & -> & Hl & Hy & Hb).
    exists (x :: b), y, c. repeat split; simpl; auto.
    intros z [<-|Hz]; auto.
Qed.

Lemma findIndex_None {A} (p : A -> bool) l :
  findIndex p l = None <-> forall y, In y l -> p y = false.
Proof.
  induction l as [|x l IH]; simpl.
  - split; [intros _ y []|reflexivity].
  - destruct (p x) eqn:Hx.
    + split; [discriminate|]. intros H. rewrite (H x) in Hx; auto.
      discriminate.
    + split.
      * intros H y [<-|Hy]; auto. apply IH; auto.
        destruct (findIndex p l); [discriminate|reflexivity].
      * intros H. rewrite (proj2 IH); [reflexivity|]. auto.
Qed.

Lemma findIndex_split {A} (p : A -> bool) before x after :
  (forall y, In y before -> p y = false) -> p x = true ->
  findIndex p (before ++ x :: after) = Some (List.length before).
Proof.
  intros Hb Hx. induction before as [|y b IH]; simpl.
  - now rewrite Hx.
  - rewrite (Hb y) by (left; reflexivity).
    rewrite IH; [reflexivity|]. intros z Hz. apply Hb. now right.
Qed.

Lemma spliceIn_split {A} (before : list A) x after y :
  spliceIn (List.length before + 1) y (before ++ x :: after)
  = before ++ x :: y :: after.
Proof.
  unfold spliceIn. replace (List.length before + 1) with
    (List.length (before ++ [x])) by (rewrite length_app; reflexivity).
  replace (before ++ x :: after) with ((before ++ [x]) ++ after)
    by (rewrite <- app_assoc; reflexivity).
  rewrite firstn_app, skipn_app, firstn_all, skipn_all.
  rewrite Nat.sub_diag. simpl. rewrite app_nil_r, <- app_assoc.
  reflexivity.
Qed.

(** Where an id sits in a forest with unique ids. *)
Lemma uniqueIds_cons n l :
  uniqueIds (n :: l) ->
  ~ In (id n) (allIds (children n)) /\ ~ In (id n) (allIds l) /\
  uniqueIds (children n) /\ uniqueIds l /\
  (forall a, In a (allIds (children n)) -> ~ In a (allIds l)).
Proof.
  unfold uniqueIds. rewrite allIds_cons. intros H.
  inversion H as [|x xs Hx Hxs]; subst.
  rewrite in_app_iff in Hx.
  repeat split; auto.
  - eapply NoDup_app_remove_r; eauto.
  - eapply NoDup_app_remove_l; eauto.
  - intros a Ha Hb. revert Hxs Ha Hb. generalize (allIds (children n)).
    induction l0 as [|y ys IH]; simpl; [tauto|].
    intros Hn [<-|Ha] Hb; inversion Hn; subst.
    + apply H2. apply in_app_iff. auto.
    + eauto.
Qed.

Lemma uniqueIds_app l1 l2 :
  uniqueIds (l1 ++ l2) ->
  uniqueIds l1 /\ uniqueIds l2 /\
  (forall a, In a (allIds l1) -> ~ In a (allIds l2)).
Proof.
  unfold uniqueIds. rewrite allIds_app. generalize (allIds l1) (allIds l2).
  induction l as [|x xs IH]; simpl; intros ys H.
  - repeat split; auto. constructor.
  - inversion H as [|? ? Hx Hxs]; subst.
    destruct (IH _ Hxs) as (H1 & H2 & H3).
    repeat split; auto.
    + constructor; auto. intros Hin. apply Hx, in_app_iff. auto.
    + intros a [<-|Ha]; auto. intros Hin. apply Hx, in_app_iff. auto.
Qed.

Lemma uniqueIds_split before n after :
  uniqueIds (before ++ n :: after) ->
  uniqueIds before /\ uniqueIds (children n) /\ uniqueIds after /\
  ~ In (id n) (allIds before) /\ ~ In (id n) (allIds (children n)) /\
  ~ In (id n) (allIds after) /\
  (forall a, In a (allIds (children n)) -> ~ In a (allIds before)) /\
  (forall a, In a (allIds (children n)) -> ~ In a (allIds after)) /\
  (forall a, In a (allIds before) -> ~ In a (allIds after)).
Proof.
  intros H. destruct (uniqueIds_app _ _ H) as (Hb & Hna & Hd).
  destruct (uniqueIds_cons _ _ Hna) as (H1 & H2 & H3 & H4 & H5).
  repeat split; auto.
  - intros Hin. apply (Hd _ Hin). rewrite allIds_cons. now left.
  - intros a Ha Hin. apply (Hd _ Hin). rewrite allIds_cons. right.
    apply in_app_iff. auto.
  - intros a Ha Hin. apply (Hd _ Ha). rewrite allIds_cons. right.
    apply in_app_iff. auto.
Qed.

Lemma uniqueIds_children n l :
  uniqueIds l -> In n l -> uniqueIds (children n).
Proof.
  intros H Hn. apply in_split in Hn. destruct Hn as (b & c & ->).
  now apply uniqueIds_split in H.
Qed.

(** An id that is in the forest but not among the roots is below exactly
    one root. *)
Lemma deep_split a l :
  uniqueIds l -> In a (allIds l) ->
  (forall n, In n l -> hasId a n = false) ->
  exists before n after,
    l = before ++ n :: after /\ In a (allIds (children n)) /\
    ~ In a (allIds before) /\ ~ In a (allIds after).
Proof.
  intros Hu Ha Htop. unfold allIds in Ha. apply in_flat_map in Ha.
  destruct Ha as (n & Hn & Hin).
  destruct (in_split _ _ Hn) as (b & c & ->).
  exists b, n, c. split; [reflexivity|].
  assert (Hc : In a (allIds (children n))).
  { destruct n; simpl in *. destruct Hin as [E|Hin]; [|exact Hin].
    exfalso. specialize (Htop _ Hn). apply hasId_false in Htop.
    simpl in Htop. congruence. }
  apply uniqueIds_split in Hu.
  destruct Hu as (_ & _ & _ & _ & _ & _ & H7 & H8 & _).
  repeat split; auto.
Qed.

(** An id among the roots is the id of one root and nothing else. *)
Lemma top_split a l :
  uniqueIds l -> (exists n, In n l /\ hasId a n = true) ->
  exists before n after,
    l = before ++ n :: after /\ id n = a /\
    ~ In a (allIds before) /\ ~ In a (allIds (children n)) /\
    ~ In a (allIds after).
Proof.
  intros Hu (n & Hn & Hid). apply hasId_true in Hid.
  destruct (in_split _ _ Hn) as (b & c & ->).
  exists b, n, c. apply uniqueIds_split in Hu. subst a.
  intuition.
Qed.

Lemma top_or_not a (l : list NoteNode) :
  (exists n, In n l /\ hasId a n = true) \/
  (forall n, In n l -> hasId a n = false).
Proof.
  destruct (findIndex (hasId a) l) as [i|] eqn:E.
  - left. apply findIndex_Some in E.
    destruct E as (b & x & c & -> & _ & Hx & _).
    exists x. split; [apply in_elt|exact Hx].
  - right. now apply findIndex_None.
Qed.

(** ** Walks that rewrite the sibling list holding an id

    [insertInList], [findAndIndent], [deleteFromList] and the [apply]
    walks all act where they find the id among the siblings they look at
    and otherwise go down into every node's children.  With unique ids
    such a walk rewrites exactly one sibling list. *)
Section Walk.
Variable a : string.
Variable F : list NoteNode -> list NoteNode.
Hypothesis F_deep : forall s,
  (forall n, In n s -> hasId a n = false) ->
  F s = map (fun n => with_children n (F (children n))) s.

Lemma walk_absent l : ~ In a (allIds l) -> F l = l.
Proof.
  induction l as [l IH] using forest_rec. intros Ha.
  rewrite F_deep by (apply absent_top; exact Ha).
  rewrite <- (map_id l) at 2. apply map_ext_in. intros n Hn.
  rewrite IH; [apply with_children_same|exact Hn|].
  eapply absent_children; eauto.
Qed.

Lemma walk_deep before n after :
  ~ In a (allIds before) -> ~ In a (allIds after) -> hasId a n = false ->
  F (before ++ n :: after)
  = before ++ with_children n (F (children n)) :: after.
Proof.
  intros Hb Hc Hn.
  assert (Hstill : forall l, ~ In a (allIds l) ->
            map (fun n => with_children n (F (children n))) l = l).
  { intros l Hl. rewrite <- (map_id l) at 2. apply map_ext_in.
    intros m Hm. rewrite walk_absent; [apply with_children_same|].
    eapply absent_children; eauto. }
  rewrite F_deep.
  - rewrite map_app. simpl. now rewrite !Hstill.
  - intros m Hm. apply in_app_or in Hm. destruct Hm as [Hm|[<-|Hm]]; auto.
    + exact (absent_top _ _ Hb _ Hm).
    + exact (absent_top _ _ Hc _ Hm).
Qed.

Variable R : option string -> list NoteNode -> list NoteNode -> Prop.
Hypothesis F_top : forall parent s,
  uniqueIds s -> (exists n, In n s /\ hasId a n = true) ->
  R parent s (F s).

Lemma walk_spec l :
  forall parent, uniqueIds l -> In a (allIds l) ->
  InForest R parent l (F l).
Proof.
  induction l as [l IH] using forest_rec. intros parent Hu Ha.
  destruct (top_or_not a l) as [Htop|Hdeep].
  - apply InForest_here. now apply F_top.
  - destruct (deep_split _ _ Hu Ha Hdeep) as (b & n & c & -> & Hn & Hb & Hc).
    rewrite walk_deep; auto.
    + apply InForest_below. apply IH; auto.
      * apply in_elt.
      * now apply uniqueIds_split in Hu.
    + apply Hdeep, in_elt.
Qed.
End Walk.

(** ** [insertAfterNode] *)

(** The equation of the source's [insertInList]. *)
Lemma insertInList_eq a x nodes :
  insertInList a x nodes =
  match findIndex (hasId a) nodes with
  | Some index => spliceIn (index + 1) x nodes
  | None =>
      map (fun node => with_children node (insertInList a x (children node)))
          nodes
  end.
Proof.
  unfold insertInList, insertInList_step.
  destruct (findIndex (hasId a) nodes); [reflexivity|].
  apply map_ext. intros n. destruct n; reflexivity.
Qed.

Lemma insertInList_deep a x s :
  (forall n, In n s -> hasId a n = false) ->
  insertInList a x s
  = map (fun n => with_children n (insertInList a x (children n))) s.
Proof.
  intros H. rewrite insertInList_eq.
  now rewrite (proj2 (findIndex_None (hasId a) s) H).
Qed.

Lemma insertInList_here a x before n after :
  ~ In a (allIds before) -> id n = a ->
  insertInList a x (before ++ n :: after) = before ++ n :: x :: after.
Proof.
  intros Hb Hn. rewrite insertInList_eq, findIndex_split.
  - apply spliceIn_split.
  - intros y Hy. exact (absent_top _ _ Hb _ Hy).
  - now apply hasId_true.
Qed.

Lemma insertInList_top a x parent s :
  uniqueIds s -> (exists n, In n s /\ hasId a n = true) ->
  InsertedAfter a x parent s (insertInList a x s).
Proof.
  intros Hu Htop.
  destruct (top_split _ _ Hu Htop) as (b & n & c & -> & Hn & Hb & _ & _).
  exists b, n, c. repeat split; auto. now apply insertInList_here.
Qed.

Lemma insertAfterNode_absent a x l :
  ~ In a (allIds l) -> insertAfterNode a x l = l.
Proof. apply walk_absent, insertInList_deep. Qed.

Lemma insertAfterNode_spec a x l parent :
  uniqueIds l -> In a (allIds l) ->
  InForest (InsertedAfter a x) parent l (insertAfterNode a x l).
Proof.
  apply walk_spec.
  - apply insertInList_deep.
  - intros. now apply insertInList_top.
Qed.

(** C9 — [insertAfterNode(afterNodeId, newNode, forest)]: a forest with no
    node of id [afterNodeId] comes back unchanged, and a forest (with
    unique ids) that has the id at any depth gets [newNode] as the
    immediate next sibling of that node, in the sibling list it is in. *)
Theorem C9_insertAfter_silent_or_next_sibling :
  forall (afterNodeId : string) (newNode : NoteNode) (l : list NoteNode),
    (~ In afterNodeId (allIds l) ->
     insertAfterNode afterNodeId newNode l = l) /\
    (uniqueIds l -> In afterNodeId (allIds l) ->
     InForest (InsertedAfter afterNodeId newNode) None l
       (insertAfterNode afterNodeId newNode l)).
Proof.
  intros a x l. split.
  - apply insertAfterNode_absent.
  - apply insertAfterNode_spec.
Qed.

Lemma C9_insertAfter_witness :
  let l := [bullet "A" "a" [bullet "B" "b" []; bullet "C" "c" []];
            bullet "D" "d" []] in
  let x := bullet "N" "" [] in
  insertAfterNode "Z" x l = l /\
  InForest (InsertedAfter "B" x) None l (insertAfterNode "B" x l).
Proof.
  intros l x. split.
  - apply (proj1 (C9_insertAfter_silent_or_next_sibling "Z" x l)).
    simpl. intuition discriminate.
  - apply (proj2 (C9_insertAfter_silent_or_next_sibling "B" x l)).
    + distinct_ids.
    + simpl. auto.
Defined.

(** ** Rewriting rules may be weakened, and see only nodes of the forest *)

Lemma InForest_impl (R R' : option string -> list NoteNode ->
                             list NoteNode -> Prop) parent l l' :
  (forall p s s', R p s s' -> R' p s s') ->
  InForest R parent l l' -> InForest R' parent l l'.
Proof.
  intros HR H. induction H.
  - apply InForest_here. auto.
  - apply InForest_below. assumption.
Qed.

Lemma InForest_nodes R parent l l' :
  InForest R parent l l' ->
  InForest (fun p s s' => R p s s' /\
                          forall m, In m s -> In m (allNodes l))
           parent l l'.
Proof.
  intros H. induction H.
  - apply InForest_here. split; [assumption|].
    intros m. apply in_top_allNodes.
  - apply InForest_below.
    eapply InForest_impl; [|exact IHInForest].
    intros p s s' [HR Hs]. split; [exact HR|].
    intros m Hm. rewrite allNodes_app, allNodes_cons.
    apply in_or_app. right. right. apply in_or_app. left. auto.
Qed.

(** With unique ids a node is known by its id. *)
Lemma unique_node l m n :
  uniqueIds l -> In m (allNodes l) -> In n (allNodes l) ->
  id m = id n -> m = n.
Proof.
  unfold uniqueIds. rewrite allIds_allNodes.
  generalize (allNodes l). intros ns. induction ns as [|x ns IH]; simpl.
  - intros _ [].
  - intros Hnd Hm Hn E. inversion Hnd as [|? ? Hx Hns]; subst.
    destruct Hm as [<-|Hm], Hn as [<-|Hn]; auto.
    + exfalso. apply Hx. rewrite E. now apply in_map.
    + exfalso. apply Hx. rewrite <- E. now apply in_map.
Qed.

(** ** [findNodeById] *)

Lemma findNodeById_cons m l a :
  findNodeById (m :: l) a =
  if hasId a m then Some m
  else match findNodeById (children m) a with
       | Some found => Some found
       | None => findNodeById l a
       end.
Proof. destruct m; reflexivity. Qed.

Lemma findNodeById_absent l a :
  ~ In a (allIds l) -> findNodeById l a = None.
Proof.
  induction l as [|m l IHc IHl] using forest_ind; [reflexivity|].
  rewrite allIds_cons, findNodeById_cons. simpl. intros H.
  destruct (hasId a m) eqn:E.
  - apply hasId_true in E. tauto.
  - rewrite IHc, IHl; auto; intros Hin; apply H; right;
      apply in_or_app; auto.
Qed.

Lemma findNodeById_found l a n :
  findNodeById l a = Some n -> In n (allNodes l) /\ id n = a.
Proof.
  induction l as [|m l IHc IHl] using forest_ind; [discriminate|].
  rewrite findNodeById_cons, allNodes_cons.
  destruct (hasId a m) eqn:E.
  - intros [= <-]. split; [now left|now apply hasId_true].
  - destruct (findNodeById (children m) a) as [f|].
    + intros [= <-]. destruct (IHc eq_refl). split; auto.
      right. apply in_or_app. auto.
    + intros H. destruct (IHl H). split; auto.
      right. apply in_or_app. auto.
Qed.

Lemma findNodeById_unique l n :
  uniqueIds l -> In n (allNodes l) -> findNodeById l (id n) = Some n.
Proof.
  intros Hu Hn. destruct (findNodeById l (id n)) as [m|] eqn:E.
  - apply findNodeById_found in E. destruct E as [Hm E].
    f_equal. eapply unique_node; eauto.
  - exfalso. destruct (in_dec string_dec (id n) (allIds l)) as [Hin|Hout].
    + clear Hn. revert Hu Hin E.
      induction l as [|m l IHc IHl] using forest_ind; [intros _ []|].
      rewrite allIds_cons, findNodeById_cons. intros Hu Hin.
      apply uniqueIds_cons in Hu. destruct Hu as (_ & _ & Hc & Hl & _).
      destruct (hasId (id n) m) eqn:Em; [discriminate|].
      apply hasId_false in Em.
      destruct (findNodeById (children m) (id n)) eqn:Ec; [discriminate|].
      intros El. destruct Hin as [Hin|Hin]; [congruence|].
      apply in_app_or in Hin. destruct Hin; auto.
    + apply Hout, in_allNodes_ids, Hn.
Qed.

(** ** The [apply] walks *)

Lemma applyAt_eq a f l :
  applyAt a f l =
  map (fun n => if hasId a n then f n
                else with_children n (applyAt a f (children n))) l.
Proof. apply map_ext. intros n. destruct n; reflexivity. Qed.

Lemma applyAt_cons a f n l :
  applyAt a f (n :: l) =
  (if hasId a n then f n else with_children n (applyAt a f (children n)))
  :: applyAt a f l.
Proof. destruct n; reflexivity. Qed.

Lemma applyAt_app a f l1 l2 :
  applyAt a f (l1 ++ l2) = applyAt a f l1 ++ applyAt a f l2.
Proof. apply map_app. Qed.

Lemma applyAt_deep a f s :
  (forall n, In n s -> hasId a n = false) ->
  applyAt a f s = map (fun n => with_children n (applyAt a f (children n))) s.
Proof.
  intros H. rewrite applyAt_eq. apply map_ext_in. intros n Hn.
  now rewrite (H n Hn).
Qed.

Lemma applyAt_absent a f l : ~ In a (allIds l) -> applyAt a f l = l.
Proof. apply walk_absent, applyAt_deep. Qed.

Lemma applyAt_here a f before n after :
  ~ In a (allIds before) -> ~ In a (allIds after) -> id n = a ->
  applyAt a f (before ++ n :: after) = before ++ f n :: after.
Proof.
  intros Hb Hc Hn. rewrite applyAt_app, applyAt_cons.
  rewrite (proj2 (hasId_true a n) Hn).
  now rewrite !applyAt_absent.
Qed.

Lemma applyAt_top a f parent s :
  uniqueIds s -> (exists n, In n s /\ hasId a n = true) ->
  Replaced a f parent s (applyAt a f s).
Proof.
  intros Hu Htop.
  destruct (top_split _ _ Hu Htop) as (b & n & c & -> & Hn & Hb & _ & Hc).
  exists b, n, c. repeat split; auto. now apply applyAt_here.
Qed.

Lemma applyAt_spec a f l parent :
  uniqueIds l -> In a (allIds l) ->
  InForest (Replaced a f) parent l (applyAt a f l).
Proof.
  apply walk_spec.
  - apply applyAt_deep.
  - intros. now apply applyAt_top.
Qed.

(** [updateNodeContent] is the [apply] walk that sets the content: the
    test on [children.length] only spares rebuilding a leaf. *)
Lemma updateNodeContent_applyAt a c now l :
  updateNodeContent a c now l = applyAt a (fun n => with_content n c now) l.
Proof.
  unfold updateNodeContent, applyAt. apply map_ext. intros n.
  induction n using NoteNode_ind. simpl.
  destruct (hasId a _); [reflexivity|].
  destruct cs as [|x cs]; [reflexivity|].
  cbn [List.length Nat.ltb Nat.leb]. unfold with_children. simpl.
  f_equal. inversion H; subst. f_equal; [assumption|].
  apply map_ext_in. intros m Hm. rewrite Forall_forall in H3. auto.
Qed.

(** ** Ids under a rewriting *)

Lemma ids_lifted (extra before inside after : list string) (i : string) :
  Permutation (before ++ i :: (extra ++ inside) ++ after)
              (extra ++ before ++ i :: inside ++ after).
Proof.
  rewrite <- app_assoc.
  transitivity (before ++ extra ++ i :: inside ++ after).
  - apply Permutation_app_head. apply Permutation_middle.
  - apply Permutation_app_swap_app.
Qed.

(** When every rewriting of a sibling list takes the ids [gone] from it
    and adds the ids [extra] to it, so does the rewriting of the
    forest. *)
Lemma InForest_ids_both R gone extra parent l l' :
  (forall p s s', R p s s' ->
                  Permutation (gone ++ allIds s') (extra ++ allIds s)) ->
  InForest R parent l l' ->
  Permutation (gone ++ allIds l') (extra ++ allIds l).
Proof.
  intros HR H. induction H as [p s s' H|p b n c cs' H IH].
  - eauto.
  - rewrite !allIds_app, allIds_with_children, allIds_cons.
    rewrite <- (ids_lifted gone), <- (ids_lifted extra).
    apply Permutation_app_head, perm_skip, Permutation_app_tail, IH.
Qed.

Lemma InForest_ids R extra parent l l' :
  (forall p s s', R p s s' ->
                  Permutation (allIds s') (extra ++ allIds s)) ->
  InForest R parent l l' ->
  Permutation (allIds l') (extra ++ allIds l).
Proof. exact (InForest_ids_both R [] extra parent l l'). Qed.

Lemma InForest_uniqueIds R parent l l' :
  (forall p s s', R p s s' -> Permutation (allIds s') (allIds s)) ->
  InForest R parent l l' -> uniqueIds l -> uniqueIds l'.
Proof.
  intros HR H Hu. unfold uniqueIds in *.
  eapply Permutation_NoDup; [|exact Hu].
  symmetry. apply (InForest_ids R [] parent l l' HR H).
Qed.

(** ** Enter: [newBulletAtCaret] *)

Lemma newBulletAtCaret_spec uuid now a headHTML tailHTML l parent :
  uniqueIds l -> In a (allIds l) ->
  InForest (SplitInTwo a uuid now headHTML tailHTML) parent l
    (newBulletAtCaret uuid now a headHTML tailHTML l).
Proof.
  unfold newBulletAtCaret, insertAfterNode.
  fold (freshNode uuid tailHTML now).
  apply (walk_spec a
    (fun s => insertInList a (freshNode uuid tailHTML now)
                (updateNodeContent a headHTML now s))).
  - intros s Hs. rewrite updateNodeContent_applyAt.
    rewrite (applyAt_deep _ _ _ Hs), insertInList_deep.
    + rewrite map_map. apply map_ext. intros n.
      now rewrite with_children_twice, updateNodeContent_applyAt.
    + intros n Hn. apply in_map_iff in Hn. destruct Hn as (m & <- & Hm).
      rewrite hasId_with_children. auto.
  - intros p s Hu Htop.
    destruct (top_split _ _ Hu Htop) as (b & n & c & -> & Hn & Hb & _ & Hc).
    exists b, n, c. repeat split; auto.
    rewrite updateNodeContent_applyAt, applyAt_here by assumption.
    now apply insertInList_here.
Qed.

(** ** The element of a bullet and the range of Enter *)

Lemma nth_error_firstn_skipn {A} (l : list A) :
  forall i x, nth_error l i = Some x ->
              l = firstn i l ++ x :: skipn (S i) l.
Proof.
  induction l as [|y l IH]; intros [|i] x E; try discriminate.
  - injection E as ->. reflexivity.
  - simpl in E. cbn [firstn skipn app]. f_equal. exact (IH i x E).
Qed.

Lemma textOf_app a b : textOf (a ++ b) = textOf a ++ textOf b.
Proof. apply flat_map_app. Qed.

Lemma firstn_length_app {A} (a b : list A) :
  firstn (List.length a) (a ++ b) = a.
Proof. induction a; simpl; congruence. Qed.

Lemma skipn_length_app {A} (a b : list A) :
  skipn (List.length a) (a ++ b) = b.
Proof. induction a; simpl; congruence. Qed.

(** What the range from the caret to the end leaves and what it takes:
    the text before the caret, and the rest of the text. *)
Lemma textOf_text_cons data l : textOf (Text data :: l) = data ++ textOf l.
Proof. reflexivity. Qed.

Lemma textOf_elem_cons tag attrs childNodes l :
  textOf (Elem tag attrs childNodes :: l) = textOf childNodes ++ textOf l.
Proof. reflexivity. Qed.

Lemma range_text caret :
  forall el kept frag,
    deleteContents el caret = Some kept ->
    cloneContents el caret = Some frag ->
    textOf kept = textBefore el caret /\
    textOf kept ++ textOf frag = textOf el.
Proof.
  induction caret as [offset|index q IH]; intros el kept frag Hd Hc.
  - cbn [deleteContents cloneContents textBefore] in *.
    destruct (Nat.leb offset (List.length el)); [|discriminate].
    injection Hd as <-. injection Hc as <-.
    split; [reflexivity|]. now rewrite <- textOf_app, firstn_skipn.
  - cbn [deleteContents cloneContents textBefore] in *.
    destruct (nth_error el index) as [[data|tag attrs childNodes]|] eqn:E;
      [| |discriminate].
    + destruct q as [offset|]; [|discriminate].
      destruct (Nat.leb offset (List.length data)); [|discriminate].
      injection Hd as <-. injection Hc as <-.
      rewrite textOf_app, !textOf_text_cons. cbn [textOf flat_map].
      rewrite app_nil_r. split; [reflexivity|].
      transitivity (textOf (firstn index el ++ Text data
                            :: skipn (S index) el));
        [|now rewrite <- (nth_error_firstn_skipn el index _ E)].
      rewrite textOf_app, textOf_text_cons, <- !app_assoc.
      f_equal. rewrite app_assoc. now rewrite firstn_skipn.
    + destruct (deleteContents childNodes q) as [k|] eqn:Ed; [|discriminate].
      destruct (cloneContents childNodes q) as [f|] eqn:Ec; [|discriminate].
      injection Hd as <-. injection Hc as <-.
      destruct (IH childNodes k f Ed Ec) as [H1 H2].
      rewrite textOf_app, !textOf_elem_cons. cbn [textOf flat_map].
      rewrite app_nil_r, H1. split; [reflexivity|].
      transitivity (textOf (firstn index el ++ Elem tag attrs childNodes
                            :: skipn (S index) el));
        [|now rewrite <- (nth_error_firstn_skipn el index _ E)].
      rewrite textOf_app, textOf_elem_cons, <- !app_assoc.
      f_equal. rewrite app_assoc, <- H1. now rewrite H2.
Qed.

Lemma range_split el caret kept frag :
  deleteContents el caret = Some kept ->
  cloneContents el caret = Some frag ->
  textOf kept = firstn (List.length (textBefore el caret)) (textOf el) /\
  textOf frag = skipn (List.length (textBefore el caret)) (textOf el).
Proof.
  intros Hd Hc. destruct (range_text caret el kept frag Hd Hc) as [H1 H2].
  rewrite <- H1, <- H2.
  now rewrite firstn_length_app, skipn_length_app.
Qed.

(** C2 — Enter ([splitAtOffset(nodeId, k)]) in a forest with unique ids,
    the element of the node showing its content and the caret in it at
    logical offset [k], the length of the text before it.  The node
    keeps the head: its content becomes the markup of what is before
    the caret, whose text is the characters before [k] of the text of
    the node, and it keeps all its children.  A new node holding the
    tail — the markup of what is after the caret, whose text is the
    characters from [k] on — with the new id, the current time as both
    timestamps and no children, is its immediate next sibling.  The new
    id being fresh, ids stay unique. *)
Theorem C2_split_keeps_head_inserts_tail :
  forall (uuid : string) (now : Z) (l : list NoteNode) (n : NoteNode)
         (el : list Dom) (caret : Point) (head tail : list Dom),
    uniqueIds l -> In n (allNodes l) -> ~ In uuid (allIds l) ->
    content n = innerHTMLOf el ->
    deleteContents el caret = Some head ->
    cloneContents el caret = Some tail ->
    let k := List.length (textBefore el caret) in
    (textOf head = firstn k (textOf el) /\
     textOf tail = skipn k (textOf el)) /\
    InForest
      (fun _ s s' =>
         exists before after,
           s = before ++ n :: after /\
           s' = before
                ++ mkNode (id n) (innerHTMLOf head) (children n)
                     (parentId n) (isChecklist n) (checked n) (style n)
                     (collapsed n) (createdAt n) now
                :: mkNode uuid (innerHTMLOf tail) [] None None None None
                     None now now
                :: after)
      None l (splitAtOffset uuid now (id n) el caret l) /\
    uniqueIds (splitAtOffset uuid now (id n) el caret l).
Proof.
  intros uuid now l n el caret head tail Hu Hn Hfresh _ Hd Hc k.
  split; [exact (range_split el caret head tail Hd Hc)|].
  unfold splitAtOffset. rewrite Hd, Hc.
  assert (Hspec := newBulletAtCaret_spec uuid now (id n)
            (innerHTMLOf head) (innerHTMLOf tail) l None Hu
            (in_allNodes_ids _ _ Hn)).
  split.
  - apply InForest_nodes in Hspec.
    eapply InForest_impl; [|exact Hspec].
    intros p s s' [(b & m & c & -> & Hm & ->) Hin].
    assert (m = n) as ->.
    { eapply unique_node; eauto. apply Hin, in_elt. }
    exists b, c. split; reflexivity.
  - unfold uniqueIds.
    apply (Permutation_NoDup (l := uuid :: allIds l)).
    + symmetry. apply (InForest_ids _ [uuid] _ _ _) in Hspec; [exact Hspec|].
      intros p s s' (b & m & c & -> & Hm & ->).
      rewrite !allIds_app, !allIds_cons. simpl.
      set (ids := allIds (children m)).
      replace (allIds b ++ id m :: ids ++ uuid :: allIds c)
        with ((allIds b ++ id m :: ids) ++ uuid :: allIds c)
        by (rewrite <- app_assoc; reflexivity).
      replace (allIds b ++ id m :: ids ++ allIds c)
        with ((allIds b ++ id m :: ids) ++ allIds c)
        by (rewrite <- app_assoc; reflexivity).
      symmetry. apply Permutation_middle.
    + constructor; assumption.
Qed.

(** Enter after the [h] of [<b>he</b>llo]: the node keeps [<b>h</b>] and
    the new node gets [<b>e</b>llo]; the texts are [h] and [ello]. *)
Lemma C2_split_witness :
  let a := bullet "A" "<b>he</b>llo" [] in
  let el := [Elem (jsstr "b") [] [Text (jsstr "he")]; Text (jsstr "llo")] in
  let caret := Inside 0 (Inside 0 (At 1)) in
  let head := [Elem (jsstr "b") [] [Text (jsstr "h")]] in
  let tail := [Elem (jsstr "b") [] [Text (jsstr "e")]; Text (jsstr "llo")] in
  (textOf head = jsstr "h" /\ textOf tail = jsstr "ello") /\
  InForest
    (fun _ s s' =>
       exists before after,
         s = before ++ a :: after /\
         s' = before
              ++ mkNode "A" (jsstr "<b>h</b>") [] None None None None
                   None 0 7
              :: mkNode "B" (jsstr "<b>e</b>llo") [] None None None None
                   None 7 7
              :: after)
    None [a] (splitAtOffset "B" 7 "A" el caret [a]) /\
  uniqueIds (splitAtOffset "B" 7 "A" el caret [a]).
Proof.
  intros a el caret head tail.
  apply (C2_split_keeps_head_inserts_tail "B" 7 [a] a el caret head tail).
  - distinct_ids.
  - simpl. auto.
  - simpl. intuition discriminate.
  - reflexivity.
  - reflexivity.
  - reflexivity.
Defined.

(** The scenario of the specification: "hello" cut at 2 gives "he" and
    "llo". *)
Example split_hello :
  splitAtOffset "B" 7 "A" [Text (jsstr "hello")] (Inside 0 (At 2))
    [bullet "A" "hello" []]
  = [mkNode "A" (jsstr "he") [] None None None None None 0 7;
     mkNode "B" (jsstr "llo") [] None None None None None 7 7].
Proof. reflexivity. Qed.

(** ** Sibling lists of a forest *)

Lemma allNodes_inv p l :
  In p (allNodes l) ->
  In p l \/ exists n, In n l /\ In p (allNodes (children n)).
Proof.
  unfold allNodes at 1. rewrite in_flat_map. intros (n & Hn & Hp).
  destruct n; simpl in Hp. destruct Hp as [<-|Hp]; [now left|].
  right. eexists. split; [exact Hn|exact Hp].
Qed.

Lemma allNodes_children n p l :
  In n l -> In p (allNodes (children n)) -> In p (allNodes l).
Proof.
  intros Hn Hp. apply in_flat_map. exists n. split; [exact Hn|].
  destruct n; simpl in *. now right.
Qed.

Lemma allIds_children_of p l :
  In p (allNodes l) ->
  forall a, In a (allIds (children p)) -> In a (allIds l).
Proof.
  induction l as [l IH] using forest_rec. intros Hp a Ha.
  destruct (allNodes_inv _ _ Hp) as [Htop|(n & Hn & Hin)].
  - eapply in_children_ids; eauto.
  - eapply in_children_ids; [exact Hn|]. eapply IH; eauto.
Qed.

Lemma Level_ids l s :
  Level l s -> forall a, In a (allIds s) -> In a (allIds l).
Proof.
  intros [->|(p & Hp & ->)] a Ha; [exact Ha|].
  eapply allIds_children_of; eauto.
Qed.

Lemma Level_down l n s :
  In n l -> Level (children n) s -> Level l s.
Proof.
  intros Hn [->|(p & Hp & ->)]; right.
  - exists n. split; [now apply in_top_allNodes|reflexivity].
  - exists p. split; [|reflexivity]. eapply allNodes_children; eauto.
Qed.

(** A sibling list other than the root list lies below one of the
    roots. *)
Lemma Level_inv l s :
  Level l s -> s = l \/ exists n, In n l /\ Level (children n) s.
Proof.
  intros [->|(p & Hp & ->)]; [now left|right].
  destruct (allNodes_inv _ _ Hp) as [Htop|(n & Hn & Hin)].
  - exists p. split; [exact Htop|now left].
  - exists n. split; [exact Hn|]. right. now exists p.
Qed.

Lemma top_in_ids a (s : list NoteNode) :
  (exists n, In n s /\ hasId a n = true) -> In a (allIds s).
Proof.
  intros (n & Hn & Hid). apply hasId_true in Hid. subst a.
  now apply in_top_ids.
Qed.

Lemma uniqueIds_Level l s : uniqueIds l -> Level l s -> uniqueIds s.
Proof.
  induction l as [l IH] using forest_rec. intros Hu Hs.
  destruct (Level_inv _ _ Hs) as [->|(n & Hn & Hlev)]; [exact Hu|].
  eapply IH; eauto. eapply uniqueIds_children; eauto.
Qed.

(** ** A walk rewrites the sibling list that holds the id *)
Section WalkAt.
Variable a : string.
Variable F : list NoteNode -> list NoteNode.
Hypothesis F_deep : forall s,
  (forall n, In n s -> hasId a n = false) ->
  F s = map (fun n => with_children n (F (children n))) s.

Lemma walk_at l :
  forall parent s,
    uniqueIds l -> Level l s -> (exists n, In n s /\ hasId a n = true) ->
    InForest (fun _ s0 s' => s0 = s /\ s' = F s) parent l (F l).
Proof.
  induction l as [l IH] using forest_rec. intros parent s Hu Hs Htop.
  destruct (Level_inv _ _ Hs) as [->|(n & Hn & Hlev)].
  - apply InForest_here. split; reflexivity.
  - destruct (in_split _ _ Hn) as (b & c & ->).
    pose proof (Level_ids _ _ Hlev _ (top_in_ids _ _ Htop)) as Ha.
    pose proof (uniqueIds_split _ _ _ Hu) as
      (_ & Huc & _ & _ & Hnn & _ & Hnb & Hnc & _).
    rewrite (walk_deep a F F_deep); auto.
    + apply InForest_below. apply IH; auto.
    + apply hasId_false. intros E. apply Hnn. now rewrite E.
Qed.
End WalkAt.

Lemma InForest_same parent l l' :
  InForest (fun _ s s' => s' = s) parent l l' -> l' = l.
Proof.
  intros H. induction H as [p s s' H|p b n c cs' H IH]; [exact H|].
  now rewrite IH, with_children_same.
Qed.

(** ** Tab: [indentNode] *)

(** The equation of the source's [findAndIndent]. *)
Lemma findAndIndent_eq a nodes :
  findAndIndent a nodes =
  match findIndex (hasId a) nodes with
  | Some (S prev as index) =>
      match nth_error nodes index, nth_error nodes prev with
      | Some nodeToIndent, Some previousNode =>
          setAt prev
            (with_children previousNode
               (children previousNode ++
                [with_parentId nodeToIndent (Some (id previousNode))]))
            (spliceOut index nodes)
      | _, _ => nodes
      end
  | _ =>
      map (fun node => with_children node (findAndIndent a (children node)))
          nodes
  end.
Proof.
  unfold findAndIndent, findAndIndent_step.
  assert (E : map (indentInChildren a) nodes =
              map (fun node => with_children node
                     (findAndIndent_step (indentInChildren a) a
                        (children node))) nodes).
  { apply map_ext. intros n. destruct n; reflexivity. }
  destruct (findIndex (hasId a) nodes) as [[|i]|]; auto.
Qed.

Lemma findAndIndent_deep a s :
  (forall n, In n s -> hasId a n = false) ->
  findAndIndent a s
  = map (fun n => with_children n (findAndIndent a (children n))) s.
Proof.
  intros H. rewrite findAndIndent_eq.
  now rewrite (proj2 (findIndex_None (hasId a) s) H).
Qed.

Lemma setAt_split {A} (before : list A) x y after :
  setAt (List.length before) y (before ++ x :: after) = before ++ y :: after.
Proof. induction before; simpl; congruence. Qed.

Lemma spliceOut_split {A} (before : list A) x y after :
  spliceOut (S (List.length before)) (before ++ x :: y :: after)
  = before ++ x :: after.
Proof.
  unfold spliceOut. induction before; simpl in *; [reflexivity|].
  congruence.
Qed.

Lemma nth_error_split {A} (before : list A) x after :
  nth_error (before ++ x :: after) (List.length before) = Some x.
Proof. induction before; simpl; auto. Qed.

Lemma nth_error_split_next {A} (before : list A) x y after :
  nth_error (before ++ x :: y :: after) (S (List.length before)) = Some y.
Proof. induction before; simpl; auto. Qed.

Lemma findAndIndent_here a before p t after :
  ~ In a (allIds before) -> id p <> a -> id t = a ->
  findAndIndent a (before ++ p :: t :: after)
  = before
    ++ with_children p (children p ++ [with_parentId t (Some (id p))])
    :: after.
Proof.
  intros Hb Hp Ht. rewrite findAndIndent_eq.
  replace (findIndex (hasId a) (before ++ p :: t :: after))
    with (Some (S (List.length before))).
  - rewrite nth_error_split_next, nth_error_split, spliceOut_split.
    apply setAt_split.
  - symmetry.
    replace (before ++ p :: t :: after) with ((before ++ [p]) ++ t :: after)
      by (rewrite <- app_assoc; reflexivity).
    rewrite findIndex_split.
    + rewrite length_app. simpl. f_equal. lia.
    + intros y Hy. apply in_app_or in Hy. destruct Hy as [Hy|[<-|[]]].
      * exact (absent_top _ _ Hb _ Hy).
      * now apply hasId_false.
    + now apply hasId_true.
Qed.

Lemma findAndIndent_first a t after :
  uniqueIds (t :: after) -> id t = a ->
  findAndIndent a (t :: after) = t :: after.
Proof.
  intros Hu Ht. rewrite findAndIndent_eq. simpl.
  rewrite (proj2 (hasId_true a t) Ht).
  destruct (uniqueIds_cons _ _ Hu) as (Hc & Hl & _). rewrite Ht in Hc, Hl.
  pose proof (walk_absent a (findAndIndent a) (findAndIndent_deep a)) as Habs.
  rewrite Habs by assumption. rewrite with_children_same. f_equal.
  rewrite <- (map_id after) at 2. apply map_ext_in. intros n Hn.
  rewrite Habs; [apply with_children_same|].
  eapply absent_children; eauto.
Qed.

Lemma indentNode_at a l parent before p t after :
  uniqueIds l -> Level l (before ++ p :: t :: after) -> id t = a ->
  InForest
    (fun _ s s' =>
       s = before ++ p :: t :: after /\
       s' = before
            ++ with_children p
                 (children p ++ [with_parentId t (Some (id p))])
            :: after)
    parent l (indentNode a l).
Proof.
  intros Hu Hlev Ht.
  pose proof (uniqueIds_Level _ _ Hu Hlev) as Hs.
  assert (Hsplit : uniqueIds ((before ++ [p]) ++ t :: after))
    by (rewrite <- app_assoc; exact Hs).
  apply uniqueIds_split in Hsplit.
  destruct Hsplit as (_ & _ & _ & Hb & _).
  rewrite allIds_app, in_app_iff, Ht in Hb.
  eapply InForest_impl;
    [|apply (walk_at a (findAndIndent a) (findAndIndent_deep a)
               l parent _ Hu Hlev)].
  - intros _ s s' [-> ->]. split; [reflexivity|].
    apply findAndIndent_here; auto.
    intros E. apply Hb. right. rewrite allIds_cons. left. exact E.
  - exists t. split; [|now apply hasId_true].
    apply in_or_app. right. right. now left.
Qed.

Lemma indentNode_first a l t after :
  uniqueIds l -> Level l (t :: after) -> id t = a -> indentNode a l = l.
Proof.
  intros Hu Hlev Ht. apply (InForest_same None).
  eapply InForest_impl;
    [|apply (walk_at a (findAndIndent a) (findAndIndent_deep a)
               l None _ Hu Hlev)].
  - intros _ s s' [-> ->]. apply findAndIndent_first; auto.
    eapply uniqueIds_Level; eauto.
  - exists t. split; [now left|now apply hasId_true].
Qed.

(** C3 — [indentNode(nodeId, forest)], ids unique.  When the sibling list
    of the target holds a node right before it, that list loses the target
    and the previous sibling gets it, with all its fields and children
    (and [parentId] set to the new parent), as its last child; when the
    target is the first of its sibling list, the forest is unchanged. *)
Theorem C3_indent_under_previous_sibling :
  forall (a : string) (l : list NoteNode),
    uniqueIds l ->
    (forall before p t after,
        Level l (before ++ p :: t :: after) -> id t = a ->
        InForest
          (fun _ s s' =>
             s = before ++ p :: t :: after /\
             s' = before
                  ++ with_children p
                       (children p ++ [with_parentId t (Some (id p))])
                  :: after)
          None l (indentNode a l)) /\
    (forall t after,
        Level l (t :: after) -> id t = a -> indentNode a l = l).
Proof.
  intros a l Hu. split.
  - intros. now apply indentNode_at.
  - intros. eapply indentNode_first; eauto.
Qed.

Lemma C3_indent_witness :
  InForest
    (fun _ s s' =>
       s = [bullet "A" "foo" [bullet "X" "" []]; bullet "B" "bar" []] /\
       s' = [bullet "A" "foo"
               [bullet "X" "" [];
                with_parentId (bullet "B" "bar" []) (Some "A")]])
    None forestAXB (indentNode "B" forestAXB) /\
  indentNode "X" forestAXB = forestAXB.
Proof.
  assert (Hu : uniqueIds forestAXB) by distinct_ids.
  destruct (C3_indent_under_previous_sibling "B" forestAXB Hu) as [H1 _].
  destruct (C3_indent_under_previous_sibling "X" forestAXB Hu) as [_ H2].
  split.
  - apply (H1 [] (bullet "A" "foo" [bullet "X" "" []])
              (bullet "B" "bar" []) []).
    + left. reflexivity.
    + reflexivity.
  - apply (H2 (bullet "X" "" []) []).
    + right. exists (bullet "A" "foo" [bullet "X" "" []]).
      split; [simpl; auto|reflexivity].
    + reflexivity.
Defined.

(** ** Font size steps *)

Lemma currentSize_node l n :
  uniqueIds l -> In n (allNodes l) -> currentSize l (id n) = sizeOf n.
Proof.
  intros Hu Hn. unfold currentSize.
  now rewrite (findNodeById_unique _ _ Hu Hn).
Qed.

Lemma applyAt_node a f l n parent :
  uniqueIds l -> In n (allNodes l) -> id n = a ->
  InForest
    (fun _ s s' =>
       exists before after,
         s = before ++ n :: after /\ s' = before ++ f n :: after)
    parent l (applyAt a f l).
Proof.
  intros Hu Hn Hid.
  assert (Hspec : InForest (Replaced a f) parent l (applyAt a f l)).
  { apply applyAt_spec; auto. subst a. now apply in_allNodes_ids. }
  apply InForest_nodes in Hspec.
  eapply InForest_impl; [|exact Hspec].
  intros p s s' [(b & m & c & -> & Hm & ->) Hin].
  assert (m = n) as ->.
  { eapply unique_node; eauto; [apply Hin, in_elt|congruence]. }
  now exists b, c.
Qed.

Lemma incFont_setFontSize now l n :
  uniqueIds l -> In n (allNodes l) ->
  incFont now (id n) l = setFontSize now (id n) (sizeUp (sizeOf n)) l.
Proof.
  intros Hu Hn. unfold incFont. rewrite (currentSize_node _ _ Hu Hn).
  now destruct (sizeOf n).
Qed.

Lemma decFont_setFontSize now l n :
  uniqueIds l -> In n (allNodes l) ->
  decFont now (id n) l = setFontSize now (id n) (sizeDown (sizeOf n)) l.
Proof.
  intros Hu Hn. unfold decFont. rewrite (currentSize_node _ _ Hu Hn).
  now destruct (sizeOf n).
Qed.

Lemma setFontSize_node now l n z parent :
  uniqueIds l -> In n (allNodes l) ->
  InForest
    (fun _ s s' =>
       exists before after,
         s = before ++ n :: after /\ s' = before ++ resized n z now :: after)
    parent l (setFontSize now (id n) z l).
Proof.
  intros Hu Hn.
  exact (applyAt_node (id n) (fun m => resized m z now) l n parent
           Hu Hn eq_refl).
Qed.

(** C10 — [incFont] and [decFont] on a node of a forest with unique ids:
    the node's size, a missing one counting as [base], moves one step in
    [sm < base < lg < xl] and stays at [xl] going up and at [sm] going
    down; the forest is the same but for that node, and the node is the
    same but for [style.size] and [updatedAt]. *)
Theorem C10_font_steps_saturate :
  forall (now : Z) (l : list NoteNode),
    uniqueIds l ->
    (forall n, In n (allNodes l) ->
       InForest
         (fun _ s s' =>
            exists before after,
              s = before ++ n :: after /\
              s' = before ++ resized n (sizeUp (sizeOf n)) now :: after)
         None l (incFont now (id n) l) /\
       InForest
         (fun _ s s' =>
            exists before after,
              s = before ++ n :: after /\
              s' = before ++ resized n (sizeDown (sizeOf n)) now :: after)
         None l (decFont now (id n) l) /\
       (style n = None -> sizeOf n = base) /\
       (forall s, style n = Some s -> size s = None -> sizeOf n = base) /\
       (sizeOf n = xl -> sizeOf (resized n (sizeUp (sizeOf n)) now) = xl) /\
       (sizeOf n = sm -> sizeOf (resized n (sizeDown (sizeOf n)) now) = sm))
    /\
    (forall a, ~ In a (allIds l) ->
       incFont now a l = l /\ decFont now a l = l).
Proof.
  intros now l Hu. split.
  - intros n Hn. repeat split.
    + rewrite incFont_setFontSize by assumption.
      now apply setFontSize_node.
    + rewrite decFont_setFontSize by assumption.
      now apply setFontSize_node.
    + unfold sizeOf. now intros ->.
    + unfold sizeOf. now intros s -> ->.
    + intros E. rewrite E. reflexivity.
    + intros E. rewrite E. reflexivity.
  - intros a Ha. unfold incFont, decFont, setFontSize, updateNodeStyle.
    now rewrite !applyAt_absent.
Qed.

Lemma C10_font_witness :
  let l := [bullet "A" "a" [bigBullet]] in
  InForest
    (fun _ s s' =>
       exists before after,
         s = before ++ bigBullet :: after /\
         s' = before ++ resized bigBullet xl 9 :: after)
    None l (incFont 9 "B" l) /\
  InForest
    (fun _ s s' =>
       exists before after,
         s = before ++ bigBullet :: after /\
         s' = before ++ resized bigBullet lg 9 :: after)
    None l (decFont 9 "B" l).
Proof.
  intros l.
  assert (Hu : uniqueIds l) by distinct_ids.
  assert (Hn : In bigBullet (allNodes l)) by (simpl; auto).
  destruct (C10_font_steps_saturate 9 l Hu) as [Hnode _].
  destruct (Hnode bigBullet Hn) as (H1 & H2 & _).
  split; assumption.
Defined.

(** ** Lookups through an [apply] walk *)

Lemma applyAt_compose a f g l :
  (forall m, id (f m) = id m) ->
  applyAt a g (applyAt a f l) = applyAt a (fun m => g (f m)) l.
Proof.
  intros Hid. induction l as [l IH] using forest_rec.
  rewrite (applyAt_eq a f l), (applyAt_eq a (fun m => g (f m)) l).
  rewrite applyAt_eq, map_map. apply map_ext_in. intros n Hn.
  destruct (hasId a n) eqn:E.
  - unfold hasId in *. rewrite Hid, E. reflexivity.
  - rewrite hasId_with_children, E, with_children_twice.
    rewrite with_children_children. now rewrite IH.
Qed.

Lemma findNodeById_applyAt a f l :
  (forall m, id (f m) = id m) ->
  findNodeById (applyAt a f l) a = option_map f (findNodeById l a).
Proof.
  intros Hid. induction l as [|n l IHc IHl] using forest_ind;
    [reflexivity|].
  rewrite applyAt_cons, !findNodeById_cons.
  destruct (hasId a n) eqn:E.
  - unfold hasId in *. rewrite Hid, E. reflexivity.
  - rewrite hasId_with_children, E, with_children_children, IHc, IHl.
    now destruct (findNodeById (children n) a).
Qed.

Lemma findNodeById_present l a :
  In a (allIds l) -> exists n, findNodeById l a = Some n.
Proof.
  intros Hin. destruct (findNodeById l a) as [n|] eqn:E; [now exists n|].
  exfalso. revert Hin E.
  induction l as [|m l IHc IHl] using forest_ind; [intros []|].
  rewrite allIds_cons, findNodeById_cons.
  destruct (hasId a m) eqn:Em; [discriminate|]. apply hasId_false in Em.
  destruct (findNodeById (children m) a); [discriminate|].
  intros [Hin|Hin] El; [congruence|].
  apply in_app_or in Hin. destruct Hin; auto.
Qed.

(** ** Backspace on an empty bullet: the guard counts descendants *)

(** The guard does hold the delete branch back when one node is left. *)
Lemma backspace_keeps_single_node (innerHTML : string -> option jsstring)
    (now : Z) (atStart blank : bool) (a : string) (e : Editor) :
  getTotalNodeCount (nodes e) <= 1 ->
  (if atStart
   then mergeIntoPrevious innerHTML now (focusedNodeId e) a (nodes e)
   else None) = None ->
  handleBackspace innerHTML now atStart blank a e = e.
Proof.
  intros Hcount Hmerge. unfold handleBackspace. rewrite Hmerge.
  destruct (Nat.ltb_spec 1 (getTotalNodeCount (nodes e))) as [H|_]; [lia|].
  now rewrite andb_false_r.
Qed.

(** C7 — the forest can become empty.  The only root is empty and has a
    child, so [getTotalNodeCount] is 2 and the guard of the empty-bullet
    branch passes; [deleteNode] then takes the root and its subtree, and
    no node is left. *)
Theorem C7_backspace_on_lone_parent_empties_forest :
  forall now : Z,
    let e := loneRootWithChild in
    getTotalNodeCount (nodes e) = 2 /\
    mergeIntoPrevious (shown (nodes e)) now None "A" (nodes e) = None /\
    nodes (handleBackspace (shown (nodes e)) now true true "A" e) = [] /\
    getTotalNodeCount
      (nodes (backspaces (shown (nodes e))
                [mkBackspaceKey "A" true true now] e)) = 0.
Proof. intros now. repeat split. Qed.

(** ** Debounced saving *)

Lemma last_nonempty {A} (x : A) l d d' : last (x :: l) d = last (x :: l) d'.
Proof.
  revert x. induction l as [|y l IH]; intros x; [reflexivity|].
  change (last (y :: l) d = last (y :: l) d'). apply IH.
Qed.

Lemma typing_within a later :
  forall t e,
    saveTimer e = Some ((t + 400)%Z, nodes e) -> within 400 t later ->
    saves (settle (typing a later e))
    = saves e ++ [typed a later (nodes e)].
Proof.
  induction later as [|[t' html] later IH]; intros t e Ht Hw.
  - simpl. unfold settle, fireTimer. rewrite Ht. reflexivity.
  - destruct Hw as [Hlt Hw]. cbn [typing typed].
    unfold advanceTo. rewrite Ht.
    destruct (Z.leb_spec (t + 400) t') as [Hle|_]; [lia|].
    rewrite (IH t'); auto.
Qed.

Lemma typing_apart a later :
  forall t e,
    saveTimer e = Some ((t + 400)%Z, nodes e) -> apart 400 t later ->
    saves (settle (typing a later e))
    = saves e ++ nodes e :: snapshots a later (nodes e).
Proof.
  induction later as [|[t' html] later IH]; intros t e Ht Hw.
  - simpl. unfold settle, fireTimer. rewrite Ht. reflexivity.
  - destruct Hw as [Hlt Hw]. cbn [typing snapshots].
    unfold advanceTo. rewrite Ht.
    destruct (Z.leb_spec (t + 400) t') as [_|Hgt]; [|lia].
    rewrite (IH t'); auto.
    unfold fireTimer. rewrite Ht. simpl.
    rewrite <- app_assoc. reflexivity.
Qed.

Lemma typed_content a later :
  forall html t l,
    In a (allIds l) ->
    exists n, findNodeById (typed a later (updateNodeContent a html t l)) a
              = Some n /\ content n = lastHtml html later.
Proof.
  induction later as [|[t' html'] later IH]; intros html t l Hin.
  - destruct (findNodeById_present _ _ Hin) as [n Hn].
    exists (with_content n html t). split; [|reflexivity]. simpl.
    rewrite updateNodeContent_applyAt, findNodeById_applyAt, Hn; auto.
  - cbn [typed].
    replace (lastHtml html ((t', html') :: later))
      with (lastHtml html' later).
    + apply IH.
      destruct (findNodeById_present _ _ Hin) as [n Hn].
      assert (E : findNodeById (updateNodeContent a html t l) a
                  = Some (with_content n html t)).
      { rewrite updateNodeContent_applyAt, findNodeById_applyAt, Hn; auto. }
      apply findNodeById_found in E. destruct E as [E1 E2].
      apply in_allNodes_ids in E1. now rewrite E2 in E1.
    + unfold lastHtml. destruct later as [|x later]; [reflexivity|].
      change (last ((t', html') :: x :: later) (0%Z, html))
        with (last (x :: later) (0%Z, html)).
      f_equal. apply last_nonempty.
Qed.

(** C8 — edits of one node, no timeout pending before the first.  When
    each edit comes less than 400 ms after the one before, [saveNoteData]
    is called once, with the forest after the last edit, in which the node
    has the last content; when each comes more than 400 ms after the one
    before, it is called once per edit, with the forest after that
    edit. *)
Theorem C8_debounce_coalesces_bursts :
  forall (a : string) (t : Z) (html : jsstring)
         (later : list (Z * jsstring)) (e : Editor),
    saveTimer e = None ->
    (within 400 t later ->
     saves (settle (typing a ((t, html) :: later) e))
     = saves e ++ [typed a ((t, html) :: later) (nodes e)] /\
     (In a (allIds (nodes e)) ->
      exists n,
        findNodeById (typed a ((t, html) :: later) (nodes e)) a = Some n /\
        content n = lastHtml html later)) /\
    (apart 400 t later ->
     saves (settle (typing a ((t, html) :: later) e))
     = saves e ++ snapshots a ((t, html) :: later) (nodes e) /\
     List.length (snapshots a ((t, html) :: later) (nodes e))
     = List.length ((t, html) :: later)).
Proof.
  intros a t html later e Hnone.
  assert (Hstart : advanceTo t e = e)
    by (unfold advanceTo; now rewrite Hnone).
  split; intros H.
  - split.
    + cbn [typing typed]. rewrite Hstart.
      now rewrite (typing_within a later t).
    + intros Hin. cbn [typed]. now apply typed_content.
  - split.
    + cbn [typing snapshots]. rewrite Hstart.
      now rewrite (typing_apart a later t).
    + clear. generalize (nodes e).
      generalize ((t, html) :: later). clear.
      induction l as [|[t html] l IH]; intros f; simpl; auto.
Qed.

Lemma C8_debounce_witness :
  let e := mkEditor [bullet "A" "" []] None None [] in
  saves (settle (typing "A" [(0, jsstr "a"); (120, jsstr "ab");
                             (500, jsstr "abc")]%Z e))
  = [typed "A" [(0, jsstr "a"); (120, jsstr "ab"); (500, jsstr "abc")]%Z
       (nodes e)] /\
  saves (settle (typing "A" [(0, jsstr "a"); (401, jsstr "ab");
                             (900, jsstr "abc")]%Z e))
  = snapshots "A" [(0, jsstr "a"); (401, jsstr "ab"); (900, jsstr "abc")]%Z
      (nodes e).
Proof.
  intros e. split.
  - apply (C8_debounce_coalesces_bursts "A" 0 (jsstr "a")
             [(120, jsstr "ab"); (500, jsstr "abc")]%Z e eq_refl).
    simpl. lia.
  - apply (C8_debounce_coalesces_bursts "A" 0 (jsstr "a")
             [(401, jsstr "ab"); (900, jsstr "abc")]%Z e eq_refl).
    simpl. lia.
Defined.

(** ** Collapse and the flattened visible list *)

Lemma dfsNode_eq n :
  dfsNode n =
  n :: (if flag (collapsed n) then [] else flattenVisibleNodes (children n)).
Proof.
  destruct n as [i c cs p k ch st co ca ua]. simpl.
  destruct cs; simpl; destruct (flag co); reflexivity.
Qed.

Lemma flattenVisibleNodes_cons n l :
  flattenVisibleNodes (n :: l) =
  n :: (if flag (collapsed n) then [] else flattenVisibleNodes (children n))
    ++ flattenVisibleNodes l.
Proof.
  unfold flattenVisibleNodes at 1. simpl. now rewrite dfsNode_eq.
Qed.

(** What is visible is in the forest. *)
Lemma visible_in_forest l n :
  In n (flattenVisibleNodes l) -> In n (allNodes l).
Proof.
  induction l as [|m l IHc IHl] using forest_ind; [intros []|].
  rewrite flattenVisibleNodes_cons, allNodes_cons.
  intros [<-|H]; [now left|right].
  apply in_app_or in H. apply in_or_app. destruct H as [H|H]; auto.
  destruct (flag (collapsed m)); [destruct H|auto].
Qed.

(** With nothing collapsed the whole forest is visible. *)
Lemma all_visible l :
  (forall m, In m (allNodes l) -> flag (collapsed m) = false) ->
  flattenVisibleNodes l = allNodes l.
Proof.
  induction l as [|m l IHc IHl] using forest_ind; [reflexivity|].
  rewrite flattenVisibleNodes_cons, allNodes_cons. intros H.
  rewrite (H m) by now left.
  rewrite IHc, IHl; auto; intros x Hx; apply H; right; apply in_or_app; auto.
Qed.

(** Collapsing a visible, expanded node hides what was visible below
    it. *)
Lemma collapse_hides_visible_descendants now l n :
  uniqueIds l -> In n (flattenVisibleNodes l) ->
  flag (collapsed n) = false ->
  List.length (flattenVisibleNodes (setNodeCollapsed now (id n) true l))
  + List.length (flattenVisibleNodes (children n))
  = List.length (flattenVisibleNodes l).
Proof.
  unfold setNodeCollapsed. intros Hu Hn Hflag. revert Hu Hn.
  induction l as [|m l IHc IHl] using forest_ind; [intros _ []|].
  intros Hu Hn.
  destruct (uniqueIds_cons _ _ Hu) as (Hmc & Hml & Huc & Hul & Hdis).
  rewrite applyAt_cons, !flattenVisibleNodes_cons in *.
  destruct Hn as [<-|Hn].
  - rewrite (proj2 (hasId_true (id m) m) eq_refl).
    rewrite applyAt_absent by assumption.
    rewrite Hflag. simpl. rewrite !length_app. lia.
  - apply in_app_or in Hn. destruct Hn as [Hn|Hn].
    + destruct (flag (collapsed m)) eqn:Em; [destruct Hn|].
      pose proof (in_allNodes_ids _ _ (visible_in_forest _ _ Hn)) as Hid.
      assert (Hne : hasId (id n) m = false).
      { apply hasId_false. intros E. apply Hmc. now rewrite E. }
      rewrite Hne. cbn [collapsed with_children children].
      rewrite Em, (applyAt_absent _ _ l) by auto.
      simpl. rewrite !length_app. specialize (IHc Huc Hn). lia.
    + pose proof (in_allNodes_ids _ _ (visible_in_forest _ _ Hn)) as Hid.
      assert (Hne : hasId (id n) m = false).
      { apply hasId_false. intros E. apply Hml. now rewrite E. }
      rewrite Hne, applyAt_absent, with_children_same.
      * simpl. rewrite !length_app. specialize (IHl Hul Hn). lia.
      * intros Hin. exact (Hdis _ Hin Hid).
Qed.

(** An [apply] walk that keeps children and collapse state keeps the
    visible length. *)
Lemma applyAt_same_visible a g l :
  (forall m, In m (allNodes l) -> id m = a ->
             flag (collapsed (g m)) = flag (collapsed m) /\
             children (g m) = children m) ->
  List.length (flattenVisibleNodes (applyAt a g l))
  = List.length (flattenVisibleNodes l).
Proof.
  induction l as [|m l IHc IHl] using forest_ind; [reflexivity|].
  rewrite allNodes_cons, applyAt_cons, !flattenVisibleNodes_cons. intros H.
  simpl. rewrite !length_app. f_equal. f_equal.
  - destruct (hasId a m) eqn:E.
    + apply hasId_true in E.
      destruct (H m (or_introl eq_refl) E) as [-> ->]. reflexivity.
    + cbn [collapsed with_children children].
      destruct (flag (collapsed m)); [reflexivity|].
      apply IHc. intros x Hx. apply H. right. apply in_or_app. auto.
  - apply IHl. intros x Hx. apply H. right. apply in_or_app. auto.
Qed.

Lemma expand_restores_visible now now' l n :
  uniqueIds l -> In n (allNodes l) -> flag (collapsed n) = false ->
  List.length
    (flattenVisibleNodes
       (setNodeCollapsed now' (id n) false
          (setNodeCollapsed now (id n) true l)))
  = List.length (flattenVisibleNodes l).
Proof.
  intros Hu Hn Hflag. unfold setNodeCollapsed.
  rewrite applyAt_compose by reflexivity.
  apply applyAt_same_visible. intros m Hm E.
  assert (m = n) as -> by (eapply unique_node; eauto).
  split; [simpl; now rewrite Hflag|reflexivity].
Qed.

(** A node with a collapsed child: collapsing the node hides one line,
    and it has two descendants. *)
Lemma C6_collapse_counterexample :
  let a := bullet "A" "a" [nestedCollapsed] in
  In a (allNodes [a]) /\ children a <> [] /\
  List.length (flattenVisibleNodes [a]) = 2 /\
  List.length (flattenVisibleNodes (setNodeCollapsed 1 "A" true [a])) = 1 /\
  List.length (allNodes (children a)) = 2 /\
  ~ collapse_removes_all_descendants 1 [a] a.
Proof.
  intros a. unfold collapse_removes_all_descendants.
  repeat split; simpl; auto; discriminate.
Qed.

(** C6 (amended) — in a forest with unique ids, collapsing a node that is
    visible and not collapsed shortens the flattened visible list by the
    number of nodes visible below it, which is the number of all its
    descendants when none of them is collapsed; setting [collapsed] back
    to [false] restores the length. *)
Theorem C6_collapse_hides_visible_descendants :
  forall (now now' : Z) (l : list NoteNode) (n : NoteNode),
    uniqueIds l -> In n (flattenVisibleNodes l) ->
    flag (collapsed n) = false ->
    List.length (flattenVisibleNodes (setNodeCollapsed now (id n) true l))
    + List.length (flattenVisibleNodes (children n))
    = List.length (flattenVisibleNodes l) /\
    ((forall m, In m (allNodes (children n)) -> flag (collapsed m) = false) ->
     List.length (flattenVisibleNodes (children n))
     = List.length (allNodes (children n))) /\
    List.length
      (flattenVisibleNodes
         (setNodeCollapsed now' (id n) false
            (setNodeCollapsed now (id n) true l)))
    = List.length (flattenVisibleNodes l).
Proof.
  intros now now' l n Hu Hn Hflag. repeat split.
  - now apply collapse_hides_visible_descendants.
  - intros Hall. now rewrite all_visible.
  - apply expand_restores_visible; auto. now apply visible_in_forest.
Qed.

Lemma C6_collapse_witness :
  let a := bullet "A" "a" [bullet "B" "b" [bullet "C" "c" []]] in
  List.length (flattenVisibleNodes (setNodeCollapsed 1 "A" true [a])) + 2
  = 3 /\
  List.length
    (flattenVisibleNodes
       (setNodeCollapsed 2 "A" false (setNodeCollapsed 1 "A" true [a])))
  = 3.
Proof.
  intros a.
  assert (Hu : uniqueIds [a]) by distinct_ids.
  assert (Hn : In a (flattenVisibleNodes [a])) by (simpl; auto).
  destruct (C6_collapse_hides_visible_descendants 1 2 [a] a Hu Hn eq_refl)
    as (H1 & _ & H3).
  split; [exact H1|exact H3].
Defined.

(** ** Shift+Tab: [outdentNode] *)

Lemma findParentId_cons n l b parent :
  findParentId (n :: l) b parent =
  if hasId b n then truthyId parent
  else match findParentId (children n) b (Some (id n)) with
       | Some found => Some found
       | None => findParentId l b parent
       end.
Proof. destruct n; reflexivity. Qed.

Lemma findParentId_absent l b :
  forall parent, ~ In b (allIds l) -> findParentId l b parent = None.
Proof.
  induction l as [|n l IHc IHl] using forest_ind; [reflexivity|].
  intros parent. rewrite allIds_cons, findParentId_cons. simpl. intros H.
  destruct (hasId b n) eqn:E.
  - apply hasId_true in E. tauto.
  - rewrite IHc, IHl; auto; intros Hin; apply H; right;
      apply in_or_app; auto.
Qed.

Lemma findParentId_skip before l b parent :
  ~ In b (allIds before) ->
  findParentId (before ++ l) b parent = findParentId l b parent.
Proof.
  induction before as [|n before IH]; [reflexivity|].
  rewrite allIds_cons. simpl. intros H.
  rewrite findParentId_cons.
  assert (E : hasId b n = false) by (apply hasId_false; tauto).
  rewrite E, findParentId_absent.
  - apply IH. intros Hin. apply H. right. apply in_or_app. auto.
  - intros Hin. apply H. right. apply in_or_app. auto.
Qed.

Lemma removeNodeUnder_eq a n :
  removeNodeUnder a n = removeNode a (children n) (Some (id n)).
Proof. destruct n; reflexivity. Qed.

Lemma removeNode_absent a l :
  forall parent, ~ In a (allIds l) ->
  removeNode a l parent = mkRemoveResult l None parent.
Proof.
  induction l as [l IH] using forest_rec. intros parent Ha.
  unfold removeNode.
  assert (Hloop : forall rest before,
            (forall n, In n rest -> In n l) ->
            removeNode_loop (removeNodeUnder a) a l parent before rest
            = mkRemoveResult l None parent).
  { induction rest as [|n rest IHrest]; intros before Hsub; [reflexivity|].
    simpl.
    rewrite (absent_top _ _ Ha n) by (apply Hsub; now left).
    rewrite removeNodeUnder_eq, IH.
    - simpl. apply IHrest. intros m Hm. apply Hsub. now right.
    - apply Hsub. now left.
    - apply (absent_children _ _ Ha). apply Hsub. now left. }
  apply Hloop. auto.
Qed.

Lemma removeNode_loop_skip a lst parent pre :
  forall before rest,
    ~ In a (allIds pre) ->
    removeNode_loop (removeNodeUnder a) a lst parent before (pre ++ rest)
    = removeNode_loop (removeNodeUnder a) a lst parent (before ++ pre) rest.
Proof.
  induction pre as [|n pre IH]; intros before rest Ha.
  - now rewrite app_nil_r.
  - rewrite allIds_cons in Ha. simpl in *.
    assert (E : hasId a n = false) by (apply hasId_false; tauto).
    rewrite E, removeNodeUnder_eq, removeNode_absent.
    + simpl. rewrite IH, <- app_assoc; [reflexivity|].
      intros Hin. apply Ha. right. apply in_or_app. auto.
    + intros Hin. apply Ha. right. apply in_or_app. auto.
Qed.

Lemma removeNode_here a before t after parent :
  ~ In a (allIds before) -> id t = a ->
  removeNode a (before ++ t :: after) parent
  = mkRemoveResult (before ++ after) (Some t) parent.
Proof.
  intros Hb Ht. unfold removeNode.
  rewrite removeNode_loop_skip by assumption. simpl.
  now rewrite (proj2 (hasId_true a t) Ht).
Qed.

Lemma removeNode_deep a before n after parent u t q :
  ~ In a (allIds before) -> id n <> a ->
  removeNode a (children n) (Some (id n)) = mkRemoveResult u (Some t) q ->
  removeNode a (before ++ n :: after) parent
  = mkRemoveResult (before ++ with_children n u :: after) (Some t) q.
Proof.
  intros Hb Hn Hrec. unfold removeNode.
  rewrite removeNode_loop_skip by assumption. simpl.
  rewrite (proj2 (hasId_false a n) Hn), removeNodeUnder_eq, Hrec.
  reflexivity.
Qed.

Lemma insertInList_under a x before n after :
  ~ In a (allIds before) -> ~ In a (allIds after) -> id n <> a ->
  insertInList a x (before ++ n :: after)
  = before ++ with_children n (insertInList a x (children n)) :: after.
Proof.
  intros Hb Hc Hn.
  apply (walk_deep a (insertInList a x) (insertInList_deep a x)); auto.
  now apply hasId_false.
Qed.

(** Taking [t] out of the children of [p] and putting [x] after [p]:
    what [removeNode], [findParentId] and [insertAfterNode] do together
    when [t] is a child of [p] and [p] sits in the sibling list
    [before ++ p :: after]. *)
Section Outdent.
Variables (a : string) (p t : NoteNode).
Variables (before after cbefore cafter : list NoteNode).
Hypothesis p_children : children p = cbefore ++ t :: cafter.
Hypothesis t_id : id t = a.

Lemma outdent_steps l :
  forall parent,
    uniqueIds l -> Level l (before ++ p :: after) ->
    exists u g,
      removeNode a l parent = mkRemoveResult u (Some t) (Some (id p)) /\
      findParentId u (id p) parent = truthyId g /\
      forall x,
        InForest
          (fun gp s s' =>
             gp = g /\ s = before ++ p :: after /\
             s' = before ++ with_children p (cbefore ++ cafter)
                    :: x :: after)
          parent l (insertInList (id p) x u).
Proof.
  induction l as [l IH] using forest_rec. intros parent Hu Hlev.
  destruct (Level_inv _ _ Hlev) as [<-|(n & Hn & Hbelow)].
  - pose proof (uniqueIds_split _ _ _ Hu) as
      (_ & Hup & _ & Hpb & Hpp & _ & Hcb & _ & _).
    assert (Ha : In a (allIds (children p))).
    { rewrite p_children, allIds_app, allIds_cons, <- t_id.
      apply in_or_app. right. now left. }
    assert (Hcut : removeNode a (children p) (Some (id p))
                   = mkRemoveResult (cbefore ++ cafter) (Some t)
                       (Some (id p))).
    { rewrite p_children. apply removeNode_here; [|exact t_id].
      rewrite p_children in Hup. apply uniqueIds_split in Hup.
      rewrite <- t_id. tauto. }
    exists (before ++ with_children p (cbefore ++ cafter) :: after), parent.
    split; [|split].
    + apply removeNode_deep; auto. intros E. apply Hpp. now rewrite E.
    + rewrite findParentId_skip, findParentId_cons by assumption.
      unfold hasId. simpl. now rewrite String.eqb_refl.
    + intros x. apply InForest_here. repeat split.
      now apply insertInList_here.
  - destruct (in_split _ _ Hn) as (b & c & ->).
    pose proof (uniqueIds_split _ _ _ Hu) as
      (_ & Hun & _ & _ & Hnn & _ & Hnb & Hnc & _).
    destruct (IH n Hn (Some (id n)) Hun Hbelow) as (u & g & Hrm & Hfp & Hins).
    assert (Hp : In (id p) (allIds (children n))).
    { apply (Level_ids _ _ Hbelow). apply in_top_ids, in_elt. }
    assert (Ha : In a (allIds (children n))).
    { apply (Level_ids _ _ Hbelow).
      rewrite allIds_app, allIds_cons, p_children, allIds_app, allIds_cons.
      rewrite <- t_id. apply in_or_app. right. right.
      apply in_or_app. left. apply in_or_app. right. now left. }
    exists (b ++ with_children n u :: c), g. split; [|split].
    + eapply removeNode_deep; eauto. intros E. apply Hnn. now rewrite E.
    + rewrite findParentId_skip, findParentId_cons by auto.
      rewrite hasId_with_children, with_children_children.
      rewrite (proj2 (hasId_false (id p) n))
        by (intros E; apply Hnn; now rewrite E).
      simpl. rewrite Hfp. destruct (truthyId g); [reflexivity|].
      apply findParentId_absent. auto.
    + intros x.
      rewrite (insertInList_under (id p) x b (with_children n u) c); auto.
      * rewrite with_children_children, with_children_twice.
        apply InForest_below. apply Hins.
      * simpl. intros E. apply Hnn. now rewrite E.
Qed.
End Outdent.

Lemma root_not_below a l n0 :
  uniqueIds l -> In n0 l -> In a (allIds (children n0)) ->
  forall n, In n l -> hasId a n = false.
Proof.
  intros Hu Hn0 Ha n Hn. apply hasId_false. intros E.
  destruct (in_split _ _ Hn0) as (b & c & ->).
  pose proof (uniqueIds_split _ _ _ Hu) as
    (_ & _ & _ & _ & Hnn & _ & Hnb & Hnc & _).
  apply in_app_or in Hn. destruct Hn as [Hn|[<-|Hn]].
  - apply (Hnb _ Ha). rewrite <- E. now apply in_top_ids.
  - apply Hnn. now rewrite E.
  - apply (Hnc _ Ha). rewrite <- E. now apply in_top_ids.
Qed.

Lemma child_not_root a l s p t :
  uniqueIds l -> Level l s -> In p s -> In t (children p) -> id t = a ->
  forall n, In n l -> hasId a n = false.
Proof.
  intros Hu Hlev Hp Ht Hid.
  assert (Ha : In a (allIds (children p)))
    by (rewrite <- Hid; now apply in_top_ids).
  destruct (Level_inv _ _ Hlev) as [->|(n0 & Hn0 & Hbelow)].
  - eapply root_not_below; eauto.
  - eapply root_not_below; eauto.
    apply (Level_ids _ _ Hbelow). eapply in_children_ids; eauto.
Qed.

(** The parent a rewriting rule is told is the parent of the root list or
    a node of the forest. *)
Lemma InForest_parent R parent l l' :
  InForest R parent l l' ->
  InForest (fun p s s' =>
              R p s s' /\
              (p = parent \/ exists n, In n (allNodes l) /\ p = Some (id n)))
           parent l l'.
Proof.
  intros H. induction H as [p s s' H|p b n c cs' H IH].
  - apply InForest_here. auto.
  - apply InForest_below.
    eapply InForest_impl; [|exact IH].
    intros q s s' [HR Hq]. split; [exact HR|]. right.
    destruct Hq as [->|(m & Hm & ->)].
    + exists n. split; [|reflexivity]. apply in_top_allNodes, in_elt.
    + exists m. split; [|reflexivity].
      eapply allNodes_children; [apply in_elt|exact Hm].
Qed.

Lemma truthyId_proper s : s <> "" -> truthyId (Some s) = Some s.
Proof.
  intros H. simpl. now rewrite (proj2 (String.eqb_neq s "") H).
Qed.

Lemma outdentNode_at a l before p after cbefore t cafter :
  uniqueIds l -> properIds l -> Level l (before ++ p :: after) ->
  children p = cbefore ++ t :: cafter -> id t = a ->
  InForest
    (fun gp s s' =>
       s = before ++ p :: after /\
       s' = before ++ with_children p (cbefore ++ cafter)
              :: with_parentId t gp :: after)
    None l (outdentNode a l).
Proof.
  intros Hu Hproper Hlev Hch Hid. unfold outdentNode.
  assert (Hroot : existsb (hasId a) l = false).
  { destruct (existsb (hasId a) l) eqn:E; [|reflexivity].
    apply existsb_exists in E. destruct E as (n & Hn & E).
    rewrite (child_not_root a l _ p t Hu Hlev) in E;
      auto using in_elt. rewrite Hch. apply in_elt. }
  rewrite Hroot.
  destruct (outdent_steps a p t before after cbefore cafter Hch Hid
              l None Hu Hlev) as (u & g & Hrm & Hfp & Hins).
  rewrite Hrm. cbn [removed removedFrom updated].
  assert (Hp : id p <> "").
  { intros E. apply Hproper. rewrite <- E.
    apply (Level_ids _ _ Hlev), in_top_ids, in_elt. }
  rewrite (truthyId_proper _ Hp), Hfp.
  specialize (Hins (with_parentId t (truthyId g))).
  apply InForest_parent in Hins.
  eapply InForest_impl; [|exact Hins].
  intros gp s s' [(-> & -> & ->) Hgp]. split; [reflexivity|].
  destruct Hgp as [->|(n & Hn & ->)]; [reflexivity|].
  rewrite truthyId_proper; [reflexivity|].
  intros E. apply Hproper. rewrite <- E. now apply in_allNodes_ids.
Qed.

Lemma outdentNode_root a l t :
  In t l -> id t = a -> outdentNode a l = l.
Proof.
  intros Ht Hid. unfold outdentNode.
  replace (existsb (hasId a) l) with true; [reflexivity|].
  symmetry. apply existsb_exists. exists t. split; [exact Ht|].
  now apply hasId_true.
Qed.

(** C4 — [outdentNode(nodeId, forest)], ids unique and not empty.  When
    the target [t] is a child of [p], the sibling list of [p] gets [t]
    (with its own children, and [parentId] set to the id of the node the
    list belongs to) right after [p], and [p] keeps its other children, in
    their order; when the target is a root, the forest is unchanged. *)
Theorem C4_outdent_after_former_parent :
  forall (a : string) (l : list NoteNode),
    (uniqueIds l -> properIds l ->
     forall before p after cbefore t cafter,
       Level l (before ++ p :: after) ->
       children p = cbefore ++ t :: cafter -> id t = a ->
       InForest
         (fun gp s s' =>
            s = before ++ p :: after /\
            s' = before ++ with_children p (cbefore ++ cafter)
                   :: with_parentId t gp :: after)
         None l (outdentNode a l)) /\
    (forall t, In t l -> id t = a -> outdentNode a l = l).
Proof.
  intros a l. split.
  - intros. now apply outdentNode_at.
  - intros. eapply outdentNode_root; eauto.
Qed.

Lemma C4_outdent_witness :
  InForest
    (fun gp s s' =>
       s = forestAC /\
       s' = [bullet "A" "" [bullet "D" "y" []];
             with_parentId (bullet "C" "x" []) gp])
    None forestAC (outdentNode "C" forestAC) /\
  outdentNode "A" forestAC = forestAC.
Proof.
  destruct (C4_outdent_after_former_parent "C" forestAC) as [H1 _].
  destruct (C4_outdent_after_former_parent "A" forestAC) as [_ H2].
  split.
  - apply (H1 ltac:(distinct_ids) ltac:(unfold properIds; simpl;
                                        intuition discriminate)
              [] (bullet "A" "" [bullet "C" "x" []; bullet "D" "y" []]) []
              [] (bullet "C" "x" []) [bullet "D" "y" []]).
    + left. reflexivity.
    + reflexivity.
    + reflexivity.
  - apply (H2 (bullet "A" "" [bullet "C" "x" []; bullet "D" "y" []])).
    + now left.
    + reflexivity.
Defined.

(** [!parentId] reads an empty parent id as no parent: below a node whose
    id is the empty string the node stays where it is. *)
Example outdent_below_empty_id :
  outdentNode "C" forestNoId = forestNoId.
Proof. reflexivity. Qed.

(** ** Two rewritings of the same sibling list, one after the other *)

Lemma InForest_source_key R key parent l l' :
  (forall p s s', R p s s' -> exists n, In n s /\ id n = key) ->
  InForest R parent l l' -> In key (allIds l).
Proof.
  intros HR H. induction H as [p s s' H|p b n c cs' H IH].
  - destruct (HR _ _ _ H) as (n & Hn & <-). now apply in_top_ids.
  - eapply in_children_ids; [apply in_elt|exact IH].
Qed.

Lemma InForest_target_key R key parent l l' :
  (forall p s s', R p s s' -> exists n, In n s' /\ id n = key) ->
  InForest R parent l l' -> In key (allIds l').
Proof.
  intros HR H. induction H as [p s s' H|p b n c cs' H IH].
  - destruct (HR _ _ _ H) as (n & Hn & <-). now apply in_top_ids.
  - apply (in_children_ids key (with_children n cs'));
      [apply in_elt|exact IH].
Qed.

Lemma InForest_target_Level (s1 : list NoteNode) R parent l l' :
  (forall p s s', R p s s' -> s' = s1) ->
  InForest R parent l l' -> Level l' s1.
Proof.
  intros HR H. induction H as [p s s' H|p b n c cs' H IH].
  - left. symmetry. eauto.
  - apply (Level_down _ (with_children n cs')); [apply in_elt|exact IH].
Qed.

(** With unique ids, the root above a given id is determined. *)
Lemma split_unique key b :
  forall n c b' n' c',
    uniqueIds (b ++ n :: c) -> b ++ n :: c = b' ++ n' :: c' ->
    In key (allIds (children n)) -> In key (allIds (children n')) ->
    b = b' /\ n = n' /\ c = c'.
Proof.
  induction b as [|y b IH]; intros n c b' n' c' Hu E Hk Hk'.
  - destruct b' as [|x b']; simpl in E.
    + injection E as -> ->. auto.
    + injection E as -> ->. exfalso. simpl in Hu.
      destruct (uniqueIds_cons _ _ Hu) as (_ & _ & _ & _ & Hdis).
      apply (Hdis _ Hk). eapply in_children_ids; [apply in_elt|exact Hk'].
  - destruct b' as [|x b']; simpl in E.
    + injection E as -> <-. exfalso. simpl in Hu.
      destruct (uniqueIds_cons _ _ Hu) as (_ & _ & _ & _ & Hdis).
      apply (Hdis _ Hk'). eapply in_children_ids; [apply in_elt|exact Hk].
    + injection E as -> E. simpl in Hu.
      destruct (uniqueIds_cons _ _ Hu) as (_ & _ & _ & Hu' & _).
      destruct (IH _ _ _ _ _ Hu' E Hk Hk') as (-> & -> & ->). auto.
Qed.

Lemma InForest_compose R1 R2 key parent l l1 :
  InForest R1 parent l l1 ->
  forall l2,
    uniqueIds l1 ->
    (forall p s s', R1 p s s' -> exists n, In n s' /\ id n = key) ->
    (forall p s s', R2 p s s' -> exists n, In n s /\ id n = key) ->
    InForest R2 parent l1 l2 ->
    InForest (fun p s s2 => exists s1, R1 p s s1 /\ R2 p s1 s2) parent l l2.
Proof.
  intros H. induction H as [p s s1 H|p b n c cs1 H IH];
    intros l2 Hu H1 H2 Hsecond.
  - inversion Hsecond as [q s' s2 HR|q b' n' c' cs2 Hin]; subst.
    + apply InForest_here. now exists s1.
    + exfalso. destruct (H1 _ _ _ H) as (m & Hm & Hid).
      pose proof (InForest_source_key R2 key _ _ _ H2 Hin) as Hk.
      pose proof (root_not_below key _ n' Hu (in_elt _ _ _) Hk m Hm) as E.
      apply hasId_false in E. contradiction.
  - remember (b ++ with_children n cs1 :: c) as l1 eqn:E.
    destruct Hsecond as [q s' s2 HR|q b' n' c' cs2 Hin].
    + exfalso. subst s'. destruct (H2 _ _ _ HR) as (m & Hm & Hid).
      pose proof (InForest_target_key R1 key _ _ _ H1 H) as Hk.
      pose proof (root_not_below key _ (with_children n cs1) Hu
                    (in_elt _ _ _) Hk m Hm) as E.
      apply hasId_false in E. contradiction.
    + pose proof (InForest_target_key R1 key _ _ _ H1 H) as Hk.
      pose proof (InForest_source_key R2 key _ _ _ H2 Hin) as Hk'.
      rewrite E in Hu. symmetry in E.
      destruct (split_unique key b (with_children n cs1) c b' n' c'
                  Hu E Hk Hk') as (<- & <- & <-).
      rewrite with_children_twice. apply InForest_below.
      apply IH; auto.
      now apply uniqueIds_split in Hu.
Qed.

(** ** Indent, then outdent *)

Lemma shapeOf_eq n :
  shapeOf n =
  mkNode (id n) (content n) (map shapeOf (children n)) None
         (isChecklist n) (checked n) (style n) (collapsed n)
         (createdAt n) (updatedAt n).
Proof. destruct n; reflexivity. Qed.

Lemma InForest_shape R parent l l' :
  (forall p s s', R p s s' -> map shapeOf s' = map shapeOf s) ->
  InForest R parent l l' -> map shapeOf l' = map shapeOf l.
Proof.
  intros HR H. induction H as [p s s' H|p b n c cs' H IH]; [eauto|].
  rewrite !map_app, !map_cons. f_equal. f_equal.
  rewrite (shapeOf_eq n), (shapeOf_eq (with_children n cs')).
  cbn [with_children id content children isChecklist checked style
       collapsed createdAt updatedAt].
  now rewrite IH.
Qed.

Lemma indent_then_outdent a l before p t after :
  uniqueIds l -> properIds l ->
  Level l (before ++ p :: t :: after) -> id t = a ->
  InForest
    (fun gp s s' =>
       s = before ++ p :: t :: after /\
       s' = before ++ p :: with_parentId t gp :: after)
    None l (outdentNode a (indentNode a l)).
Proof.
  intros Hu Hproper Hlev Hid.
  set (t1 := with_parentId t (Some (id p))).
  set (p1 := with_children p (children p ++ [t1])).
  pose proof (indentNode_at a l None before p t after Hu Hlev Hid) as Hin.
  fold t1 p1 in Hin.
  assert (Hids : Permutation (allIds (indentNode a l)) (allIds l)).
  { apply (InForest_ids _ [] _ _ _) in Hin; [exact Hin|].
    intros q s s' [-> ->]. simpl.
    rewrite !allIds_app, !allIds_cons. simpl.
    rewrite allIds_app, allIds_cons. simpl.
    rewrite app_nil_r, <- app_assoc. reflexivity. }
  assert (Hu1 : uniqueIds (indentNode a l)).
  { unfold uniqueIds. eapply Permutation_NoDup; [symmetry|]; eauto. }
  assert (Hproper1 : properIds (indentNode a l)).
  { intros E. apply Hproper. eapply Permutation_in; eauto. }
  assert (Hlev1 : Level (indentNode a l) (before ++ p1 :: after)).
  { eapply InForest_target_Level; [|exact Hin]. now intros q s s' [_ ->]. }
  pose proof (outdentNode_at a (indentNode a l) before p1 after
                (children p) t1 [] Hu1 Hproper1 Hlev1 eq_refl Hid) as Hout.
  pose proof (fun H1 H2 =>
                InForest_compose _ _ (id p) _ _ _ Hin _ Hu1 H1 H2 Hout)
    as Hboth.
  eapply InForest_impl; [|apply Hboth].
  - intros gp s s' (s1 & [-> ->] & [_ ->]). split; [reflexivity|].
    unfold p1. rewrite app_nil_r, with_children_twice, with_children_same.
    reflexivity.
  - intros q s s' [_ ->]. exists p1. split; [apply in_elt|reflexivity].
  - intros q s s' [-> _]. exists p1. split; [apply in_elt|reflexivity].
Qed.

(** C5 — indent, then outdent.  In a forest with unique, non-empty ids,
    for a node [t] with a previous sibling [p], [outdentNode] after
    [indentNode] gives the forest back with [t] at its place after [p] in
    the same sibling list; only the [parentId] back-reference of [t] may
    differ (it now names the node the list belongs to), so without the
    back-references the two forests are equal. *)
Theorem C5_outdent_undoes_indent :
  forall (a : string) (l before : list NoteNode) (p t : NoteNode)
         (after : list NoteNode),
    uniqueIds l -> properIds l ->
    Level l (before ++ p :: t :: after) -> id t = a ->
    InForest
      (fun gp s s' =>
         s = before ++ p :: t :: after /\
         s' = before ++ p :: with_parentId t gp :: after)
      None l (outdentNode a (indentNode a l)) /\
    map shapeOf (outdentNode a (indentNode a l)) = map shapeOf l.
Proof.
  intros a l before p t after Hu Hproper Hlev Hid.
  pose proof (indent_then_outdent a l before p t after Hu Hproper Hlev Hid)
    as H.
  split; [exact H|].
  eapply InForest_shape; [|exact H].
  intros gp s s' [-> ->]. rewrite !map_app, !map_cons.
  now rewrite (shapeOf_eq t), (shapeOf_eq (with_parentId t gp)).
Qed.

Lemma C5_outdent_indent_witness :
  InForest
    (fun gp s s' =>
       s = forestAXB /\
       s' = [bullet "A" "foo" [bullet "X" "" []];
             with_parentId (bullet "B" "bar" []) gp])
    None forestAXB (outdentNode "B" (indentNode "B" forestAXB)) /\
  map shapeOf (outdentNode "B" (indentNode "B" forestAXB))
  = map shapeOf forestAXB.
Proof.
  apply (C5_outdent_undoes_indent "B" forestAXB []
           (bullet "A" "foo" [bullet "X" "" []]) (bullet "B" "bar" []) []).
  - distinct_ids.
  - unfold properIds. simpl. intuition discriminate.
  - left. reflexivity.
  - reflexivity.
Defined.

(** ** [deleteNode] *)

Lemma deleteInChildren_eq a n :
  deleteInChildren a n = with_children n (deleteFromList a (children n)).
Proof.
  destruct n as [i c cs p k ch st co ca ua]. simpl.
  unfold with_children, deleteFromList. simpl. f_equal.
  induction cs as [|x cs IH]; [reflexivity|].
  simpl. destruct (hasId a x); simpl; congruence.
Qed.

(** The equation of the source's [deleteFromList]. *)
Lemma deleteFromList_eq a nodes :
  deleteFromList a nodes =
  map (fun node => with_children node (deleteFromList a (children node)))
      (filter (fun n => negb (hasId a n)) nodes).
Proof.
  unfold deleteFromList at 1. apply map_ext. intros n.
  apply deleteInChildren_eq.
Qed.

Lemma deleteFromList_cons a n l :
  deleteFromList a (n :: l) =
  if hasId a n then deleteFromList a l
  else with_children n (deleteFromList a (children n)) :: deleteFromList a l.
Proof.
  unfold deleteFromList. cbn [filter].
  destruct (hasId a n); cbn [negb map]; [reflexivity|].
  rewrite (deleteInChildren_eq a n). reflexivity.
Qed.

Lemma deleteFromList_app a l1 l2 :
  deleteFromList a (l1 ++ l2) = deleteFromList a l1 ++ deleteFromList a l2.
Proof. unfold deleteFromList. now rewrite filter_app, map_app. Qed.

Lemma deleteFromList_deep a s :
  (forall n, In n s -> hasId a n = false) ->
  deleteFromList a s
  = map (fun n => with_children n (deleteFromList a (children n))) s.
Proof.
  intros H. rewrite deleteFromList_eq. f_equal.
  induction s as [|n s IH]; [reflexivity|]. simpl.
  rewrite (H n) by now left. simpl. f_equal. apply IH.
  intros m Hm. apply H. now right.
Qed.

Lemma deleteFromList_absent a l :
  ~ In a (allIds l) -> deleteFromList a l = l.
Proof. apply walk_absent, deleteFromList_deep. Qed.

Lemma deleteFromList_removes a l : ~ In a (allIds (deleteFromList a l)).
Proof.
  induction l as [|n l IHc IHl] using forest_ind; [intros []|].
  rewrite deleteFromList_cons. destruct (hasId a n) eqn:E; [exact IHl|].
  rewrite allIds_with_children. apply hasId_false in E.
  intros [H|H]; [congruence|]. apply in_app_or in H. tauto.
Qed.

(** Deleting [a] and an [apply] walk to another id commute. *)
Lemma deleteFromList_applyAt a p g g' l :
  p <> a -> (forall n, id (g n) = id n) ->
  (forall n, deleteInChildren a (g n) = g' (deleteInChildren a n)) ->
  deleteFromList a (applyAt p g l) = applyAt p g' (deleteFromList a l).
Proof.
  intros Hpa Hid Hg.
  induction l as [|n l IHc IHl] using forest_ind; [reflexivity|].
  rewrite applyAt_cons, (deleteFromList_cons a n l).
  destruct (hasId a n) eqn:Ea.
  - assert (Ep : hasId p n = false).
    { apply hasId_true in Ea. apply hasId_false. congruence. }
    rewrite Ep, deleteFromList_cons, hasId_with_children, Ea. exact IHl.
  - rewrite applyAt_cons, hasId_with_children, deleteFromList_cons.
    destruct (hasId p n) eqn:Ep.
    + unfold hasId in *. rewrite Hid, Ea.
      rewrite <- !deleteInChildren_eq, Hg, IHl. reflexivity.
    + rewrite hasId_with_children, Ea, !with_children_children.
      now rewrite !with_children_twice, IHc, IHl.
Qed.


(** ** Backspace at the start of a bullet: merging *)

Lemma allNodes_children_of p l :
  In p (allNodes l) ->
  forall m, In m (allNodes (children p)) -> In m (allNodes l).
Proof.
  induction l as [l IH] using forest_rec. intros Hp m Hm.
  destruct (allNodes_inv _ _ Hp) as [Htop|(n & Hn & Hin)].
  - eapply allNodes_children; eauto.
  - eapply allNodes_children; [exact Hn|]. eapply IH; eauto.
Qed.

Lemma Level_nodes l s :
  Level l s -> forall m, In m (allNodes s) -> In m (allNodes l).
Proof.
  intros [->|(p & Hp & ->)] m Hm; [exact Hm|].
  eapply allNodes_children_of; eauto.
Qed.

Lemma getCurrentNodes_Level focused l :
  Level l (getCurrentNodes focused l).
Proof.
  unfold getCurrentNodes. destruct (truthyId focused) as [f|]; [|now left].
  destruct (findNodeById l f) as [n|] eqn:E; [|now left].
  right. exists n. split; [|reflexivity].
  now apply findNodeById_found in E.
Qed.






Lemma htmlOf_inSync innerHTML l n :
  uniqueIds l -> inSync innerHTML l -> In n (allNodes l) ->
  htmlOf innerHTML l (id n) = content n.
Proof.
  intros Hu Hsync Hn. unfold htmlOf.
  destruct (Hsync n Hn) as [-> | ->]; [|reflexivity].
  now rewrite (findNodeById_unique _ _ Hu Hn).
Qed.

Lemma node_not_below_itself l n :
  uniqueIds l -> In n (allNodes l) -> ~ In (id n) (allIds (children n)).
Proof.
  induction l as [l IH] using forest_rec. intros Hu Hn.
  destruct (allNodes_inv _ _ Hn) as [Htop|(m & Hm & Hin)].
  - destruct (in_split _ _ Htop) as (b & c & ->).
    now apply uniqueIds_split in Hu.
  - eapply IH; eauto. eapply uniqueIds_children; eauto.
Qed.

(** [deleteNode] takes the node, with all that is below it, out of its
    sibling list. *)
Lemma deleteNode_node l n parent :
  uniqueIds l -> In n (allNodes l) ->
  InForest
    (fun _ s s' =>
       exists before after, s = before ++ n :: after /\ s' = before ++ after)
    parent l (deleteNode (id n) l).
Proof.
  intros Hu Hn.
  assert (Hspec :
    InForest
      (fun _ s s' =>
         exists before m after,
           s = before ++ m :: after /\ id m = id n /\ s' = before ++ after)
      parent l (deleteNode (id n) l)).
  { apply (walk_spec (id n) (deleteFromList (id n))
             (deleteFromList_deep (id n))).
    - intros q s Hus Htop.
      destruct (top_split _ _ Hus Htop) as (b & m & c & -> & Hm & Hb & _ & Hc).
      exists b, m, c. repeat split; auto.
      rewrite deleteFromList_app, deleteFromList_cons.
      rewrite (proj2 (hasId_true (id n) m) Hm).
      now rewrite !deleteFromList_absent.
    - exact Hu.
    - now apply in_allNodes_ids. }
  apply InForest_nodes in Hspec.
  eapply InForest_impl; [|exact Hspec].
  intros q s s' [(b & m & c & -> & Hm & ->) Hin].
  assert (m = n) as -> by (eapply unique_node; eauto; apply Hin, in_elt).
  now exists b, c.
Qed.

(** The merge is a deletion followed by one [apply] walk. *)
Lemma mergeInto_eq innerHTML now l prev curr :
  uniqueIds l -> inSync innerHTML l ->
  In prev (allNodes l) -> In curr (allNodes l) -> id prev <> id curr ->
  mergeInto innerHTML now (id prev) (id curr) l
  = applyAt (id prev)
      (fun m =>
         with_children
           (with_content m (mergedHtml (content prev) (content curr)) now)
           (children m ++ children curr))
      (deleteFromList (id curr) l).
Proof.
  intros Hu Hsync Hprev Hcurr Hne. unfold mergeInto.
  rewrite !(htmlOf_inSync innerHTML l) by assumption.
  rewrite (findNodeById_unique _ _ Hu Hcurr).
  unfold deleteNode, attachChildrenTo.
  rewrite updateNodeContent_applyAt, applyAt_compose by reflexivity.
  assert (Hkeep : deleteFromList (id curr) (children curr) = children curr)
    by (apply deleteFromList_absent; now apply (node_not_below_itself l)).
  apply deleteFromList_applyAt; [assumption|reflexivity|].
  intros n. rewrite !deleteInChildren_eq.
  cbn [children with_children with_content].
  rewrite deleteFromList_app, Hkeep. reflexivity.
Qed.




(** ** Markup without character references: tags stripped is the text *)















(** The scenario of the specification: "foo" and "bar" give "foo bar". *)
Example merge_foo_bar :
  let l := [bullet "A" "foo" []; bullet "B" "bar" []] in
  mergeIntoPrevious (shown l) 1 None "B" l
  = Some [mkNode "A" (jsstr "foo bar") [] None None None None None 0 1].
Proof. reflexivity. Qed.

(** Outside the amended claim: a text that ends with a no-break space is
    written [foo&nbsp;], the test of the merge sees the [;] of the
    character reference, and a space is put before "bar" although the
    plain text ends with white space. *)
Example merge_after_character_reference :
  let prevEl := [Text (jsstr "foo" ++ [NBSP])] in
  let l := [mkNode "A" (innerHTMLOf prevEl) [] None None None None None 0 0;
            bullet "B" "bar" []] in
  innerHTMLOf prevEl = jsstr "foo&nbsp;" /\
  endsNonSpace (textOf prevEl) = false /\
  option_map (map content) (mergeIntoPrevious (shown l) 1 None "B" l)
  = Some [jsstr "foo&nbsp; bar"].
Proof. repeat split. Qed.

(** * Further properties of the editor *)

(** ** Looking nodes up *)

Lemma find_app {A} (p : A -> bool) l1 l2 :
  find p (l1 ++ l2) =
  match find p l1 with Some x => Some x | None => find p l2 end.
Proof.
  induction l1 as [|x l1 IH]; [reflexivity|].
  simpl. destruct (p x); auto.
Qed.

Lemma findNodeById_find l a :
  findNodeById l a = find (hasId a) (allNodes l).
Proof.
  induction l as [|n l IHc IHl] using forest_ind; [reflexivity|].
  rewrite findNodeById_cons, allNodes_cons. cbn [find].
  destruct (hasId a n); [reflexivity|].
  now rewrite find_app, IHc, IHl.
Qed.

(** X1 — [findNodeById] returns the first node with the id in document
    (depth-first, pre-order) order, and nothing when no node has it. *)
Theorem X1_findNodeById_first_in_document_order :
  forall (l : list NoteNode) (a : string),
    findNodeById l a = find (hasId a) (allNodes l) /\
    (findNodeById l a = None <-> ~ In a (allIds l)).
Proof.
  intros l a. split; [apply findNodeById_find|]. split.
  - intros E Hin. destruct (findNodeById_present _ _ Hin) as [n Hn].
    congruence.
  - apply findNodeById_absent.
Qed.

Lemma findParentId_here before t after parent :
  ~ In (id t) (allIds before) ->
  findParentId (before ++ t :: after) (id t) parent = truthyId parent.
Proof.
  intros Hb. rewrite findParentId_skip, findParentId_cons by assumption.
  now rewrite (proj2 (hasId_true (id t) t) eq_refl).
Qed.

Lemma findParentId_under b before n after parent :
  ~ In b (allIds before) -> ~ In b (allIds after) -> id n <> b ->
  findParentId (before ++ n :: after) b parent
  = findParentId (children n) b (Some (id n)).
Proof.
  intros Hb Hc Hn. rewrite findParentId_skip, findParentId_cons by assumption.
  rewrite (proj2 (hasId_false b n) Hn).
  destruct (findParentId (children n) b (Some (id n))); [reflexivity|].
  now apply findParentId_absent.
Qed.

(** [findParentId] finds the node whose children list holds the target. *)
Lemma findParentId_spec l :
  forall parent, uniqueIds l ->
    (forall t, In t l -> findParentId l (id t) parent = truthyId parent) /\
    (forall p t, In p (allNodes l) -> In t (children p) ->
       findParentId l (id t) parent = truthyId (Some (id p))).
Proof.
  induction l as [l IH] using forest_rec. intros parent Hu. split.
  - intros t Ht. destruct (in_split _ _ Ht) as (b & c & ->).
    apply findParentId_here. now apply uniqueIds_split in Hu.
  - intros p t Hp Ht.
    assert (Hdeep : forall n, In n l -> In (id t) (allIds (children n)) ->
              findParentId l (id t) parent
              = findParentId (children n) (id t) (Some (id n))).
    { intros n Hn Hin. destruct (in_split _ _ Hn) as (b & c & ->).
      pose proof (uniqueIds_split _ _ _ Hu) as
        (_ & _ & _ & _ & Hnn & _ & Hnb & Hnc & _).
      apply findParentId_under; auto. intros E. apply Hnn. now rewrite E. }
    destruct (allNodes_inv _ _ Hp) as [Htop|(n & Hn & Hin)].
    + rewrite (Hdeep p Htop) by now apply in_top_ids.
      assert (Huc : uniqueIds (children p))
        by (eapply uniqueIds_children; eauto).
      exact (proj1 (IH p Htop (Some (id p)) Huc) t Ht).
    + rewrite (Hdeep n Hn).
      * assert (Huc : uniqueIds (children n))
          by (eapply uniqueIds_children; eauto).
        exact (proj2 (IH n Hn (Some (id n)) Huc) p t Hin Ht).
      * eapply allIds_children_of; eauto. now apply in_top_ids.
Qed.

(** X2 — [findParentId] in a forest with unique, non-empty ids: for a
    child it is the id of the node whose children list holds it, for a
    root and for an id that is not in the forest it is nothing. *)
Theorem X2_findParentId_is_the_parent :
  forall l : list NoteNode,
    uniqueIds l -> properIds l ->
    (forall p t, In p (allNodes l) -> In t (children p) ->
       findParentId l (id t) None = Some (id p)) /\
    (forall t, In t l -> findParentId l (id t) None = None) /\
    (forall a, ~ In a (allIds l) -> findParentId l a None = None).
Proof.
  intros l Hu Hproper.
  destruct (findParentId_spec l None Hu) as [Htop Hdeep].
  split; [|split].
  - intros p t Hp Ht. rewrite (Hdeep p t Hp Ht).
    apply truthyId_proper. intros E. apply Hproper. rewrite <- E.
    now apply in_allNodes_ids.
  - intros t Ht. now rewrite Htop.
  - intros a Ha. now apply findParentId_absent.
Qed.

Lemma X2_findParentId_witness :
  findParentId forestAXB "X" None = Some "A" /\
  findParentId forestAXB "B" None = None /\
  findParentId forestAXB "Z" None = None.
Proof.
  assert (Hu : uniqueIds forestAXB) by distinct_ids.
  assert (Hp : properIds forestAXB)
    by (unfold properIds; simpl; intuition discriminate).
  destruct (X2_findParentId_is_the_parent forestAXB Hu Hp)
    as (H1 & H2 & H3).
  split; [|split].
  - apply (H1 (bullet "A" "foo" [bullet "X" "" []]) (bullet "X" "" []));
      simpl; auto.
  - apply (H2 (bullet "B" "bar" [])). simpl. auto.
  - apply H3. simpl. intuition discriminate.
Defined.

(** ** [isDescendant] *)

Lemma contains_cons t c rest :
  contains t (c :: rest) =
  if hasId t c then true
  else if contains t (children c) then true
  else contains t rest.
Proof. destruct c; reflexivity. Qed.

Lemma contains_spec t l : contains t l = true <-> In t (allIds l).
Proof.
  induction l as [|c l IHc IHl] using forest_ind.
  - simpl. split; [discriminate|intros []].
  - rewrite contains_cons, allIds_cons. simpl. rewrite in_app_iff.
    destruct (hasId t c) eqn:E.
    + apply hasId_true in E. intuition.
    + apply hasId_false in E.
      destruct (contains t (children c)); intuition congruence.
Qed.

Lemma isDescendant_cons n l a t :
  isDescendant (n :: l) a t =
  if hasId a n then contains t (children n)
  else if isDescendant (children n) a t then true
  else isDescendant l a t.
Proof. destruct n; reflexivity. Qed.

Lemma isDescendant_sound l a t :
  isDescendant l a t = true ->
  exists n, In n (allNodes l) /\ id n = a /\ In t (allIds (children n)).
Proof.
  induction l as [|m l IHc IHl] using forest_ind; [discriminate|].
  rewrite isDescendant_cons, allNodes_cons.
  destruct (hasId a m) eqn:E.
  - intros H. exists m. repeat split; [now left|now apply hasId_true|].
    now apply contains_spec.
  - destruct (isDescendant (children m) a t).
    + intros _. destruct (IHc eq_refl) as (n & Hn & H).
      exists n. split; [right; apply in_or_app; auto|exact H].
    + intros H. destruct (IHl H) as (n & Hn & H').
      exists n. split; [right; apply in_or_app; auto|exact H'].
Qed.

Lemma isDescendant_complete l a t n :
  uniqueIds l -> In n (allNodes l) -> id n = a ->
  In t (allIds (children n)) -> isDescendant l a t = true.
Proof.
  intros Hu Hn Hid Ht. revert Hu Hn.
  induction l as [|m l IHc IHl] using forest_ind; [intros _ []|].
  intros Hu. rewrite allNodes_cons, isDescendant_cons.
  destruct (uniqueIds_cons _ _ Hu) as (Hmc & Hml & Huc & Hul & _).
  intros [<-|Hn].
  - rewrite (proj2 (hasId_true a m) Hid). now apply contains_spec.
  - assert (E : hasId a m = false).
    { apply hasId_false. intros E. subst a.
      apply in_app_or in Hn. destruct Hn as [Hn|Hn];
        apply in_allNodes_ids in Hn; rewrite <- E in Hn; contradiction. }
    rewrite E. apply in_app_or in Hn. destruct Hn as [Hn|Hn].
    + now rewrite IHc.
    + destruct (isDescendant (children m) a t); auto.
Qed.

(** X3 — [isDescendant(list, ancestorId, targetId)] with unique ids holds
    exactly when the id [targetId] occurs below the node with id
    [ancestorId]; in particular no node is its own descendant. *)
Theorem X3_isDescendant_is_below :
  forall (l : list NoteNode) (a t : string),
    uniqueIds l ->
    (isDescendant l a t = true <->
     exists n, In n (allNodes l) /\ id n = a /\
               In t (allIds (children n))) /\
    isDescendant l a a = false.
Proof.
  intros l a t Hu. split.
  - split; [apply isDescendant_sound|].
    intros (n & Hn & Hid & Ht). eapply isDescendant_complete; eauto.
  - destruct (isDescendant l a a) eqn:E; [|reflexivity].
    apply isDescendant_sound in E. destruct E as (n & Hn & Hid & Hin).
    exfalso. apply (node_not_below_itself l n Hu Hn). now rewrite Hid.
Qed.

Lemma X3_isDescendant_witness :
  isDescendant forestAXB "A" "X" = true /\
  isDescendant forestAXB "A" "A" = false.
Proof.
  assert (Hu : uniqueIds forestAXB) by distinct_ids.
  destruct (X3_isDescendant_is_below forestAXB "A" "X" Hu) as [[_ H] _].
  destruct (X3_isDescendant_is_below forestAXB "A" "A" Hu) as [_ H'].
  split; [|exact H'].
  apply H. exists (bullet "A" "foo" [bullet "X" "" []]).
  simpl. auto.
Defined.

(** ** Where a node sits *)

Lemma node_level l t :
  In t (allNodes l) ->
  In t l \/ exists p, In p (allNodes l) /\ In t (children p).
Proof.
  induction l as [l IH] using forest_rec. intros Ht.
  destruct (allNodes_inv _ _ Ht) as [Htop|(n & Hn & Hin)]; [now left|].
  right. destruct (IH n Hn Hin) as [Hc|(p & Hp & Hc)].
  - exists n. split; [now apply in_top_allNodes|exact Hc].
  - exists p. split; [eapply allNodes_children; eauto|exact Hc].
Qed.

Lemma node_Level l p :
  In p (allNodes l) -> exists before after, Level l (before ++ p :: after).
Proof.
  intros Hp. destruct (node_level _ _ Hp) as [Htop|(q & Hq & Hc)].
  - destruct (in_split _ _ Htop) as (b & c & E).
    exists b, c. left. now symmetry.
  - destruct (in_split _ _ Hc) as (b & c & E).
    exists b, c. right. exists q. split; [exact Hq|now symmetry].
Qed.

Lemma id_node l a :
  In a (allIds l) -> exists t, In t (allNodes l) /\ id t = a.
Proof.
  rewrite allIds_allNodes, in_map_iff. intros (t & E & Ht). eauto.
Qed.

Lemma InForest_target_node (x : NoteNode) R parent l l' :
  (forall p s s', R p s s' -> In x s') ->
  InForest R parent l l' -> In x (allNodes l').
Proof.
  intros HR H. induction H as [parent s s' Hs|parent b n c cs' _ IH].
  - apply in_top_allNodes. eapply HR; eauto.
  - rewrite allNodes_app, allNodes_cons. apply in_or_app. right. right.
    apply in_or_app. left. exact IH.
Qed.

Lemma InForest_target_parent R parent l l' :
  InForest R parent l l' ->
  exists gp s s',
    R gp s s' /\
    ((gp = parent /\ s' = l') \/
     (exists q, In q (allNodes l') /\ gp = Some (id q) /\ s' = children q)).
Proof.
  intros H. induction H as [parent s s' Hs|parent b n c cs' _ IH].
  - exists parent, s, s'. split; [exact Hs|now left].
  - destruct IH as (gp & s & s' & HR & [[-> ->]|(q & Hq & -> & ->)]).
    + exists (Some (id n)), s, cs'. split; [exact HR|]. right.
      exists (with_children n cs'). repeat split.
      apply in_top_allNodes, in_or_app. right. now left.
    + exists (Some (id q)), s, (children q). split; [exact HR|]. right.
      exists q. repeat split.
      rewrite allNodes_app, allNodes_cons. apply in_or_app. right. right.
      apply in_or_app. left. exact Hq.
Qed.

(** ** Counting *)

Lemma countUnder_eq n :
  countUnder n
  = fold_left (fun acc c => acc + 1 + countUnder c) (children n) 0.
Proof. destruct n; reflexivity. Qed.

Lemma fold_count (f : NoteNode -> nat) l :
  (forall n, In n l -> f n = List.length (allNodes (children n))) ->
  forall acc,
    fold_left (fun acc c => acc + 1 + f c) l acc
    = acc + List.length (allNodes l).
Proof.
  induction l as [|n l IH]; intros Hf acc; simpl; [lia|].
  rewrite IH by (intros m Hm; apply Hf; now right).
  rewrite (Hf n (or_introl eq_refl)).
  change (flat_map nodesOf l) with (allNodes l).
  replace (nodesOf n) with (n :: allNodes (children n))
    by (destruct n; reflexivity).
  rewrite length_app. simpl. lia.
Qed.

Lemma countUnder_nodes l :
  forall n, In n l -> countUnder n = List.length (allNodes (children n)).
Proof.
  induction l as [l IH] using forest_rec. intros n Hn.
  rewrite countUnder_eq, (fold_count countUnder (children n) (IH n Hn)).
  reflexivity.
Qed.

Lemma getTotalNodeCount_nodes l :
  getTotalNodeCount l = List.length (allNodes l).
Proof.
  unfold getTotalNodeCount.
  now rewrite (fold_count countUnder l (countUnder_nodes l)).
Qed.

Lemma getTotalNodeCount_ids l :
  getTotalNodeCount l = List.length (allIds l).
Proof.
  now rewrite getTotalNodeCount_nodes, allIds_allNodes, length_map.
Qed.

Lemma visible_le_nodes l :
  List.length (flattenVisibleNodes l) <= List.length (allNodes l).
Proof.
  induction l as [|n l IHc IHl] using forest_ind; [simpl; lia|].
  rewrite flattenVisibleNodes_cons, allNodes_cons. simpl.
  rewrite !length_app. destruct (flag (collapsed n)); simpl; lia.
Qed.

(** X4 — [getTotalNodeCount] counts every node of the forest, collapsed or
    not; the flattened list of visible nodes is never longer, and as long
    when no node is collapsed. *)
Theorem X4_getTotalNodeCount_counts_all_nodes :
  forall l : list NoteNode,
    getTotalNodeCount l = List.length (allNodes l) /\
    List.length (flattenVisibleNodes l) <= getTotalNodeCount l /\
    ((forall m, In m (allNodes l) -> flag (collapsed m) = false) ->
     List.length (flattenVisibleNodes l) = getTotalNodeCount l).
Proof.
  intros l. rewrite getTotalNodeCount_nodes.
  split; [reflexivity|]. split; [apply visible_le_nodes|].
  intros H. now rewrite all_visible.
Qed.

(** ** [updateNodeContent] *)

Lemma applyAt_ext a f g l :
  (forall n, f n = g n) -> applyAt a f l = applyAt a g l.
Proof.
  intros Hfg. induction l as [|n l IHc IHl] using forest_ind; [reflexivity|].
  rewrite !applyAt_cons, IHc, IHl, Hfg. reflexivity.
Qed.

Lemma applyAt_ids a f l :
  (forall n, id (f n) = id n) ->
  (forall n, allIds (children (f n)) = allIds (children n)) ->
  allIds (applyAt a f l) = allIds l.
Proof.
  intros Hid Hch.
  induction l as [|n l IHc IHl] using forest_ind; [reflexivity|].
  rewrite applyAt_cons, !allIds_cons, IHl.
  destruct (hasId a n).
  - now rewrite Hid, Hch.
  - now rewrite with_children_id, with_children_children, IHc.
Qed.

(** What an [apply] walk at [a] leaves alone in the nodes with another
    id: every field but the children. *)
Lemma applyAt_frame {A} (proj : NoteNode -> A) a f l b :
  (forall n cs, proj (with_children n cs) = proj n) ->
  (forall n, id (f n) = id n) ->
  (forall n, children (f n) = children n) ->
  b <> a ->
  option_map proj (findNodeById (applyAt a f l) b)
  = option_map proj (findNodeById l b).
Proof.
  intros Hproj Hid Hch Hba.
  induction l as [|n l IHc IHl] using forest_ind; [reflexivity|].
  rewrite applyAt_cons, !findNodeById_cons.
  destruct (hasId a n) eqn:Ea.
  - unfold hasId at 1. rewrite Hid. fold (hasId b n).
    destruct (hasId b n) eqn:Eb.
    + apply hasId_true in Ea, Eb. congruence.
    + rewrite Hch. destruct (findNodeById (children n) b); [reflexivity|].
      exact IHl.
  - rewrite hasId_with_children, with_children_children.
    destruct (hasId b n); [simpl; now rewrite Hproj|].
    destruct (findNodeById (applyAt a f (children n)) b),
             (findNodeById (children n) b); simpl in IHc; try discriminate;
      [exact IHc|exact IHl].
Qed.

(** X5 — [updateNodeContent] keeps every id in place, gives the node with
    the id the new content, keeps the content of the nodes with another
    id, changes nothing when no node has the id, and a second update of
    the same node overrides the first. *)
Theorem X5_updateNodeContent_touches_one_node :
  forall (a : string) (c : jsstring) (now : Z) (l : list NoteNode),
    allIds (updateNodeContent a c now l) = allIds l /\
    findNodeById (updateNodeContent a c now l) a
    = option_map (fun n => with_content n c now) (findNodeById l a) /\
    (forall b, b <> a ->
       option_map content (findNodeById (updateNodeContent a c now l) b)
       = option_map content (findNodeById l b)) /\
    (~ In a (allIds l) -> updateNodeContent a c now l = l) /\
    (forall c' now',
       updateNodeContent a c' now' (updateNodeContent a c now l)
       = updateNodeContent a c' now' l).
Proof.
  intros a c now l. rewrite updateNodeContent_applyAt.
  split; [|split; [|split; [|split]]].
  - now apply applyAt_ids.
  - now apply findNodeById_applyAt.
  - intros b Hb. now apply applyAt_frame.
  - apply applyAt_absent.
  - intros c' now'. rewrite !updateNodeContent_applyAt.
    rewrite applyAt_compose by reflexivity.
    now apply applyAt_ext.
Qed.

(** ** [deleteNode] *)

Lemma deleteFromList_incl a l :
  forall b, In b (allIds (deleteFromList a l)) -> In b (allIds l).
Proof.
  induction l as [|n l IHc IHl] using forest_ind; [intros b []|].
  intros b. rewrite deleteFromList_cons, allIds_cons.
  destruct (hasId a n).
  - intros H. right. apply in_or_app. right. now apply IHl.
  - rewrite allIds_with_children. simpl. rewrite !in_app_iff.
    intros [H|[H|H]]; auto.
Qed.

(** X6 — [deleteNode] leaves no node with the id, adds no id, is
    idempotent, and changes nothing when no node has the id. *)
Theorem X6_deleteNode_removes_the_id :
  forall (a : string) (l : list NoteNode),
    ~ In a (allIds (deleteNode a l)) /\
    (forall b, In b (allIds (deleteNode a l)) -> In b (allIds l)) /\
    deleteNode a (deleteNode a l) = deleteNode a l /\
    (~ In a (allIds l) -> deleteNode a l = l).
Proof.
  intros a l. unfold deleteNode. split; [|split; [|split]].
  - apply deleteFromList_removes.
  - apply deleteFromList_incl.
  - apply deleteFromList_absent, deleteFromList_removes.
  - apply deleteFromList_absent.
Qed.

Lemma NoDup_app_disjoint {A} (l1 l2 : list A) :
  NoDup (l1 ++ l2) -> forall a, In a l1 -> ~ In a l2.
Proof.
  induction l1 as [|x l1 IH]; simpl; intros H a; [intros []|].
  inversion H as [|? ? Hx Hnd]; subst. intros [<-|Ha] H2.
  - apply Hx, in_or_app. now right.
  - exact (IH Hnd a Ha H2).
Qed.

Lemma deleteNode_ids l n :
  uniqueIds l -> In n (allNodes l) ->
  Permutation ((id n :: allIds (children n)) ++ allIds (deleteNode (id n) l))
              (allIds l).
Proof.
  intros Hu Hn.
  refine (InForest_ids_both _ (id n :: allIds (children n)) [] None l
            (deleteNode (id n) l) _ (deleteNode_node l n None Hu Hn)).
  intros p s s' (b & c & -> & ->). simpl.
  rewrite !allIds_app, allIds_cons.
  change (id n :: allIds (children n) ++ allIds b ++ allIds c)
    with ((id n :: allIds (children n)) ++ allIds b ++ allIds c).
  change (id n :: allIds (children n) ++ allIds c)
    with ((id n :: allIds (children n)) ++ allIds c).
  apply Permutation_app_swap_app.
Qed.

(** X7 — With unique ids, [deleteNode] of a node of the forest removes
    that node and its subtree and nothing else: the ids are those of the
    forest without the subtree's, still unique, and the node count drops
    by the size of the subtree. *)
Theorem X7_deleteNode_removes_the_subtree :
  forall (l : list NoteNode) (n : NoteNode),
    uniqueIds l -> In n (allNodes l) ->
    Permutation (allIds l)
      ((id n :: allIds (children n)) ++ allIds (deleteNode (id n) l)) /\
    uniqueIds (deleteNode (id n) l) /\
    (forall b, In b (id n :: allIds (children n)) ->
               ~ In b (allIds (deleteNode (id n) l))) /\
    getTotalNodeCount (deleteNode (id n) l)
    + 1 + getTotalNodeCount (children n)
    = getTotalNodeCount l.
Proof.
  intros l n Hu Hn. pose proof (deleteNode_ids l n Hu Hn) as HP.
  assert (Hnd : NoDup ((id n :: allIds (children n))
                       ++ allIds (deleteNode (id n) l))).
  { eapply Permutation_NoDup; [symmetry; exact HP|exact Hu]. }
  split; [now symmetry|]. split; [|split].
  - unfold uniqueIds. eapply NoDup_app_remove_l; eauto.
  - intros b Hb Hin.
    exact (NoDup_app_disjoint _ _ Hnd b Hb Hin).
  - rewrite !getTotalNodeCount_ids.
    apply Permutation_length in HP. rewrite length_app in HP.
    simpl in HP. lia.
Qed.

Lemma X7_deleteNode_witness :
  Permutation (allIds forestAXB)
    (("A" :: allIds [bullet "X" "" []])
     ++ allIds (deleteNode "A" forestAXB)) /\
  getTotalNodeCount (deleteNode "A" forestAXB) + 1 + 1
  = getTotalNodeCount forestAXB.
Proof.
  assert (Hu : uniqueIds forestAXB) by distinct_ids.
  assert (Hn : In (bullet "A" "foo" [bullet "X" "" []])
                  (allNodes forestAXB)) by (simpl; auto).
  destruct (X7_deleteNode_removes_the_subtree forestAXB _ Hu Hn)
    as (H1 & _ & _ & H2).
  split; [exact H1|exact H2].
Defined.

(** ** [indentNode] and [outdentNode] keep the nodes *)

Lemma map_children_ids (F : list NoteNode -> list NoteNode) l :
  (forall n, In n l -> allIds (F (children n)) = allIds (children n)) ->
  allIds (map (fun n => with_children n (F (children n))) l) = allIds l.
Proof.
  induction l as [|n l IH]; intros H; [reflexivity|].
  cbn [map]. rewrite allIds_with_children, allIds_cons.
  rewrite (H n (or_introl eq_refl)), IH; [reflexivity|].
  intros m Hm. apply H. now right.
Qed.

Lemma indentNode_ids a l : allIds (indentNode a l) = allIds l.
Proof.
  unfold indentNode. induction l as [l IH] using forest_rec.
  rewrite findAndIndent_eq.
  destruct (findIndex (hasId a) l) as [[|prev]|] eqn:E;
    try (apply map_children_ids; exact IH).
  apply findIndex_Some in E.
  destruct E as (b0 & t & after & -> & Hlen & _ & _).
  destruct (exists_last (l := b0)) as (before & p & ->);
    [intros ->; discriminate|].
  rewrite length_app, Nat.add_comm in Hlen. simpl in Hlen.
  injection Hlen as <-. rewrite <- app_assoc. cbn [app].
  rewrite nth_error_split_next, nth_error_split.
  rewrite spliceOut_split, setAt_split.
  rewrite !allIds_app, allIds_with_children, !allIds_cons, !allIds_app.
  rewrite allIds_cons. simpl. rewrite app_nil_r, <- !app_assoc.
  reflexivity.
Qed.

(** X8 — [indentNode] never loses, adds or reorders a node: the ids of
    the forest in document order are the same before and after, whatever
    the id is, and so is the node count. *)
Theorem X8_indentNode_keeps_document_order :
  forall (a : string) (l : list NoteNode),
    allIds (indentNode a l) = allIds l /\
    getTotalNodeCount (indentNode a l) = getTotalNodeCount l.
Proof.
  intros a l. split; [apply indentNode_ids|].
  now rewrite !getTotalNodeCount_ids, indentNode_ids.
Qed.

Lemma outdentNode_absent a l :
  ~ In a (allIds l) -> outdentNode a l = l.
Proof.
  intros Ha. unfold outdentNode.
  destruct (existsb (hasId a) l); [reflexivity|].
  now rewrite removeNode_absent.
Qed.

Lemma outdentNode_ids a l :
  uniqueIds l -> properIds l ->
  Permutation (allIds (outdentNode a l)) (allIds l).
Proof.
  intros Hu Hp.
  destruct (in_dec string_dec a (allIds l)) as [Ha|Ha];
    [|now rewrite outdentNode_absent].
  destruct (id_node _ _ Ha) as (t & Ht & Hid).
  destruct (node_level _ _ Ht) as [Htop|(p & Hpn & Hc)].
  - now rewrite (outdentNode_root a l t Htop Hid).
  - destruct (node_Level _ _ Hpn) as (before & after & HL).
    destruct (in_split _ _ Hc) as (cb & ca & Ech).
    refine (InForest_ids _ [] None l (outdentNode a l) _
              (outdentNode_at a l before p after cb t ca Hu Hp HL Ech Hid)).
    intros gp s s' [-> ->].
    rewrite !allIds_app, allIds_with_children, (allIds_cons p), Ech.
    rewrite !allIds_app.
    replace (allIds (with_parentId t gp :: after))
      with (idsOf t ++ allIds after) by (destruct t; reflexivity).
    change (allIds (t :: ca)) with (idsOf t ++ allIds ca).
    generalize (idsOf t). intros T. simpl.
    apply Permutation_app_head, perm_skip.
    rewrite <- !app_assoc. apply Permutation_app_head.
    apply Permutation_app_swap_app.
Qed.

(** X9 — [outdentNode] on a forest with unique, non-empty ids never loses
    or adds a node: the ids after are a permutation of the ids before
    (still unique and non-empty), and an id that is not in the forest
    changes nothing. *)
Theorem X9_outdentNode_keeps_the_nodes :
  forall (a : string) (l : list NoteNode),
    uniqueIds l -> properIds l ->
    Permutation (allIds (outdentNode a l)) (allIds l) /\
    uniqueIds (outdentNode a l) /\ properIds (outdentNode a l) /\
    getTotalNodeCount (outdentNode a l) = getTotalNodeCount l /\
    (~ In a (allIds l) -> outdentNode a l = l).
Proof.
  intros a l Hu Hp. pose proof (outdentNode_ids a l Hu Hp) as HP.
  split; [exact HP|]. split; [|split; [|split]].
  - unfold uniqueIds. eapply Permutation_NoDup; [symmetry; exact HP|].
    exact Hu.
  - intros H. apply Hp. eapply Permutation_in; eauto.
  - rewrite !getTotalNodeCount_ids. now apply Permutation_length.
  - apply outdentNode_absent.
Qed.

Lemma X9_outdentNode_witness :
  Permutation (allIds (outdentNode "X" forestAXB)) (allIds forestAXB) /\
  getTotalNodeCount (outdentNode "X" forestAXB) = 3.
Proof.
  assert (Hu : uniqueIds forestAXB) by distinct_ids.
  assert (Hp : properIds forestAXB)
    by (unfold properIds; simpl; intuition discriminate).
  destruct (X9_outdentNode_keeps_the_nodes "X" forestAXB Hu Hp)
    as (H1 & _ & _ & H2 & _).
  split; [exact H1|exact H2].
Defined.

(** ** The advisory [parentId] after a move *)

Lemma moved_lookup l' p' t' :
  uniqueIds l' -> In p' (allNodes l') -> In t' (children p') ->
  findNodeById l' (id t') = Some t' /\
  findParentId l' (id t') None = truthyId (Some (id p')).
Proof.
  intros Hu Hp Ht. split.
  - apply findNodeById_unique; [exact Hu|].
    eapply allNodes_children_of; eauto. now apply in_top_allNodes.
  - exact (proj2 (findParentId_spec l' None Hu) p' t' Hp Ht).
Qed.

(** X10 — After [indentNode] has moved a node under its previous sibling
    (unique, non-empty ids), looking the node up gives it with a
    [parentId] that names the previous sibling, and [findParentId]
    computes the same id from the shape of the forest. *)
Theorem X10_indentNode_parentId_agrees :
  forall (l before : list NoteNode) (p t : NoteNode) (after : list NoteNode),
    uniqueIds l -> properIds l ->
    Level l (before ++ p :: t :: after) ->
    findNodeById (indentNode (id t) l) (id t)
    = Some (with_parentId t (Some (id p))) /\
    findParentId (indentNode (id t) l) (id t) None = Some (id p).
Proof.
  intros l before p t after Hu Hp HL.
  set (t' := with_parentId t (Some (id p))).
  set (p' := with_children p (children p ++ [t'])).
  assert (Hu' : uniqueIds (indentNode (id t) l))
    by (unfold uniqueIds; now rewrite indentNode_ids).
  assert (Hp' : In p' (allNodes (indentNode (id t) l))).
  { refine (InForest_target_node p' _ None l _ _
              (indentNode_at (id t) l None before p t after Hu HL eq_refl)).
    intros q s s' [_ ->]. apply in_or_app. right. now left. }
  assert (Ht' : In t' (children p'))
    by (apply in_or_app; right; now left).
  destruct (moved_lookup _ p' t' Hu' Hp' Ht') as [H1 H2].
  split; [exact H1|].
  change (id t') with (id t) in H2. rewrite H2.
  apply truthyId_proper. intros E. apply Hp.
  change (id p') with (id p) in E. rewrite <- E.
  apply in_allNodes_ids. apply (Level_nodes _ _ HL).
  apply in_top_allNodes, in_or_app. right. now left.
Qed.

Lemma X10_indentNode_parentId_witness :
  findNodeById (indentNode "B" forestAXB) "B"
  = Some (with_parentId (bullet "B" "bar" []) (Some "A")) /\
  findParentId (indentNode "B" forestAXB) "B" None = Some "A".
Proof.
  assert (Hu : uniqueIds forestAXB) by distinct_ids.
  assert (Hp : properIds forestAXB)
    by (unfold properIds; simpl; intuition discriminate).
  apply (X10_indentNode_parentId_agrees forestAXB []
           (bullet "A" "foo" [bullet "X" "" []]) (bullet "B" "bar" []) []
           Hu Hp).
  now left.
Defined.

(** X11 — After [outdentNode] has moved a node out of its parent (unique,
    non-empty ids), looking the node up gives it with the [parentId] that
    [findParentId] computes from the shape of the new forest: the id of
    the node it now sits under, or none at the root. *)
Theorem X11_outdentNode_parentId_agrees :
  forall (l before : list NoteNode) (p : NoteNode)
         (after cbefore : list NoteNode) (t : NoteNode)
         (cafter : list NoteNode),
    uniqueIds l -> properIds l ->
    Level l (before ++ p :: after) ->
    children p = cbefore ++ t :: cafter ->
    exists gp,
      findNodeById (outdentNode (id t) l) (id t)
      = Some (with_parentId t gp) /\
      findParentId (outdentNode (id t) l) (id t) None = gp.
Proof.
  intros l before p after cb t ca Hu Hp HL Ech.
  pose proof (outdentNode_ids (id t) l Hu Hp) as HP.
  assert (Hu' : uniqueIds (outdentNode (id t) l)).
  { unfold uniqueIds. eapply Permutation_NoDup; [symmetry; exact HP|].
    exact Hu. }
  assert (Hp' : properIds (outdentNode (id t) l)).
  { intros H. apply Hp. eapply Permutation_in; eauto. }
  destruct (InForest_target_parent _ _ _ _
              (outdentNode_at (id t) l before p after cb t ca
                 Hu Hp HL Ech eq_refl))
    as (gp & s & s' & [_ ->] & Hloc).
  exists gp.
  assert (Hin : In (with_parentId t gp)
                   (before ++ with_children p (cb ++ ca)
                    :: with_parentId t gp :: after)).
  { apply in_or_app. right. right. now left. }
  destruct Hloc as [[-> E]|(q & Hq & -> & E)].
  - rewrite E in Hin. split.
    + apply (findNodeById_unique _ (with_parentId t None) Hu').
      now apply in_top_allNodes.
    + exact (proj1 (findParentId_spec _ None Hu')
               (with_parentId t None) Hin).
  - rewrite E in Hin.
    destruct (moved_lookup _ q (with_parentId t (Some (id q))) Hu' Hq Hin)
      as [H1 H2].
    split; [exact H1|].
    change (id (with_parentId t (Some (id q)))) with (id t) in H2.
    rewrite H2. apply truthyId_proper. intros E0. apply Hp'.
    rewrite <- E0. now apply in_allNodes_ids.
Qed.

Lemma X11_outdentNode_parentId_witness :
  exists gp,
    findNodeById (outdentNode "X" forestAXB) "X"
    = Some (with_parentId (bullet "X" "" []) gp) /\
    findParentId (outdentNode "X" forestAXB) "X" None = gp.
Proof.
  assert (Hu : uniqueIds forestAXB) by distinct_ids.
  assert (Hp : properIds forestAXB)
    by (unfold properIds; simpl; intuition discriminate).
  apply (X11_outdentNode_parentId_agrees forestAXB []
           (bullet "A" "foo" [bullet "X" "" []]) [bullet "B" "bar" []]
           [] (bullet "X" "" []) [] Hu Hp).
  - now left.
  - reflexivity.
Defined.

(** ** [addChildNode] *)

(** X12 — [addChildNode] under a node of a forest with unique, non-empty
    ids, with a fresh id: the new empty node becomes the last child of
    that node and nothing else changes; ids stay unique; the new node is
    found by its id, and [findParentId] gives for it the [parentId] it
    was created with. *)
Theorem X12_addChildNode_appends_last_child :
  forall (uuid : string) (now : Z) (l : list NoteNode) (p : NoteNode),
    uniqueIds l -> properIds l -> In p (allNodes l) ->
    ~ In uuid (allIds l) ->
    let child := mkNode uuid [] [] (Some (id p)) None None None None
                        now now in
    let l' := addChildNode uuid now (id p) l in
    InForest
      (fun _ s s' =>
         exists before after,
           s = before ++ p :: after /\
           s' = before ++ with_children p (children p ++ [child]) :: after)
      None l l' /\
    Permutation (allIds l') (uuid :: allIds l) /\
    uniqueIds l' /\
    findNodeById l' uuid = Some child /\
    findParentId l' uuid None = parentId child.
Proof.
  intros uuid now l p Hu Hp Hn Hfresh child l'.
  assert (HF : InForest
      (fun _ s s' =>
         exists before after,
           s = before ++ p :: after /\
           s' = before ++ with_children p (children p ++ [child]) :: after)
      None l l').
  { exact (applyAt_node (id p)
             (fun n => with_children n (children n ++ [child]))
             l p None Hu Hn eq_refl). }
  assert (HP : Permutation (allIds l') (uuid :: allIds l)).
  { refine (InForest_ids _ [uuid] None l l' _ HF).
    intros q s s' (b & c & -> & ->).
    rewrite !allIds_app, allIds_with_children, allIds_cons, allIds_app.
    cbn [app]. symmetry.
    replace (allIds b ++ id p :: (allIds (children p) ++ allIds [child])
             ++ allIds c)
      with ((allIds b ++ id p :: allIds (children p)) ++ uuid :: allIds c)
      by (rewrite <- !app_assoc; reflexivity).
    apply Permutation_cons_app. rewrite <- app_assoc. reflexivity. }
  assert (Hu' : uniqueIds l').
  { unfold uniqueIds. eapply Permutation_NoDup; [symmetry; exact HP|].
    constructor; assumption. }
  assert (Hp' : In (with_children p (children p ++ [child])) (allNodes l')).
  { refine (InForest_target_node _ _ None l l' _ HF).
    intros q s s' (b & c & _ & ->). apply in_or_app. right. now left. }
  assert (Hc : In child (children (with_children p (children p ++ [child]))))
    by (apply in_or_app; right; now left).
  destruct (moved_lookup _ _ child Hu' Hp' Hc) as [H1 H2].
  repeat split; [exact HF|exact HP|exact Hu'|exact H1|].
  change (id child) with uuid in H2. rewrite H2.
  apply truthyId_proper. intros E. apply Hp.
  change (id (with_children p (children p ++ [child]))) with (id p) in E.
  rewrite <- E. now apply in_allNodes_ids.
Qed.

Lemma X12_addChildNode_witness :
  findNodeById (addChildNode "N" 7 "A" forestAXB) "N"
  = Some (mkNode "N" [] [] (Some "A") None None None None 7 7) /\
  findParentId (addChildNode "N" 7 "A" forestAXB) "N" None = Some "A".
Proof.
  assert (Hu : uniqueIds forestAXB) by distinct_ids.
  assert (Hp : properIds forestAXB)
    by (unfold properIds; simpl; intuition discriminate).
  assert (Hn : In (bullet "A" "foo" [bullet "X" "" []])
                  (allNodes forestAXB)) by (simpl; auto).
  assert (Hf : ~ In "N" (allIds forestAXB))
    by (simpl; intuition discriminate).
  destruct (X12_addChildNode_appends_last_child "N" 7 forestAXB _
              Hu Hp Hn Hf) as (_ & _ & _ & H1 & H2).
  split; [exact H1|exact H2].
Defined.

(** X13 — [addChildNode] with a parent id that no node has leaves the
    forest as it is: the new node is dropped. *)
Theorem X13_addChildNode_unknown_parent :
  forall (uuid : string) (now : Z) (parentId : string) (l : list NoteNode),
    ~ In parentId (allIds l) -> addChildNode uuid now parentId l = l.
Proof. intros uuid now pid l H. now apply applyAt_absent. Qed.

Lemma X13_addChildNode_witness :
  addChildNode "N" 7 "Z" forestAXB = forestAXB.
Proof.
  apply X13_addChildNode_unknown_parent. simpl. intuition discriminate.
Defined.

(** ** Collapsing and the visible outline *)

Lemma visIds_cons n l :
  visIds (n :: l) =
  id n :: (if flag (collapsed n) then [] else visIds (children n))
       ++ visIds l.
Proof.
  unfold visIds. rewrite flattenVisibleNodes_cons. cbn [map].
  rewrite map_app. now destruct (flag (collapsed n)).
Qed.

Lemma visIds_incl l i : In i (visIds l) -> In i (allIds l).
Proof.
  unfold visIds. rewrite in_map_iff. intros (n & <- & Hn).
  apply in_allNodes_ids, visible_in_forest, Hn.
Qed.

Lemma notBelow_true n i :
  notBelow n i = true <-> ~ In i (allIds (children n)).
Proof.
  unfold notBelow. rewrite negb_true_iff. split.
  - intros E Hin. assert (H : existsb (String.eqb i) (allIds (children n))
                              = true).
    { apply existsb_exists. exists i. split; [exact Hin|].
      apply String.eqb_refl. }
    congruence.
  - intros Hn. destruct (existsb _ _) eqn:E; [|reflexivity].
    apply existsb_exists in E. destruct E as (x & Hx & E).
    apply String.eqb_eq in E. subst x. contradiction.
Qed.

Lemma filter_keep {A} (p : A -> bool) l :
  (forall x, In x l -> p x = true) -> filter p l = l.
Proof.
  induction l as [|x l IH]; intros H; [reflexivity|]. simpl.
  rewrite (H x (or_introl eq_refl)), IH; [reflexivity|].
  intros y Hy. apply H. now right.
Qed.

Lemma filter_drop {A} (p : A -> bool) l :
  (forall x, In x l -> p x = false) -> filter p l = [].
Proof.
  induction l as [|x l IH]; intros H; [reflexivity|]. simpl.
  rewrite (H x (or_introl eq_refl)). apply IH.
  intros y Hy. apply H. now right.
Qed.

Lemma collapse_visIds now l n :
  uniqueIds l -> In n (allNodes l) ->
  visIds (setNodeCollapsed now (id n) true l)
  = filter (notBelow n) (visIds l).
Proof.
  unfold setNodeCollapsed.
  induction l as [|m rest IHc IHl] using forest_ind; [intros _ []|].
  intros Hu Hn.
  destruct (uniqueIds_cons _ _ Hu) as (Hmc & Hml & Huc & Hul & Hdisj).
  rewrite applyAt_cons, (visIds_cons m rest).
  cbn [filter]. rewrite filter_app.
  rewrite allNodes_cons in Hn. destruct Hn as [<-|Hn].
  - rewrite (proj2 (hasId_true (id m) m) eq_refl), visIds_cons.
    cbn [with_collapsed id collapsed flag app].
    rewrite (applyAt_absent _ _ _ Hml).
    rewrite (proj2 (notBelow_true m (id m)) Hmc). f_equal.
    rewrite filter_drop, filter_keep; [reflexivity| |].
    + intros x Hx. apply notBelow_true. intros Hc.
      exact (Hdisj x Hc (visIds_incl _ _ Hx)).
    + intros x Hx. apply not_true_is_false. intros E.
      apply notBelow_true in E. apply E.
      destruct (flag (collapsed m)); [destruct Hx|].
      now apply visIds_incl.
  - apply in_app_or in Hn. destruct Hn as [Hn|Hn].
    + assert (Hin : In (id n) (allIds (children m)))
        by now apply in_allNodes_ids.
      assert (Hne : hasId (id n) m = false).
      { apply hasId_false. intros E. apply Hmc. now rewrite E. }
      assert (Hsub : forall x, In x (allIds (children n)) ->
                               In x (allIds (children m)))
        by (apply allIds_children_of; exact Hn).
      rewrite Hne, visIds_cons.
      cbn [with_children id collapsed children].
      rewrite (applyAt_absent _ _ rest (Hdisj _ Hin)).
      assert (Em : notBelow n (id m) = true).
      { apply notBelow_true. intros Hc. apply Hmc. now apply Hsub. }
      rewrite Em. f_equal. f_equal.
      * destruct (flag (collapsed m)); [reflexivity|].
        now apply IHc.
      * symmetry. apply filter_keep. intros x Hx. apply notBelow_true.
        intros Hc. exact (Hdisj x (Hsub x Hc) (visIds_incl _ _ Hx)).
    + assert (Hin : In (id n) (allIds rest)) by now apply in_allNodes_ids.
      assert (Hne : hasId (id n) m = false).
      { apply hasId_false. intros E. apply Hml. now rewrite E. }
      assert (Hsub : forall x, In x (allIds (children n)) ->
                               In x (allIds rest))
        by (apply allIds_children_of; exact Hn).
      assert (Habs : ~ In (id n) (allIds (children m)))
        by (intros Hc; exact (Hdisj _ Hc Hin)).
      rewrite Hne, visIds_cons.
      cbn [with_children id collapsed children].
      rewrite (applyAt_absent _ _ _ Habs).
      assert (Em : notBelow n (id m) = true).
      { apply notBelow_true. intros Hc. apply Hml. now apply Hsub. }
      rewrite Em. f_equal. f_equal.
      * symmetry. apply filter_keep. intros x Hx. apply notBelow_true.
        intros Hc. apply (Hdisj x); [|now apply Hsub].
        destruct (flag (collapsed m)); [destruct Hx|].
        now apply visIds_incl.
      * now apply IHl.
Qed.

(** X14 — Collapsing a node of a forest with unique ids takes from the
    screen exactly the ids below that node and keeps the order of the
    rest: a visible id stays visible unless it is the id of a descendant
    of the node, and nothing becomes visible. *)
Theorem X14_collapse_hides_exactly_the_descendants :
  forall (now : Z) (l : list NoteNode) (n : NoteNode),
    uniqueIds l -> In n (allNodes l) ->
    map id (flattenVisibleNodes (setNodeCollapsed now (id n) true l))
    = filter (notBelow n) (map id (flattenVisibleNodes l)) /\
    (forall i,
       In i (map id (flattenVisibleNodes
                       (setNodeCollapsed now (id n) true l))) <->
       In i (map id (flattenVisibleNodes l)) /\
       ~ In i (allIds (children n))).
Proof.
  intros now l n Hu Hn.
  pose proof (collapse_visIds now l n Hu Hn) as E. unfold visIds in E.
  split; [exact E|]. intros i. rewrite E, filter_In.
  now rewrite notBelow_true.
Qed.

Lemma X14_collapse_witness :
  map id (flattenVisibleNodes (setNodeCollapsed 5 "A" true forestAXB))
  = ["A"; "B"].
Proof.
  assert (Hu : uniqueIds forestAXB) by distinct_ids.
  assert (Hn : In (bullet "A" "foo" [bullet "X" "" []])
                  (allNodes forestAXB)) by (simpl; auto).
  destruct (X14_collapse_hides_exactly_the_descendants 5 forestAXB _ Hu Hn)
    as [E _].
  exact E.
Defined.

Lemma expand_visIds now a l :
  forall i, In i (visIds l) ->
            In i (visIds (setNodeCollapsed now a false l)).
Proof.
  unfold setNodeCollapsed.
  induction l as [|m rest IHc IHl] using forest_ind; [intros i []|].
  intros i. rewrite applyAt_cons, (visIds_cons m rest).
  destruct (hasId a m).
  - rewrite visIds_cons. cbn [with_collapsed id collapsed flag children].
    simpl. rewrite !in_app_iff. intros [H|[H|H]]; auto.
    destruct (flag (collapsed m)); [destruct H|auto].
  - rewrite visIds_cons. cbn [with_children id collapsed children].
    simpl. rewrite !in_app_iff. intros [H|[H|H]]; auto.
    destruct (flag (collapsed m)); [destruct H|auto].
Qed.

(** X15 — [toggleCollapse] never leaves the active bullet hidden: in a
    forest with unique, non-empty ids where the active bullet is on
    screen, after the toggle the active bullet it leaves — the toggled
    node when the old one disappears below it, else the old one — is on
    screen in the new forest. *)
Theorem X15_toggleCollapse_keeps_active_bullet_visible :
  forall (now : Z) (nodeId act : string) (l : list NoteNode),
    uniqueIds l -> properIds l ->
    In nodeId (map id (flattenVisibleNodes l)) ->
    In act (map id (flattenVisibleNodes l)) ->
    exists act',
      snd (toggleCollapse now nodeId (Some act) l) = Some act' /\
      In act' (map id (flattenVisibleNodes
                         (fst (toggleCollapse now nodeId (Some act) l)))).
Proof.
  intros now nodeId act l Hu Hp Hnode Hact.
  fold (visIds l) in Hnode, Hact.
  assert (Hne : act <> "").
  { intros ->. apply Hp. now apply visIds_incl. }
  destruct (id_node _ _ (visIds_incl _ _ Hnode)) as (n & Hn & Hid).
  subst nodeId.
  unfold toggleCollapse. cbn [fst snd].
  rewrite (findNodeById_unique l n Hu Hn), (truthyId_proper act Hne).
  fold (setNodeCollapsed now (id n) (negb (flag (collapsed n))) l).
  fold (visIds (setNodeCollapsed now (id n) (negb (flag (collapsed n))) l)).
  destruct (flag (collapsed n)); cbn [negb andb].
  - exists act. split; [reflexivity|]. now apply expand_visIds.
  - rewrite (collapse_visIds now l n Hu Hn).
    destruct (isDescendant l (id n) act) eqn:E.
    + exists (id n). split; [reflexivity|]. apply filter_In.
      split; [exact Hnode|]. apply notBelow_true.
      now apply node_not_below_itself with (l := l).
    + exists act. split; [reflexivity|]. apply filter_In.
      split; [exact Hact|]. apply notBelow_true. intros Hin.
      rewrite (isDescendant_complete l (id n) act n Hu Hn eq_refl Hin) in E.
      discriminate.
Qed.

Lemma X15_toggleCollapse_witness :
  exists act',
    snd (toggleCollapse 5 "A" (Some "X") forestAXB) = Some act' /\
    In act' (map id (flattenVisibleNodes
                       (fst (toggleCollapse 5 "A" (Some "X") forestAXB)))).
Proof.
  assert (Hu : uniqueIds forestAXB) by distinct_ids.
  assert (Hp : properIds forestAXB)
    by (unfold properIds; simpl; intuition discriminate).
  apply (X15_toggleCollapse_keeps_active_bullet_visible 5 "A" "X"
           forestAXB Hu Hp); simpl; auto.
Defined.

(** ** Check marks and style marks *)

(** X16 — [toggleChecked] flips the check mark of the node found by the
    id, twice restores it, and keeps the [checked] field of every node
    with another id; [toggleChecklist] flips whether the node is a
    checklist item and keeps its check mark. *)
Theorem X16_toggleChecked_flips_one_mark :
  forall (now now' : Z) (a : string) (l : list NoteNode),
    option_map (fun n => flag (checked n))
      (findNodeById (toggleChecked now a l) a)
    = option_map (fun n => negb (flag (checked n))) (findNodeById l a) /\
    option_map (fun n => flag (checked n))
      (findNodeById (toggleChecked now' a (toggleChecked now a l)) a)
    = option_map (fun n => flag (checked n)) (findNodeById l a) /\
    (forall b, b <> a ->
       option_map checked (findNodeById (toggleChecked now a l) b)
       = option_map checked (findNodeById l b)) /\
    option_map (fun n => flag (isChecklist n))
      (findNodeById (toggleChecklist now a l) a)
    = option_map (fun n => negb (flag (isChecklist n)))
        (findNodeById l a) /\
    option_map checked (findNodeById (toggleChecklist now a l) a)
    = option_map checked (findNodeById l a).
Proof.
  intros now now' a l. unfold toggleChecklist, setNodeIsChecklist.
  unfold toggleChecked. split; [|split; [|split; [|split]]].
  - rewrite findNodeById_applyAt by reflexivity.
    destruct (findNodeById l a) as [n|]; [|reflexivity].
    simpl. now destruct (checked n) as [[|]|].
  - rewrite !findNodeById_applyAt by reflexivity.
    destruct (findNodeById l a) as [n|]; [|reflexivity].
    simpl. now destruct (checked n) as [[|]|].
  - intros b Hb. now apply applyAt_frame.
  - rewrite findNodeById_applyAt by reflexivity.
    destruct (findNodeById l a) as [n|]; [|reflexivity].
    simpl. now destruct (isChecklist n) as [[|]|].
  - rewrite findNodeById_applyAt by reflexivity.
    now destruct (findNodeById l a).
Qed.

(** X17 — [toggleBold], [toggleItalic] and [toggleUnderline] each flip
    one mark of the node found by the id and keep the two other marks and
    the font size; [setFontSize] keeps the three marks. *)
Theorem X17_style_toggles_flip_one_mark :
  forall (now : Z) (a : string) (l : list NoteNode),
    (option_map marks (findNodeById (toggleBold now a l) a)
     = option_map (fun n => let '(b, i, u) := marks n in (negb b, i, u))
         (findNodeById l a) /\
     currentSize (toggleBold now a l) a = currentSize l a) /\
    (option_map marks (findNodeById (toggleItalic now a l) a)
     = option_map (fun n => let '(b, i, u) := marks n in (b, negb i, u))
         (findNodeById l a) /\
     currentSize (toggleItalic now a l) a = currentSize l a) /\
    (option_map marks (findNodeById (toggleUnderline now a l) a)
     = option_map (fun n => let '(b, i, u) := marks n in (b, i, negb u))
         (findNodeById l a) /\
     currentSize (toggleUnderline now a l) a = currentSize l a) /\
    (forall sz,
       option_map marks (findNodeById (setFontSize now a sz l) a)
       = option_map marks (findNodeById l a)).
Proof.
  intros now a l.
  unfold toggleBold, toggleItalic, toggleUnderline, setFontSize,
    updateNodeStyle, currentSize.
  repeat split; try intros sz;
    rewrite findNodeById_applyAt by reflexivity;
    (destruct (findNodeById l a) as [n|]; [|reflexivity]);
    unfold marks, styleOf; simpl;
    destruct (style n) as [[[[|]|] [[|]|] [[|]|] z]|]; reflexivity.
Qed.

(** ** Tags *)

Lemma jsstring_eqb_eq x y : jsstring_eqb x y = true <-> x = y.
Proof.
  unfold jsstring_eqb. destruct (list_eq_dec N.eq_dec x y);
    split; congruence.
Qed.

Lemma existsb_tag val tags :
  existsb (jsstring_eqb val) tags = true <-> In val tags.
Proof.
  rewrite existsb_exists. split.
  - intros (x & Hx & E). apply jsstring_eqb_eq in E. now subst.
  - intros H. exists val. split; [exact H|]. now apply jsstring_eqb_eq.
Qed.

Lemma trimStart_head s :
  startsNonSpace (trimStart s) = true \/ trimStart s = [].
Proof.
  induction s as [|c s IH]; [now right|]. simpl.
  destruct (isSpace c) eqn:E; [exact IH|]. left. simpl. now rewrite E.
Qed.

Lemma trim_end s : endsNonSpace (trim s) = true \/ trim s = [].
Proof.
  unfold trim, endsNonSpace. rewrite rev_involutive.
  destruct (trimStart_head (rev (trimStart s))) as [H| ->]; [|now right].
  left. exact H.
Qed.

Lemma stripHashes_head s : startsWithHash (stripHashes s) = false.
Proof.
  induction s as [|c s IH]; [reflexivity|]. simpl.
  destruct (N.eqb c HASH) eqn:E; [exact IH|]. simpl. exact E.
Qed.

Lemma stripHashes_suffix s : exists p, s = p ++ stripHashes s.
Proof.
  induction s as [|c s [p IH]]; [now exists []|]. simpl.
  destruct (N.eqb c HASH).
  - exists (c :: p). simpl. now f_equal.
  - now exists [].
Qed.

Lemma tagOf_end s : tagOf s <> [] -> endsNonSpace (tagOf s) = true.
Proof.
  unfold tagOf. intros Hne.
  destruct (stripHashes_suffix (trim s)) as [p E].
  destruct (trim_end s) as [H|H]; [|rewrite H in Hne; now elim Hne].
  unfold endsNonSpace in *. rewrite E, rev_app_distr in H.
  destruct (rev (stripHashes (trim s))) as [|c r] eqn:Er; [|exact H].
  apply (f_equal (@rev _)) in Er. rewrite rev_involutive in Er.
  now elim Hne.
Qed.

Lemma addTag_cases newTag tags :
  addTag newTag tags =
  if jsstring_eqb (tagOf newTag) [] then (tags, newTag)
  else if existsb (jsstring_eqb (tagOf newTag)) tags then (tags, [])
  else (tags ++ [tagOf newTag], []).
Proof.
  unfold addTag, tagOf. now destruct (stripHashes (trim newTag)).
Qed.

(** X18 — Enter in the tag input: the list of tags only ever grows at
    its end and by at most the cleaned text; a tag that gets in is not
    empty, does not start with [#] and does not end with white space;
    a list without duplicates stays without duplicates; entering the
    same text again changes nothing; and the input is cleared unless the
    cleaned text is empty. *)
Theorem X18_addTag_keeps_tags_clean :
  forall (newTag : jsstring) (tags : list jsstring),
    (exists added, fst (addTag newTag tags) = tags ++ added /\
       (added = [] \/
        added = [tagOf newTag] /\ tagOf newTag <> [] /\
        ~ In (tagOf newTag) tags /\
        startsWithHash (tagOf newTag) = false /\
        endsNonSpace (tagOf newTag) = true)) /\
    (NoDup tags -> NoDup (fst (addTag newTag tags))) /\
    fst (addTag newTag (fst (addTag newTag tags)))
    = fst (addTag newTag tags) /\
    snd (addTag newTag tags) = (if jsstring_eqb (tagOf newTag) []
                                then newTag else []).
Proof.
  intros newTag tags. rewrite !addTag_cases.
  destruct (jsstring_eqb (tagOf newTag) []) eqn:E0.
  { cbn [fst snd]. rewrite ?E0. repeat split; auto.
    exists []. rewrite app_nil_r. auto. }
  assert (Hne : tagOf newTag <> []).
  { intros H. apply jsstring_eqb_eq in H. congruence. }
  destruct (existsb (jsstring_eqb (tagOf newTag)) tags) eqn:E1.
  { cbn [fst snd]. rewrite ?E0, ?E1. repeat split; auto.
    exists []. rewrite app_nil_r. auto. }
  assert (Hnew : ~ In (tagOf newTag) tags).
  { intros H. apply existsb_tag in H. congruence. }
  cbn [fst snd]. repeat split.
  - exists [tagOf newTag]. split; [reflexivity|]. right.
    repeat split; auto using tagOf_end. apply stripHashes_head.
  - intros Hnd. apply NoDup_app; auto.
    + constructor; [intros []|constructor].
    + intros x Hx [<-|[]]. contradiction.
  - assert (E2 : existsb (jsstring_eqb (tagOf newTag))
                   (tags ++ [tagOf newTag]) = true).
    { apply existsb_tag, in_or_app. right. now left. }
    now rewrite ?E0, ?E2.
Qed.

Lemma filter_absent_tag t tags :
  ~ In t tags -> filter (fun x => negb (jsstring_eqb x t)) tags = tags.
Proof.
  intros H. apply filter_keep. intros x Hx. apply negb_true_iff.
  destruct (jsstring_eqb x t) eqn:E; [|reflexivity].
  apply jsstring_eqb_eq in E. now subst.
Qed.

(** X19 — Removing a tag takes out every occurrence of it and keeps the
    other tags in order; a tag just added by Enter, which was not there
    before, is taken out again by its [×], giving the old list. *)
Theorem X19_removeTag_undoes_addTag :
  forall (newTag t : jsstring) (tags : list jsstring),
    (forall x, In x (removeTag t tags) <-> In x tags /\ x <> t) /\
    removeTag t (removeTag t tags) = removeTag t tags /\
    (~ In (tagOf newTag) tags ->
     removeTag (tagOf newTag) (fst (addTag newTag tags)) = tags).
Proof.
  intros newTag t tags. unfold removeTag. split; [|split].
  - intros x. rewrite filter_In, negb_true_iff. split.
    + intros [Hx E]. split; [exact Hx|]. intros ->.
      now rewrite (proj2 (jsstring_eqb_eq t t) eq_refl) in E.
    + intros [Hx Hne]. split; [exact Hx|].
      destruct (jsstring_eqb x t) eqn:E; [|reflexivity].
      apply jsstring_eqb_eq in E. contradiction.
  - apply filter_absent_tag. intros H. apply filter_In in H.
    destruct H as [_ H].
    now rewrite (proj2 (jsstring_eqb_eq t t) eq_refl) in H.
  - intros Hnew. rewrite addTag_cases.
    destruct (jsstring_eqb (tagOf newTag) []);
      [now apply filter_absent_tag|].
    destruct (existsb (jsstring_eqb (tagOf newTag)) tags);
      [now apply filter_absent_tag|].
    cbn [fst]. rewrite filter_app, filter_absent_tag by exact Hnew.
    simpl. rewrite (proj2 (jsstring_eqb_eq _ _) eq_refl). simpl.
    apply app_nil_r.
Qed.

(** ** Caret positions *)

Lemma textLength_cons x xs :
  textLength (x :: xs) = (Z.of_nat (List.length x) + textLength xs)%Z.
Proof. unfold textLength. simpl. rewrite length_app. lia. Qed.

Lemma textLength_nonneg xs : (0 <= textLength xs)%Z.
Proof. unfold textLength. lia. Qed.

Lemma textLength_firstn_S texts :
  forall j, j < List.length texts ->
    textLength (firstn (S j) texts)
    = (textLength (firstn j texts)
       + Z.of_nat (List.length (nth j texts [])))%Z.
Proof.
  induction texts as [|x xs IH]; intros j Hj; [simpl in Hj; lia|].
  destruct j as [|j].
  - simpl. rewrite textLength_cons. unfold textLength. simpl. lia.
  - change (firstn (S (S j)) (x :: xs)) with (x :: firstn (S j) xs).
    change (firstn (S j) (x :: xs)) with (x :: firstn j xs).
    rewrite !textLength_cons, IH by (simpl in Hj; lia).
    simpl. lia.
Qed.

Lemma offsetToDomPos_walk_found texts :
  forall c idx k,
    texts <> [] -> (c <= idx + textLength texts)%Z ->
    exists j,
      offsetToDomPos_walk texts c idx k
      = Some (k + j,
              Z.max 0 (c - (idx + textLength (firstn j texts)))) /\
      j < List.length texts /\
      (c <= idx + textLength (firstn (S j) texts))%Z /\
      (0 < j -> (idx + textLength (firstn j texts) < c)%Z).
Proof.
  induction texts as [|x xs IH]; intros c idx k Hne Hc; [now elim Hne|].
  cbn [offsetToDomPos_walk].
  destruct (Z.leb_spec c (idx + Z.of_nat (List.length x))) as [Hle|Hgt].
  - exists 0. rewrite Nat.add_0_r. repeat split.
    + unfold textLength. simpl. now rewrite Z.add_0_r.
    + simpl. lia.
    + change (firstn 1 (x :: xs)) with (x :: firstn 0 xs).
      rewrite textLength_cons. unfold textLength. simpl. lia.
    + lia.
  - rewrite textLength_cons in Hc.
    assert (Hxs : xs <> []).
    { intros ->. unfold textLength in Hc. simpl in Hc. lia. }
    destruct (IH c (idx + Z.of_nat (List.length x))%Z (S k) Hxs)
      as (j & E & Hj & Hup & Hlow); [lia|].
    exists (S j). repeat split.
    + rewrite E. change (firstn (S j) (x :: xs)) with (x :: firstn j xs).
      rewrite textLength_cons. do 2 f_equal; lia.
    + simpl. lia.
    + change (firstn (S (S j)) (x :: xs)) with (x :: firstn (S j) xs).
      rewrite textLength_cons. lia.
    + intros _. change (firstn (S j) (x :: xs)) with (x :: firstn j xs).
      rewrite textLength_cons. destruct j as [|j].
      * unfold textLength. simpl. lia.
      * assert (H : 0 < S j) by lia. specialize (Hlow H). lia.
Qed.

Lemma offsetToDomPos_walk_none texts :
  forall c idx k,
    (idx + textLength texts < c)%Z ->
    offsetToDomPos_walk texts c idx k = None.
Proof.
  induction texts as [|x xs IH]; intros c idx k Hc; [reflexivity|].
  cbn [offsetToDomPos_walk]. rewrite textLength_cons in Hc.
  pose proof (textLength_nonneg xs).
  destruct (Z.leb_spec c (idx + Z.of_nat (List.length x))); [lia|].
  apply IH. lia.
Qed.

(** X20 — [offsetToDomPos] on an element with at least one text node: a
    character index within the text is mapped to the text node that
    holds it and the offset in that node — at the border of two text
    nodes the end of the earlier one — so that the text before the node
    plus the offset is the index; an index past the end is mapped to the
    end of the last text node and a negative one to the start of the
    first. *)
Theorem X20_offsetToDomPos_locates_the_index :
  forall (texts : list jsstring) (c : Z),
    texts <> [] ->
    ((0 <= c <= textLength texts)%Z ->
     exists k off,
       offsetToDomPos texts c = Some (k, off) /\
       k < List.length texts /\
       (0 <= off <= Z.of_nat (List.length (nth k texts [])))%Z /\
       (textLength (firstn k texts) + off = c)%Z /\
       (0 < k -> (0 < off)%Z)) /\
    ((textLength texts < c)%Z ->
     offsetToDomPos texts c
     = Some (List.length texts - 1,
             Z.of_nat (List.length (last texts [])))) /\
    ((c < 0)%Z -> offsetToDomPos texts c = Some (0, 0%Z)).
Proof.
  intros texts c Hne. unfold offsetToDomPos. split; [|split].
  - intros [H0 Hc].
    destruct (offsetToDomPos_walk_found texts c 0 0 Hne)
      as (j & E & Hj & Hup & Hlow); [lia|].
    rewrite E. simpl Nat.add.
    rewrite textLength_firstn_S in Hup by exact Hj.
    pose proof (textLength_nonneg (firstn j texts)) as Hpre.
    assert (Hoff : (0 <= c - (0 + textLength (firstn j texts)))%Z).
    { destruct j as [|j]; [simpl; unfold textLength; simpl; lia|].
      assert (H : 0 < S j) by lia. specialize (Hlow H). lia. }
    exists j, (Z.max 0 (c - (0 + textLength (firstn j texts)))).
    rewrite Z.max_r by exact Hoff.
    repeat split; try lia; intros H; specialize (Hlow H); lia.
  - intros Hc. rewrite offsetToDomPos_walk_none by lia.
    destruct (exists_last Hne) as (before & lastText & ->).
    rewrite rev_app_distr, last_last, length_app. simpl.
    do 2 f_equal; lia.
  - intros Hc. destruct texts as [|x xs]; [now elim Hne|].
    cbn [offsetToDomPos_walk].
    destruct (Z.leb_spec c (0 + Z.of_nat (List.length x))); [|lia].
    do 2 f_equal; lia.
Qed.

Lemma X20_offsetToDomPos_witness :
  exists k off,
    offsetToDomPos [jsstr "ab"; jsstr "cde"] 2 = Some (k, off) /\
    k < 2 /\
    (0 <= off <= Z.of_nat (List.length (nth k [jsstr "ab"; jsstr "cde"]
                                          [])))%Z /\
    (textLength (firstn k [jsstr "ab"; jsstr "cde"]) + off = 2)%Z /\
    (0 < k -> (0 < off)%Z).
Proof.
  assert (Hne : [jsstr "ab"; jsstr "cde"] <> []) by discriminate.
  destruct (X20_offsetToDomPos_locates_the_index
              [jsstr "ab"; jsstr "cde"] 2 Hne) as (H & _ & _).
  apply H. unfold textLength. simpl. lia.
Defined.

(** ** Selecting the word at the caret *)

Lemma wordStart_spec text :
  forall i,
    wordStart text i <= i /\
    (forall j, wordStart text i <= j < i -> isWordCharAt text j = true) /\
    (wordStart text i = 0 \/
     isWordCharAt text (wordStart text i - 1) = false).
Proof.
  induction i as [|b IH].
  - simpl. split; [lia|]. split; [intros; lia|now left].
  - cbn [wordStart]. destruct (isWordCharAt text b) eqn:E.
    + destruct IH as (H1 & H2 & H3). split; [lia|]. split; [|exact H3].
      intros j Hj. destruct (Nat.eq_dec j b) as [->|Hne]; [exact E|].
      apply H2. lia.
    + split; [lia|]. split; [intros; lia|]. right.
      now replace (S b - 1) with b by lia.
Qed.

Lemma isWordCharAt_end text e :
  List.length text <= e -> isWordCharAt text e = false.
Proof.
  intros H. unfold isWordCharAt.
  now rewrite (proj2 (nth_error_None text e) H).
Qed.

Lemma wordEnd_loop_spec text :
  forall fuel e,
    e <= List.length text -> List.length text - e <= fuel ->
    e <= wordEnd_loop fuel text e <= List.length text /\
    (forall j, e <= j < wordEnd_loop fuel text e ->
               isWordCharAt text j = true) /\
    isWordCharAt text (wordEnd_loop fuel text e) = false.
Proof.
  induction fuel as [|fuel IH]; intros e He Hf.
  - simpl. split; [lia|]. split; [intros; lia|].
    apply isWordCharAt_end. lia.
  - cbn [wordEnd_loop].
    destruct (Nat.ltb_spec e (List.length text)) as [Hlt|Hge];
      cbn [andb].
    + destruct (isWordCharAt text e) eqn:E.
      * destruct (IH (S e)) as (H1 & H2 & H3); [lia|lia|].
        split; [lia|]. split; [|exact H3].
        intros j Hj. destruct (Nat.eq_dec j e) as [->|Hne]; [exact E|].
        apply H2. lia.
      * split; [lia|]. split; [intros; lia|exact E].
    + split; [lia|]. split; [intros; lia|].
      now apply isWordCharAt_end.
Qed.

(** X21 — The two loops of [expandSelectionToWord] select the maximal
    run of non-white-space characters around the caret: the bounds
    enclose the caret, every character between them is not white space,
    and the characters just before and just after (if any) are white
    space. *)
Theorem X21_expandSelectionToWord_maximal_run :
  forall (text : jsstring) (caret : nat),
    caret <= List.length text ->
    wordStart text caret <= caret /\
    caret <= wordEnd text caret <= List.length text /\
    (forall j, wordStart text caret <= j < wordEnd text caret ->
               isWordCharAt text j = true) /\
    (wordStart text caret = 0 \/
     isWordCharAt text (wordStart text caret - 1) = false) /\
    isWordCharAt text (wordEnd text caret) = false.
Proof.
  intros text caret Hc.
  destruct (wordStart_spec text caret) as (S1 & S2 & S3).
  destruct (wordEnd_loop_spec text (List.length text) caret Hc)
    as (E1 & E2 & E3); [lia|].
  unfold wordEnd. split; [exact S1|]. split; [exact E1|].
  split; [|split; [exact S3|exact E3]].
  intros j Hj. destruct (Nat.lt_ge_cases j caret); [apply S2|apply E2]; lia.
Qed.

Lemma X21_expandSelectionToWord_witness :
  let text := jsstr "ab cde f" in
  wordStart text 4 <= 4 /\
  4 <= wordEnd text 4 <= List.length text /\
  (forall j, wordStart text 4 <= j < wordEnd text 4 ->
             isWordCharAt text j = true) /\
  (wordStart text 4 = 0 \/
   isWordCharAt text (wordStart text 4 - 1) = false) /\
  isWordCharAt text (wordEnd text 4) = false.
Proof.
  apply (X21_expandSelectionToWord_maximal_run (jsstr "ab cde f") 4).
  simpl. lia.
Defined.

(** ** Arrow keys *)

Lemma visIds_NoDup l : uniqueIds l -> NoDup (visIds l).
Proof.
  induction l as [|m rest IHc IHl] using forest_ind; [constructor|].
  intros Hu.
  destruct (uniqueIds_cons _ _ Hu) as (Hmc & Hml & Huc & Hul & Hdisj).
  rewrite visIds_cons. constructor.
  - rewrite in_app_iff. intros [H|H].
    + destruct (flag (collapsed m)); [destruct H|].
      apply Hmc. now apply visIds_incl.
    + apply Hml. now apply visIds_incl.
  - apply NoDup_app; [destruct (flag (collapsed m)); [constructor|auto]
                     |auto|].
    intros x Hx Hr. apply (Hdisj x); [|now apply visIds_incl].
    destruct (flag (collapsed m)); [destruct Hx|].
    now apply visIds_incl.
Qed.

Lemma findIndex_NoDup (flat X : list NoteNode) n Y :
  NoDup (map id flat) -> flat = X ++ n :: Y ->
  findIndex (hasId (id n)) flat = Some (List.length X).
Proof.
  intros Hnd ->. apply findIndex_split; [|now apply hasId_true].
  intros y Hy. apply hasId_false. intros E.
  rewrite map_app in Hnd. cbn [map] in Hnd.
  apply NoDup_remove_2 in Hnd. apply Hnd, in_or_app. left.
  rewrite <- E. now apply in_map.
Qed.

Lemma nth_error_next {A} (X : list A) n Y i :
  nth_error (X ++ n :: Y) (List.length X + 1) = Some i ->
  exists Y', Y = i :: Y'.
Proof.
  rewrite nth_error_app2 by lia.
  replace (List.length X + 1 - List.length X) with 1 by lia.
  destruct Y as [|y Y']; simpl; [discriminate|].
  intros E. injection E as ->. now exists Y'.
Qed.

Lemma arrowDown_at (flat X : list NoteNode) n m Y :
  NoDup (map id flat) -> flat = X ++ n :: m :: Y ->
  arrowDown true (id n) flat = Some (id m, true).
Proof.
  intros Hnd E. unfold arrowDown.
  rewrite (findIndex_NoDup flat X n (m :: Y) Hnd E). subst flat.
  rewrite length_app. cbn [List.length andb].
  destruct (Nat.ltb_spec (List.length X)
              (List.length X + S (S (List.length Y)) - 1)); [|lia].
  rewrite Nat.add_1_r.
  now rewrite (nth_error_split_next X n m Y).
Qed.

Lemma arrowUp_at (flat X : list NoteNode) n m Y :
  NoDup (map id flat) -> flat = X ++ n :: m :: Y ->
  arrowUp true (id m) flat = Some (id n, true).
Proof.
  intros Hnd E. unfold arrowUp.
  assert (E' : flat = (X ++ [n]) ++ m :: Y)
    by (rewrite <- app_assoc; exact E).
  rewrite (findIndex_NoDup flat (X ++ [n]) m Y Hnd E').
  rewrite length_app, Nat.add_1_r. subst flat.
  now rewrite (nth_error_split X n (m :: Y)).
Qed.

Lemma arrowDown_inv a b caret (flat : list NoteNode) :
  arrowDown true a flat = Some (b, caret) ->
  exists X n m Y,
    flat = X ++ n :: m :: Y /\ id n = a /\ id m = b /\ caret = true.
Proof.
  unfold arrowDown.
  destruct (findIndex (hasId a) flat) as [i|] eqn:E; [|discriminate].
  apply findIndex_Some in E. destruct E as (X & n & Y & -> & <- & Hn & _).
  cbn [andb]. destruct (Nat.ltb _ _); [|discriminate].
  destruct (nth_error _ _) as [m|] eqn:E; [|discriminate].
  apply nth_error_next in E. destruct E as [Y' ->].
  simpl. intros H. injection H as <- <-.
  exists X, n, m, Y'. repeat split. now apply hasId_true.
Qed.

Lemma arrowUp_inv a b caret (flat : list NoteNode) :
  arrowUp true b flat = Some (a, caret) ->
  exists X n m Y,
    flat = X ++ n :: m :: Y /\ id n = a /\ id m = b /\ caret = true.
Proof.
  unfold arrowUp.
  destruct (findIndex (hasId b) flat) as [[|p]|] eqn:E; try discriminate.
  apply findIndex_Some in E.
  destruct E as (X0 & m & Y & -> & Hlen & Hm & _).
  destruct (exists_last (l := X0)) as (X & n & ->);
    [intros ->; discriminate|].
  rewrite length_app, Nat.add_1_r in Hlen. injection Hlen as <-.
  rewrite <- app_assoc. cbn [app]. rewrite nth_error_split.
  simpl. intros H. injection H as <- <-.
  exists X, n, m, Y. repeat split. now apply hasId_true.
Qed.

Lemma current_NoDup focused l :
  uniqueIds l ->
  NoDup (map id (flattenVisibleNodes (getCurrentNodes focused l))).
Proof.
  intros Hu. apply visIds_NoDup.
  exact (uniqueIds_Level _ _ Hu (getCurrentNodes_Level focused l)).
Qed.

(** X22 — ArrowDown at the end of a bullet and ArrowUp at the start of
    a bullet undo each other (unique ids): ArrowDown goes from [a] to
    [b] exactly when ArrowUp goes from [b] to [a], both with the caret
    put at the end. *)
Theorem X22_arrowDown_arrowUp_inverse :
  forall (focused : option string) (l : list NoteNode) (a b : string),
    uniqueIds l ->
    let flat := flattenVisibleNodes (getCurrentNodes focused l) in
    arrowDown true a flat = Some (b, true) <->
    arrowUp true b flat = Some (a, true).
Proof.
  intros focused l a b Hu flat.
  pose proof (current_NoDup focused l Hu) as Hnd. fold flat in Hnd.
  split; intros H.
  - apply arrowDown_inv in H. destruct H as (X & n & m & Y & E & <- & <- & _).
    exact (arrowUp_at flat X n m Y Hnd E).
  - apply arrowUp_inv in H. destruct H as (X & n & m & Y & E & <- & <- & _).
    exact (arrowDown_at flat X n m Y Hnd E).
Qed.

Lemma X22_arrows_witness :
  arrowDown true "A" (flattenVisibleNodes (getCurrentNodes None forestAXB))
  = Some ("X", true) <->
  arrowUp true "X" (flattenVisibleNodes (getCurrentNodes None forestAXB))
  = Some ("A", true).
Proof.
  assert (Hu : uniqueIds forestAXB) by distinct_ids.
  exact (X22_arrowDown_arrowUp_inverse None forestAXB "A" "X" Hu).
Defined.

Lemma visible_next_child s :
  forall X n Y,
    flattenVisibleNodes s = X ++ n :: Y ->
    flag (collapsed n) = false ->
    forall c cs, children n = c :: cs -> exists Y', Y = c :: Y'.
Proof.
  induction s as [|m rest IHc IHl] using forest_ind.
  - intros X n Y E. destruct X; discriminate.
  - intros X n Y E Hcol c cs Hch.
    rewrite flattenVisibleNodes_cons in E. destruct X as [|x X].
    + injection E as -> E. rewrite Hcol, Hch in E.
      rewrite flattenVisibleNodes_cons in E. cbn [app] in E.
      eexists. symmetry. exact E.
    + injection E as _ E. apply app_eq_app in E.
      destruct E as (l0 & [[E1 E2]|[E1 E2]]).
      * destruct l0 as [|n' l0].
        -- cbn [app] in E2. symmetry in E2.
           exact (IHl [] n Y E2 Hcol c cs Hch).
        -- injection E2 as <- ->.
           destruct (flag (collapsed m));
             [now apply app_cons_not_nil in E1|].
           destruct (IHc X n l0 E1 Hcol c cs Hch) as [Y' ->].
           now exists (Y' ++ flattenVisibleNodes rest).
      * exact (IHl l0 n Y E2 Hcol c cs Hch).
Qed.

(** X23 — ArrowRight at the end of a visible bullet goes to the same
    bullet as ArrowDown, the next one on screen (unique ids): the first
    child of an expanded node is the node that follows it in the
    flattened list, and a collapsed or childless node is followed by the
    next visible node; only the caret differs (start instead of end). *)
Theorem X23_arrowRight_goes_where_arrowDown_goes :
  forall (focused : option string) (l : list NoteNode) (a : string),
    uniqueIds l ->
    let flat := flattenVisibleNodes (getCurrentNodes focused l) in
    In a (map id flat) ->
    arrowRight true a l flat
    = option_map (fun target => (fst target, false))
        (arrowDown true a flat).
Proof.
  intros focused l a Hu flat Ha.
  pose proof (current_NoDup focused l Hu) as Hnd. fold flat in Hnd.
  apply in_map_iff in Ha. destruct Ha as (n & <- & Hn).
  destruct (in_split _ _ Hn) as (X & Y & E).
  assert (Hall : In n (allNodes l)).
  { apply (Level_nodes _ _ (getCurrentNodes_Level focused l)).
    apply visible_in_forest. exact Hn. }
  unfold arrowRight, arrowDown.
  rewrite (findNodeById_unique l n Hu Hall).
  rewrite (findIndex_NoDup flat X n Y Hnd E). cbn [andb].
  assert (Hnext :
    (if Nat.ltb (List.length X) (List.length flat - 1)
     then option_map (fun n0 => (id n0, false))
            (nth_error flat (List.length X + 1))
     else None)
    = option_map (fun target : string * bool => (fst target, false))
        (if Nat.ltb (List.length X) (List.length flat - 1)
         then option_map (fun n0 => (id n0, true))
                (nth_error flat (List.length X + 1))
         else None)).
  { destruct (Nat.ltb _ _); [|reflexivity].
    now destruct (nth_error flat (List.length X + 1)). }
  destruct (children n) as [|c cs] eqn:Hch; [exact Hnext|].
  destruct (flag (collapsed n)) eqn:Hcol; cbn [negb]; [exact Hnext|].
  destruct (visible_next_child _ X n Y E Hcol c cs Hch) as [Y' ->].
  rewrite E, length_app. cbn [List.length].
  destruct (Nat.ltb_spec (List.length X)
              (List.length X + S (S (List.length Y')) - 1)); [|lia].
  rewrite Nat.add_1_r, (nth_error_split_next X n c Y'). reflexivity.
Qed.

Lemma X23_arrowRight_witness :
  arrowRight true "A" forestAXB
    (flattenVisibleNodes (getCurrentNodes None forestAXB))
  = Some ("X", false).
Proof.
  assert (Hu : uniqueIds forestAXB) by distinct_ids.
  assert (Ha : In "A" (map id (flattenVisibleNodes
                                 (getCurrentNodes None forestAXB))))
    by (simpl; auto).
  exact (X23_arrowRight_goes_where_arrowDown_goes None forestAXB "A"
           Hu Ha).
Defined.

(** ** Saving: blur, and Tab while a save is pending *)

Lemma typing_nodes a edits :
  forall e, nodes (typing a edits e) = typed a edits (nodes e).
Proof.
  induction edits as [|[t html] later IH]; intros e; [reflexivity|].
  cbn [typing typed]. rewrite IH. f_equal.
  unfold handleContentChange, scheduleSave, setNodes. cbn [nodes].
  f_equal. unfold advanceTo, fireTimer.
  destruct (saveTimer e) as [[due data]|]; [|reflexivity].
  now destruct (due <=? t)%Z.
Qed.

(** After an edit the pending save holds the forest of the editor. *)
Lemma typing_timer a edits :
  forall e, edits <> [] ->
    exists due,
      saveTimer (typing a edits e)
      = Some (due, nodes (typing a edits e)).
Proof.
  induction edits as [|[t html] later IH]; intros e Hne; [now elim Hne|].
  cbn [typing]. destruct later as [|x later].
  - simpl. eexists. reflexivity.
  - apply IH. discriminate.
Qed.

(** X24 — Blur after typing flushes the pending save: the forest of the
    editor is saved at once, exactly what the timer would have saved
    400 ms after the last edit; no timer stays pending, so nothing is
    saved later, and a second blur does nothing. *)
Theorem X24_blur_flushes_pending_save :
  forall (a : string) (edits : list (Z * jsstring)) (e : Editor),
    edits <> [] ->
    let e' := handleBlur (typing a edits e) in
    saveTimer e' = None /\
    nodes e' = typed a edits (nodes e) /\
    saves e' = saves (typing a edits e) ++ [typed a edits (nodes e)] /\
    saves e' = saves (settle (typing a edits e)) /\
    settle e' = e' /\ handleBlur e' = e'.
Proof.
  intros a edits e Hne.
  destruct (typing_timer a edits e Hne) as [due Ht].
  pose proof (typing_nodes a edits e) as Hn.
  unfold handleBlur, settle, fireTimer. rewrite Ht. cbn.
  rewrite Hn. repeat split.
Qed.

Lemma X24_blur_witness :
  let e := mkEditor forestAXB None None [] in
  let e' := handleBlur (typing "B" [(0%Z, jsstr "x")] e) in
  saveTimer e' = None /\
  nodes e' = typed "B" [(0%Z, jsstr "x")] (nodes e) /\
  saves e' = saves (typing "B" [(0%Z, jsstr "x")] e)
             ++ [typed "B" [(0%Z, jsstr "x")] (nodes e)] /\
  saves e' = saves (settle (typing "B" [(0%Z, jsstr "x")] e)) /\
  settle e' = e' /\ handleBlur e' = e'.
Proof.
  apply (X24_blur_flushes_pending_save "B" [(0%Z, jsstr "x")]
           (mkEditor forestAXB None None [])).
  discriminate.
Defined.

(** X25 — Tab does not cancel a pending save.  After typing, Tab (or
    Shift+Tab) saves the moved forest at once, and when the timer of the
    last edit then runs it saves the forest from before the move: the
    last save is the forest as typed, not the forest the editor shows,
    and the two differ whenever the move changed the forest. *)
Theorem X25_tab_leaves_stale_pending_save :
  forall (a b : string) (shiftKey : bool) (edits : list (Z * jsstring))
         (e : Editor),
    edits <> [] ->
    let before := typed a edits (nodes e) in
    let moved := if shiftKey then outdentNode b before
                 else indentNode b before in
    let e' := settle (handleTab shiftKey b (typing a edits e)) in
    nodes e' = moved /\
    saves e' = saves (typing a edits e) ++ [moved; before] /\
    saveTimer e' = None /\
    (moved <> before -> last (saves e') [] <> nodes e').
Proof.
  intros a b shiftKey edits e Hne before moved.
  destruct (typing_timer a edits e Hne) as [due Ht].
  pose proof (typing_nodes a edits e) as Hn. fold before in Hn.
  unfold handleTab, settle, fireTimer, saveNoteData, setNodes.
  cbn [saveTimer nodes saves focusedNodeId]. rewrite Ht, Hn.
  fold moved. cbn [saveTimer nodes saves focusedNodeId].
  rewrite <- app_assoc. cbn [app]. repeat split.
  intros Hdiff.
  replace (saves (typing a edits e) ++ [moved; before])
    with ((saves (typing a edits e) ++ [moved]) ++ [before])
    by (rewrite <- app_assoc; reflexivity).
  rewrite last_last. congruence.
Qed.

Lemma X25_tab_witness :
  let e := mkEditor forestAXB None None [] in
  let e' := settle (handleTab false "B" (typing "B" [(0%Z, jsstr "x")] e)) in
  saves e' = [indentNode "B" (typed "B" [(0%Z, jsstr "x")] forestAXB);
              typed "B" [(0%Z, jsstr "x")] forestAXB] /\
  last (saves e') [] <> nodes e'.
Proof.
  intros e e'.
  assert (Hne : [(0%Z, jsstr "x")] <> []) by discriminate.
  destruct (X25_tab_leaves_stale_pending_save "B" "B" false
              [(0%Z, jsstr "x")] e Hne) as (_ & H2 & _ & H4).
  split; [exact H2|]. apply H4. discriminate.
Defined.

(** ** Storing and loading nodes *)

(** X26 — Loading what was stored gives the forest back:
    [deserializeNodes (serializeNodes nodes)] is [nodes], every field of
    every node as it was, provided reading back the ISO string of each
    date in the forest gives that date. *)
Theorem X26_deserialize_serialize_roundtrip :
  forall (toISOString : Z -> string) (parseDate : string -> Z)
         (l : list NoteNode),
    (forall n, In n (allNodes l) ->
       parseDate (toISOString (createdAt n)) = createdAt n /\
       parseDate (toISOString (updatedAt n)) = updatedAt n) ->
    deserializeNodes parseDate (serializeNodes toISOString l) = l.
Proof.
  intros toISOString parseDate l.
  induction l as [|n l IHc IHl] using forest_ind; [reflexivity|].
  intros H. unfold deserializeNodes, serializeNodes. cbn [map].
  fold (serializeNodes toISOString l).
  fold (deserializeNodes parseDate (serializeNodes toISOString l)).
  rewrite IHl.
  - f_equal.
    assert (Hn : In n (allNodes (n :: l)))
      by (rewrite allNodes_cons; now left).
    destruct (H n Hn) as [E1 E2].
    assert (Hc : deserializeNodes parseDate
                   (serializeNodes toISOString (children n)) = children n).
    { apply IHc. intros m Hm. apply H. rewrite allNodes_cons. right.
      apply in_or_app. now left. }
    clear H Hn IHc IHl. unfold deserializeNodes, serializeNodes in Hc.
    destruct n as [i c cs p k ch st co ca ua]. cbn in *.
    now rewrite E1, E2, Hc.
  - intros m Hm. apply H. rewrite allNodes_cons. right.
    apply in_or_app. now right.
Qed.

Lemma X26_roundtrip_witness :
  deserializeNodes (fun _ => 0%Z)
    (serializeNodes (fun _ => "1970-01-01T00:00:00.000Z") forestAXB)
  = forestAXB.
Proof.
  apply X26_deserialize_serialize_roundtrip.
  intros n Hn. simpl in Hn.
  destruct Hn as [<-|[<-|[<-|[]]]]; split; reflexivity.
Defined.

(** ** Bullets of an answer *)

Lemma stripListMarkers_head s : startsWithMarker (stripListMarkers s) = false.
Proof.
  induction s as [|c s IH]; [reflexivity|]. simpl.
  destruct (isListMarker c) eqn:E; [exact IH|]. simpl. exact E.
Qed.

Lemma isSpace_marker c : isSpace c = true -> isListMarker c = true.
Proof.
  intros H. unfold isListMarker. rewrite H.
  now rewrite !orb_true_r.
Qed.

(** After the markers are stripped there is no white space to trim at
    the start. *)
Lemma trimStart_stripped s :
  trimStart (stripListMarkers s) = stripListMarkers s.
Proof.
  pose proof (stripListMarkers_head s) as H.
  destruct (stripListMarkers s) as [|c r]; [reflexivity|].
  simpl in *. destruct (isSpace c) eqn:E; [|reflexivity].
  apply isSpace_marker in E. congruence.
Qed.

Lemma trimStart_prefix s : exists p, s = p ++ trimStart s.
Proof.
  induction s as [|c s [p IH]]; [now exists []|]. simpl.
  destruct (isSpace c).
  - exists (c :: p). simpl. now f_equal.
  - now exists [].
Qed.

Lemma lineContent_head l :
  lineContent l <> [] -> startsWithMarker (lineContent l) = false.
Proof.
  unfold lineContent, trim. rewrite trimStart_stripped.
  pose proof (stripListMarkers_head l) as H.
  destruct (trimStart_prefix (rev (stripListMarkers l))) as [p E].
  intros Hne.
  apply (f_equal (@rev _)) in E.
  rewrite rev_involutive, rev_app_distr in E.
  destruct (rev (trimStart (rev (stripListMarkers l)))) as [|c r];
    [now elim Hne|].
  rewrite E in H. exact H.
Qed.

Lemma In_firstn {A} (x : A) l :
  forall k, In x (firstn k l) -> In x l.
Proof.
  induction l as [|y l IH]; intros [|k]; simpl; try tauto.
  intros [H|H]; [now left|right; eauto].
Qed.

Lemma bulletsOnly_loop_eq items max :
  forall result,
    List.length result < Nat.max 1 max ->
    bulletsOnly_loop items max result
    = result
      ++ firstn (Nat.max 1 max - List.length result)
           (map asBullet (filter nonEmpty (map lineContent items))).
Proof.
  induction items as [|l rest IH]; intros result Hlen.
  - simpl. rewrite firstn_nil. now rewrite app_nil_r.
  - cbn [bulletsOnly_loop map filter]. fold (lineContent l).
    destruct (lineContent l) as [|c cs] eqn:E.
    + cbn [nonEmpty]. now apply IH.
    + cbn [nonEmpty map]. rewrite length_app. cbn [List.length].
      destruct (Nat.leb_spec max (List.length result + 1)) as [Hle|Hgt].
      * replace (Nat.max 1 max - List.length result) with 1 by lia.
        reflexivity.
      * rewrite IH by (rewrite length_app; cbn [List.length]; lia).
        rewrite length_app. cbn [List.length].
        replace (Nat.max 1 max - List.length result)
          with (S (Nat.max 1 max - (List.length result + 1))) by lia.
        cbn [firstn]. rewrite <- app_assoc. reflexivity.
Qed.

(** X27 — [bulletsOnly(items, max)] is the first [max] (at least one,
    also for [max = 0]) of the non-empty cleaned lines, in order, each
    behind ["• "]; the text behind the bullet is never empty, never
    starts with a list marker, digit or white space, and never ends with
    white space. *)
Theorem X27_bulletsOnly_first_clean_lines :
  forall (items : list jsstring) (max : nat),
    bulletsOnly items max
    = firstn (Nat.max 1 max)
        (map asBullet (filter nonEmpty (map lineContent items))) /\
    List.length (bulletsOnly items max) <= Nat.max 1 max /\
    (forall b, In b (bulletsOnly items max) ->
       exists c, b = BULLET :: 32%N :: c /\ c <> [] /\
                 startsWithMarker c = false /\ endsNonSpace c = true).
Proof.
  intros items max.
  assert (E : bulletsOnly items max
              = firstn (Nat.max 1 max)
                  (map asBullet (filter nonEmpty (map lineContent items)))).
  { unfold bulletsOnly.
    rewrite bulletsOnly_loop_eq by (cbn [List.length]; lia).
    cbn [List.length app]. now rewrite Nat.sub_0_r. }
  split; [exact E|]. split.
  - rewrite E, length_firstn. lia.
  - intros b Hb. rewrite E in Hb. apply In_firstn in Hb.
    apply in_map_iff in Hb. destruct Hb as (c & <- & Hc).
    apply filter_In in Hc. destruct Hc as [Hc Hne].
    apply in_map_iff in Hc. destruct Hc as (l & <- & _).
    exists (lineContent l). 
    assert (Hne' : lineContent l <> [])
      by (intros H; rewrite H in Hne; discriminate).
    repeat split; [exact Hne'|now apply lineContent_head|].
    destruct (trim_end (stripListMarkers l)) as [H|H]; [exact H|].
    now elim Hne'.
Qed.

(** ** Enter, then Backspace *)

Lemma flattenVisibleNodes_app l1 l2 :
  flattenVisibleNodes (l1 ++ l2)
  = flattenVisibleNodes l1 ++ flattenVisibleNodes l2.
Proof. apply flat_map_app. Qed.

Lemma newBulletAtCaret_uniqueIds uuid now a headHTML tailHTML l :
  uniqueIds l -> In a (allIds l) -> ~ In uuid (allIds l) ->
  uniqueIds (newBulletAtCaret uuid now a headHTML tailHTML l).
Proof.
  intros Hu Ha Hfresh.
  pose proof (newBulletAtCaret_spec uuid now a headHTML tailHTML l None
                Hu Ha) as Hspec.
  unfold uniqueIds. apply (Permutation_NoDup (l := uuid :: allIds l));
    [|constructor; assumption].
  symmetry. refine (InForest_ids _ [uuid] _ _ _ _ Hspec).
  intros p s s' (b & m & c & -> & Hm & ->).
  rewrite !allIds_app, !allIds_cons. simpl.
  replace (allIds b ++ id m :: allIds (children m) ++ uuid :: allIds c)
    with ((allIds b ++ id m :: allIds (children m)) ++ uuid :: allIds c)
    by (rewrite <- app_assoc; reflexivity).
  replace (allIds b ++ id m :: allIds (children m) ++ allIds c)
    with ((allIds b ++ id m :: allIds (children m)) ++ allIds c)
    by (rewrite <- app_assoc; reflexivity).
  symmetry. apply Permutation_middle.
Qed.

(** A node put right after a visible node without visible children is
    the next node on screen. *)
Lemma inserted_is_next_visible a x f parent l l1 :
  InForest
    (fun _ s s' =>
       exists before n0 after,
         s = before ++ n0 :: after /\ id n0 = a /\
         s' = before ++ f n0 :: x :: after)
    parent l l1 ->
  (forall m, collapsed (f m) = collapsed m) ->
  (forall m, children (f m) = children m) ->
  forall n,
    uniqueIds l -> In n (flattenVisibleNodes l) -> id n = a ->
    children n = [] \/ flag (collapsed n) = true ->
    exists X' Y', flattenVisibleNodes l1 = X' ++ f n :: x :: Y'.
Proof.
  intros HF Hcol Hch.
  induction HF as [parent s s' (b & n0 & c & -> & Hid & ->)
                  |parent b m c cs' HF IH];
    intros n Hu Hn Hna Hhid.
  - assert (n0 = n) as ->.
    { apply (unique_node _ n0 n Hu);
        [apply in_top_allNodes, in_elt
        |now apply visible_in_forest|congruence]. }
    exists (flattenVisibleNodes b).
    exists ((if flag (collapsed x) then []
             else flattenVisibleNodes (children x))
            ++ flattenVisibleNodes c).
    rewrite flattenVisibleNodes_app, (flattenVisibleNodes_cons (f n)).
    rewrite (flattenVisibleNodes_cons x), Hcol, Hch.
    assert (Hmid : (if flag (collapsed n) then []
                    else flattenVisibleNodes (children n)) = []).
    { destruct Hhid as [-> | ->]; [|reflexivity].
      now destruct (flag (collapsed n)). }
    now rewrite Hmid.
  - assert (Ha : In (id n) (allIds (children m))).
    { rewrite Hna.
      refine (InForest_source_key _ a _ _ _ _ HF).
      intros p s s' (b0 & n0 & c0 & -> & Hid & _).
      exists n0. split; [apply in_elt|exact Hid]. }
    pose proof (uniqueIds_split _ _ _ Hu) as
      (_ & Hum & _ & _ & Hmm & _ & Hdb & Hdc & _).
    rewrite flattenVisibleNodes_app, flattenVisibleNodes_cons in Hn.
    apply in_app_or in Hn. destruct Hn as [Hn|[Hn|Hn]].
    + exfalso. apply (Hdb _ Ha).
      now apply in_allNodes_ids, visible_in_forest.
    + subst n. contradiction.
    + apply in_app_or in Hn. destruct Hn as [Hn|Hn].
      * destruct (flag (collapsed m)) eqn:Em; [destruct Hn|].
        destruct (IH n Hum Hn Hna Hhid) as (X' & Y' & E).
        exists (flattenVisibleNodes b ++ with_children m cs' :: X').
        exists (Y' ++ flattenVisibleNodes c).
        rewrite flattenVisibleNodes_app, flattenVisibleNodes_cons.
        cbn [with_children collapsed children]. rewrite Em, E.
        rewrite <- !app_assoc. cbn [app]. rewrite <- ?app_assoc.
        reflexivity.
      * exfalso. apply (Hdc _ Ha).
        now apply in_allNodes_ids, visible_in_forest.
Qed.

Lemma delete_mapped u (F : list NoteNode -> list NoteNode) s :
  (forall node, In node s ->
     deleteFromList u (F (children node)) = children node) ->
  (forall node, In node s -> hasId u node = false) ->
  deleteFromList u
    (map (fun node => with_children node (F (children node))) s) = s.
Proof.
  induction s as [|node s IH]; intros HF Hid; [reflexivity|].
  cbn [map]. rewrite deleteFromList_cons, hasId_with_children.
  rewrite (Hid node (or_introl eq_refl)).
  rewrite with_children_children, with_children_twice.
  rewrite (HF node (or_introl eq_refl)), with_children_same.
  f_equal. apply IH; intros; [apply HF|apply Hid]; now right.
Qed.

(** Deleting a node that was just inserted under a fresh id gives the
    forest back. *)
Lemma delete_inserted a x l :
  ~ In (id x) (allIds l) ->
  deleteFromList (id x) (insertAfterNode a x l) = l.
Proof.
  unfold insertAfterNode. induction l as [l IH] using forest_rec.
  intros Hfresh. rewrite insertInList_eq.
  destruct (findIndex (hasId a) l) as [index|] eqn:E.
  - apply findIndex_Some in E.
    destruct E as (b & n0 & c & -> & <- & _ & _).
    rewrite spliceIn_split.
    replace (b ++ n0 :: x :: c) with ((b ++ [n0]) ++ x :: c)
      by (rewrite <- app_assoc; reflexivity).
    rewrite deleteFromList_app, deleteFromList_cons.
    rewrite (proj2 (hasId_true (id x) x) eq_refl).
    rewrite <- deleteFromList_app, <- app_assoc. cbn [app].
    now apply deleteFromList_absent.
  - apply delete_mapped.
    + intros node Hnode. apply (IH node Hnode).
      now apply (absent_children _ _ Hfresh).
    + now apply absent_top.
Qed.

Lemma enter_then_backspace innerHTML uuid now now' l n headHTML tailHTML :
  uniqueIds l -> ~ In uuid (allIds l) ->
  In n (flattenVisibleNodes l) ->
  children n = [] \/ flag (collapsed n) = true ->
  inSync innerHTML (newBulletAtCaret uuid now (id n) headHTML tailHTML l) ->
  mergeIntoPrevious innerHTML now' None uuid
    (newBulletAtCaret uuid now (id n) headHTML tailHTML l)
  = Some (updateNodeContent (id n) (mergedHtml headHTML tailHTML) now' l).
Proof.
  intros Hu Hfresh Hvis Hhid.
  assert (Hn : In n (allNodes l)) by now apply visible_in_forest.
  assert (Ha : In (id n) (allIds l)) by now apply in_allNodes_ids.
  set (l1 := newBulletAtCaret uuid now (id n) headHTML tailHTML l).
  intros Hsync.
  assert (Hu1 : uniqueIds l1) by now apply newBulletAtCaret_uniqueIds.
  pose proof (newBulletAtCaret_spec uuid now (id n) headHTML tailHTML l
                None Hu Ha) as Hspec.
  destruct (inserted_is_next_visible (id n)
              (freshNode uuid tailHTML now)
              (fun m => with_content m headHTML now) None l l1 Hspec
              (fun m => eq_refl) (fun m => eq_refl) n Hu Hvis eq_refl Hhid)
    as (X' & Y' & Eflat).
  set (n' := with_content n headHTML now) in *.
  set (x := freshNode uuid tailHTML now) in *.
  assert (Hnd : NoDup (map id (flattenVisibleNodes l1)))
    by now apply visIds_NoDup.
  assert (Eflat' : flattenVisibleNodes l1 = (X' ++ [n']) ++ x :: Y')
    by (rewrite <- app_assoc; exact Eflat).
  unfold mergeIntoPrevious.
  change (getCurrentNodes None l1) with l1.
  change uuid with (id x) at 1.
  rewrite (findIndex_NoDup _ _ x Y' Hnd Eflat').
  rewrite length_app, Nat.add_1_r, Eflat, nth_error_split. f_equal.
  assert (Hn' : In n' (allNodes l1)).
  { apply visible_in_forest. rewrite Eflat. apply in_elt. }
  assert (Hx : In x (allNodes l1)).
  { apply visible_in_forest. rewrite Eflat'. apply in_elt. }
  assert (Hne : id n' <> id x).
  { cbn. intros E. apply Hfresh. now rewrite <- E. }
  change uuid with (id x).
  rewrite (mergeInto_eq innerHTML now' l1 n' x Hu1 Hsync Hn' Hx Hne).
  unfold l1 at 1, newBulletAtCaret.
  fold x. rewrite delete_inserted.
  - rewrite !updateNodeContent_applyAt.
    change (id n') with (id n).
    rewrite applyAt_compose by reflexivity.
    apply applyAt_ext. intros m. destruct m. cbn.
    now rewrite app_nil_r.
  - rewrite updateNodeContent_applyAt, applyAt_ids by reflexivity.
    exact Hfresh.
Qed.

(** X28 — Enter in a visible bullet without visible children (none, or
    collapsed), then Backspace at the start of the new bullet, gives
    the forest from before Enter with only the content and [updatedAt]
    of the bullet rewritten.  The content is the head that Enter left in
    the bullet followed by the tail it moved to the new bullet, with one
    space between them when the test of the merge asks for it: a word
    cut in two comes back with a space in it. *)
Theorem X28_enter_then_backspace_rejoins :
  forall (innerHTML : string -> option jsstring) (uuid : string)
         (now now' : Z) (l : list NoteNode) (n : NoteNode)
         (headHTML tailHTML : jsstring),
    uniqueIds l -> ~ In uuid (allIds l) ->
    In n (flattenVisibleNodes l) ->
    children n = [] \/ flag (collapsed n) = true ->
    inSync innerHTML
      (newBulletAtCaret uuid now (id n) headHTML tailHTML l) ->
    mergeIntoPrevious innerHTML now' None uuid
      (newBulletAtCaret uuid now (id n) headHTML tailHTML l)
    = Some (updateNodeContent (id n)
              (if needsSpace headHTML tailHTML
               then headHTML ++ 32%N :: tailHTML
               else headHTML ++ tailHTML)
              now' l).
Proof.
  intros innerHTML uuid now now' l n headHTML tailHTML
         Hu Hfresh Hvis Hhid Hsync.
  rewrite (enter_then_backspace innerHTML uuid now now' l n
             headHTML tailHTML Hu Hfresh Hvis Hhid Hsync).
  reflexivity.
Qed.

Lemma X28_enter_backspace_witness :
  mergeIntoPrevious (fun _ => None) 9 None "N"
    (newBulletAtCaret "N" 5 "B" (jsstr "b") (jsstr "ar") forestAXB)
  = Some (updateNodeContent "B" (jsstr "b ar") 9 forestAXB).
Proof.
  assert (Hu : uniqueIds forestAXB) by distinct_ids.
  assert (Hf : ~ In "N" (allIds forestAXB))
    by (simpl; intuition discriminate).
  assert (Hv : In (bullet "B" "bar" []) (flattenVisibleNodes forestAXB))
    by (simpl; auto).
  assert (Hs : inSync (fun _ => None)
                 (newBulletAtCaret "N" 5 (id (bullet "B" "bar" []))
                    (jsstr "b") (jsstr "ar") forestAXB))
    by (intros m _; now left).
  exact (X28_enter_then_backspace_rejoins (fun _ => None) "N" 5 9
           forestAXB (bullet "B" "bar" []) (jsstr "b") (jsstr "ar")
           Hu Hf Hv (or_introl eq_refl) Hs).
Defined.

(** X29 helpers: what is rendered after a click. *)

Lemma existsb_hasId t (flat : list NoteNode) :
  existsb (hasId t) flat = true <-> In t (map id flat).
Proof.
  rewrite existsb_exists, in_map_iff. split.
  - intros (x & Hx & E). exists x. split; [now apply hasId_true|exact Hx].
  - intros (x & E & Hx). exists x. split; [exact Hx|now apply hasId_true].
Qed.

(** A visible node is still visible when an [apply] walk rewrites it
    without touching its [collapsed] flag. *)
Lemma applied_visible a f l n :
  (forall m, collapsed (f m) = collapsed m) ->
  uniqueIds l -> In n (flattenVisibleNodes l) -> id n = a ->
  In (f n) (flattenVisibleNodes (applyAt a f l)).
Proof.
  intros Hcol. induction l as [|m rest IHc IHl] using forest_ind;
    [intros _ []|].
  intros Hu Hn Hid.
  destruct (uniqueIds_cons _ _ Hu) as (Hmc & Hml & Huc & Hul & _).
  rewrite flattenVisibleNodes_cons in Hn.
  rewrite applyAt_cons, flattenVisibleNodes_cons.
  destruct Hn as [<-|Hn].
  - rewrite (proj2 (hasId_true a m) Hid). now left.
  - assert (Hne : hasId a m = false).
    { apply hasId_false. intros E. apply in_app_or in Hn.
      destruct Hn as [Hn|Hn].
      - destruct (flag (collapsed m)); [destruct Hn|].
        apply Hmc. rewrite E, <- Hid.
        now apply in_allNodes_ids, visible_in_forest.
      - apply Hml. rewrite E, <- Hid.
        now apply in_allNodes_ids, visible_in_forest. }
    rewrite Hne. cbn [with_children collapsed children]. right.
    apply in_app_or in Hn. apply in_or_app. destruct Hn as [Hn|Hn].
    + left. destruct (flag (collapsed m)); [destruct Hn|].
      now apply IHc.
    + right. now apply IHl.
Qed.

(** Nothing below a collapsed node is on screen. *)
Lemma below_collapsed_hidden l n :
  uniqueIds l -> In n (allNodes l) -> flag (collapsed n) = true ->
  forall i, In i (allIds (children n)) -> ~ In i (visIds l).
Proof.
  induction l as [|m rest IHc IHl] using forest_ind; [intros _ []|].
  intros Hu Hn Hcol i Hi.
  destruct (uniqueIds_cons _ _ Hu) as (Hmc & Hml & Huc & Hul & Hdisj).
  rewrite visIds_cons. rewrite allNodes_cons in Hn.
  destruct Hn as [<-|Hn].
  - rewrite Hcol. cbn [app]. intros [E|H].
    + apply Hmc. now rewrite E.
    + exact (Hdisj i Hi (visIds_incl _ _ H)).
  - apply in_app_or in Hn. destruct Hn as [Hn|Hn].
    + assert (Him : In i (allIds (children m)))
        by (eapply allIds_children_of; eauto).
      intros [E|H]; [apply Hmc; now rewrite E|].
      apply in_app_or in H. destruct H as [H|H].
      * destruct (flag (collapsed m)); [destruct H|].
        exact (IHc Huc Hn Hcol i Hi H).
      * exact (Hdisj i Him (visIds_incl _ _ H)).
    + assert (Hir : In i (allIds rest))
        by (eapply allIds_children_of; eauto).
      intros [E|H]; [apply Hml; now rewrite E|].
      apply in_app_or in H. destruct H as [H|H].
      * destruct (flag (collapsed m)); [destruct H|].
        exact (Hdisj i (visIds_incl _ _ H) Hir).
      * exact (IHl Hul Hn Hcol i Hi H).
Qed.

Lemma addChildNode_node uuid now l p :
  uniqueIds l -> In p (allNodes l) -> ~ In uuid (allIds l) ->
  let child := mkNode uuid [] [] (Some (id p)) None None None None
                      now now in
  uniqueIds (addChildNode uuid now (id p) l) /\
  In (with_children p (children p ++ [child]))
     (allNodes (addChildNode uuid now (id p) l)).
Proof.
  intros Hu Hn Hfresh child.
  set (l' := addChildNode uuid now (id p) l).
  assert (HF : InForest
      (fun _ s s' =>
         exists before after,
           s = before ++ p :: after /\
           s' = before ++ with_children p (children p ++ [child]) :: after)
      None l l').
  { exact (applyAt_node (id p)
             (fun n => with_children n (children n ++ [child]))
             l p None Hu Hn eq_refl). }
  split.
  - unfold uniqueIds.
    apply (Permutation_NoDup (l := uuid :: allIds l));
      [|constructor; assumption].
    symmetry. refine (InForest_ids _ [uuid] None l l' _ HF).
    intros q s s' (b & c & -> & ->).
    rewrite !allIds_app, allIds_with_children, allIds_cons, allIds_app.
    cbn [app]. symmetry.
    replace (allIds b ++ id p :: (allIds (children p) ++ allIds [child])
             ++ allIds c)
      with ((allIds b ++ id p :: allIds (children p)) ++ uuid :: allIds c)
      by (rewrite <- !app_assoc; reflexivity).
    apply Permutation_cons_app. rewrite <- app_assoc. reflexivity.
  - refine (InForest_target_node _ _ None l l' _ HF).
    intros q s s' (b & c & _ & ->). apply in_or_app. right. now left.
Qed.

(** ** The "Focus child" button and focus mode *)

(** X29 — "Focus child" on an active bullet that is on screen (outside
    focus mode, unique ids, a fresh id for a new child).  When the
    bullet has children the forest stays as it is.  When the bullet is
    expanded the focus lands on its first child in the forest the click
    leaves: the existing first child, or the child just added when there
    was none.  When the bullet is collapsed the focus does not move: its
    children, also one just added, are not rendered. *)
Theorem X29_focusChild_lands_on_first_child :
  forall (uuid : string) (now : Z) (l : list NoteNode) (n : NoteNode),
    uniqueIds l -> ~ In uuid (allIds l) -> id n <> "" ->
    In n (flattenVisibleNodes l) ->
    let after := fst (focusChild uuid now (Some (id n)) None l) in
    let target := snd (focusChild uuid now (Some (id n)) None l) in
    (children n <> [] -> after = l) /\
    (flag (collapsed n) = false ->
     exists p c rest,
       findNodeById after (id n) = Some p /\
       children p = c :: rest /\
       target = Some (id c)) /\
    (flag (collapsed n) = true -> target = None).
Proof.
  intros uuid now l n Hu Hfresh Hne Hvis.
  assert (Hn : In n (allNodes l)) by now apply visible_in_forest.
  unfold focusChild.
  rewrite (truthyId_proper (id n) Hne), (findNodeById_unique l n Hu Hn).
  unfold focusNode. cbn [getCurrentNodes truthyId].
  destruct (children n) as [|c cs] eqn:Hch; cbn [fst snd].
  - set (child := mkNode uuid [] [] (Some (id n)) None None None None
                         now now).
    set (n' := with_children n (children n ++ [child])).
    destruct (addChildNode_node uuid now l n Hu Hn Hfresh) as [Hu' Hn'].
    fold child in Hn'. fold n' in Hn'.
    set (l' := addChildNode uuid now (id n) l) in *.
    split; [intros H; now elim H|]. split.
    + intros Hcol.
      assert (Hvis' : In n' (flattenVisibleNodes l')).
      { exact (applied_visible (id n)
                 (fun m => with_children m (children m ++ [child]))
                 l n (fun m => eq_refl) Hu Hvis eq_refl). }
      destruct (in_split _ _ Hvis') as (X & Y & E).
      destruct (visible_next_child l' X n' Y E Hcol child []) as [Y' ->].
      { cbn [n' with_children children]. now rewrite Hch. }
      exists n', child, []. split; [|split].
      * unfold l', addChildNode.
        rewrite findNodeById_applyAt by reflexivity.
        now rewrite (findNodeById_unique l n Hu Hn).
      * cbn [n' with_children children]. now rewrite Hch.
      * assert (Hin : In uuid (map id (flattenVisibleNodes l'))).
        { rewrite E, map_app. apply in_or_app. right. right. now left. }
        apply existsb_hasId in Hin. now rewrite Hin.
    + intros Hcol.
      destruct (existsb (hasId uuid) (flattenVisibleNodes l')) eqn:Ex;
        [|reflexivity].
      apply existsb_hasId in Ex. exfalso.
      apply (below_collapsed_hidden l' n' Hu' Hn' Hcol uuid); [|exact Ex].
      cbn [n' with_children children]. rewrite allIds_app.
      apply in_or_app. right. now left.
  - split; [reflexivity|]. split.
    + intros Hcol. destruct (in_split _ _ Hvis) as (X & Y & E).
      destruct (visible_next_child l X n Y E Hcol c cs Hch) as [Y' ->].
      exists n, c, cs. split; [now apply findNodeById_unique|].
      split; [exact Hch|].
      assert (Hin : In (id c) (map id (flattenVisibleNodes l))).
      { rewrite E, map_app. apply in_or_app. right. right. now left. }
      apply existsb_hasId in Hin. now rewrite Hin.
    + intros Hcol.
      destruct (existsb (hasId (id c)) (flattenVisibleNodes l)) eqn:Ex;
        [|reflexivity].
      apply existsb_hasId in Ex. exfalso.
      apply (below_collapsed_hidden l n Hu Hn Hcol (id c)); [|exact Ex].
      rewrite Hch, allIds_cons. now left.
Qed.

Lemma X29_focusChild_witness :
  let after := fst (focusChild "N" 7 (Some "B") None forestAXB) in
  let target := snd (focusChild "N" 7 (Some "B") None forestAXB) in
  (children (bullet "B" "bar" []) <> [] -> after = forestAXB) /\
  (flag (collapsed (bullet "B" "bar" [])) = false ->
   exists p c rest,
     findNodeById after "B" = Some p /\
     children p = c :: rest /\
     target = Some (id c)) /\
  (flag (collapsed (bullet "B" "bar" [])) = true -> target = None).
Proof.
  apply (X29_focusChild_lands_on_first_child "N" 7 forestAXB
           (bullet "B" "bar" [])).
  - distinct_ids.
  - simpl. intuition discriminate.
  - discriminate.
  - simpl. auto.
Defined.

(** X30 — Focus mode keeps [focusedNodeId] and [breadcrumbs] in step:
    after [handleNodeClick] on a node with children and after
    [navigateBack] from a non-empty trail the focused node is the last
    breadcrumb (none without breadcrumbs); a click on a node without
    children changes nothing; and [navigateBack] undoes
    [handleNodeClick]. *)
Theorem X30_breadcrumbs_follow_focus :
  forall (node : NoteNode) (st : option string * list NoteNode),
    (children node <> [] -> crumbsInSync (handleNodeClick node st)) /\
    (children node = [] -> handleNodeClick node st = st) /\
    (snd st <> [] -> crumbsInSync (navigateBack st)) /\
    (crumbsInSync st -> crumbsInSync (navigateBack st)) /\
    (crumbsInSync st -> children node <> [] ->
     navigateBack (handleNodeClick node st) = st).
Proof.
  intros node [focused crumbs].
  assert (Hback : crumbs <> [] ->
                  crumbsInSync (navigateBack (focused, crumbs))).
  { intros Hne. unfold navigateBack, crumbsInSync. cbn [fst snd].
    destruct crumbs as [|c cs]; [now elim Hne|].
    cbn [List.length Nat.ltb Nat.leb].
    destruct (rev (removelast (c :: cs))) eqn:E; cbn [fst snd];
      now rewrite E. }
  unfold handleNodeClick. cbn [fst snd].
  split; [|split; [|split; [|split]]].
  - intros Hne. destruct (children node); [now elim Hne|].
    cbn [List.length Nat.ltb Nat.leb]. unfold crumbsInSync. cbn [fst snd].
    now rewrite rev_app_distr.
  - now intros ->.
  - exact Hback.
  - intros Hsync. destruct crumbs as [|c cs]; [exact Hsync|].
    apply Hback. discriminate.
  - intros Hsync Hne. destruct (children node); [now elim Hne|].
    cbn [List.length Nat.ltb Nat.leb]. unfold navigateBack. cbn [fst snd].
    rewrite length_app, Nat.add_1_r. cbn [Nat.ltb Nat.leb].
    rewrite removelast_last. unfold crumbsInSync in Hsync.
    cbn [fst snd] in Hsync. rewrite Hsync.
    now destruct (rev crumbs).
Qed.
